(** * Seastar core: io_uring submission ring, gate, abort_source, sleep_abortable

    A shallow embedding of
      - include/seastar/core/linux-io-uring.hh and src/core/linux-io-uring.cc
        (ring setup, slot acquisition and submission on the ring shared
        with the kernel),
      - core/gate.hh (the gate and its close-signal targets),
      - core/abort_source.hh (the abort source and its subscriptions),
      - core/sleep.hh (sleep_abortable against a gate),
    followed by the properties of these functions.  Kernel calls are answered
    by explicit arguments, so that every statement holds for whatever the
    kernel answers; callbacks are functions on the state they act on. *)

From Stdlib Require Import ZArith Lia List String Bool Sorted.
From stdpp Require Import base option list gmap strings.
Import ListNotations.
Local Open Scope Z_scope.

(** ** Outcomes of a call

    C++ calls end in one of four ways: a normal return, a thrown exception,
    a failed [assert] (the process aborts), or undefined behaviour. *)

Inductive exn : Type :=
| system_error (errno : Z) (what : string)   (* std::system_error *)
| gate_closed_exception                      (* seastar::gate_closed_exception *)
| sleep_aborted.                             (* seastar::sleep_aborted *)

Inductive outcome (A : Type) : Type :=
| Ok (a : A)
| Throw (e : exn)
| AssertFail (msg : string)
| Undefined.

Arguments Ok {A} a.
Arguments Throw {A} e.
Arguments AssertFail {A} msg.
Arguments Undefined {A}.

(** Modelled from the spec: throw_system_error_on(cond, what) of
    core/posix.hh, which is not among the sources, "a way to obtain/raise
    system errors": when [cond] holds it throws the std::system_error that
    carries the current errno. *)
Definition throw_system_error_on (cond : bool) (errno : Z) (what : string) : outcome unit :=
  if cond then Throw (system_error errno what) else Ok tt.

(** Unsigned wrap-around of the two integer widths the code uses. *)
Definition u32 (z : Z) : Z := z mod 2 ^ 32.
Definition u64 (z : Z) : Z := z mod 2 ^ 64.

(** ** The io_uring ring protocol *)

Module Uring.

(** *** linux_abi: setup parameters and offsets *)

Definition IORING_OFF_SQ_RING : Z := 0.
Definition IORING_OFF_CQ_RING : Z := 0x8000000.
Definition IORING_OFF_SQES : Z := 0x10000000.

(* io_uring_setup_flags *)
Definition IOPOLL : Z := 1.
Definition SQPOLL : Z := 2.
Definition SQ_AFF : Z := 4.

(* io_uring_enter_flags *)
Definition GETEVENTS : Z := 1.
Definition SQ_WAKEUP : Z := 2.

Definition sizeof_uint32_t : Z := 4.
Definition sizeof_io_uring_sqe : Z := 64.
Definition sizeof_io_uring_cqe : Z := 16.

(* io_sqring_offsets (with its base io_uring_offsets_base) *)
Record io_sqring_offsets : Type := {
  sqo_head : Z;
  sqo_tail : Z;
  sqo_ring_mask : Z;
  sqo_ring_entries : Z;
  sqo_flags : Z;
  sqo_dropped : Z;
  sqo_index_array : Z
}.

(* io_cqring_offsets (with its base io_uring_offsets_base) *)
Record io_cqring_offsets : Type := {
  cqo_head : Z;
  cqo_tail : Z;
  cqo_ring_mask : Z;
  cqo_ring_entries : Z;
  cqo_overflow : Z;
  cqo_cqes : Z
}.

Record io_uring_params : Type := {
  sq_entries : Z;
  cq_entries : Z;
  flags : Z;
  sq_thread_cpu : Z;
  sq_thread_idle : Z;
  sq_off : io_sqring_offsets;
  cq_off : io_cqring_offsets
}.

(** *** The ring descriptor

    Pointers are addresses (Z); [sq_head], [sq_tail], [sq_flags],
    [sq_dropped], [sq_index_array] point into the mapped submission ring,
    [sq_sqes] is the base of the slot array, and the [cq_] pointers point
    into the mapped completion ring. *)

Record io_uring_sq : Type := {
  sq_head : Z;          (* std::atomic<uint32_t>*  (io_uring_base::head) *)
  sq_tail : Z;          (* std::atomic<uint32_t>*  (io_uring_base::tail) *)
  sq_ring_size : Z;     (* uint32_t                (io_uring_base::ring_size) *)
  sq_ring_mask : Z;     (* uint32_t                (io_uring_base::ring_mask) *)
  sq_flags : Z;         (* uint32_t* *)
  sq_dropped : Z;       (* uint32_t* *)
  sq_index_array : Z;   (* uint32_t* *)
  sq_sqes : Z;          (* io_uring_sqe* *)
  sqe_head : Z;         (* uint32_t *)
  sqe_tail : Z;         (* uint32_t *)
  pending : bool
}.

Record io_uring_cq : Type := {
  cq_head : Z;
  cq_tail : Z;
  cq_ring_size : Z;
  cq_ring_mask : Z;
  cq_overflow : Z;
  cq_cqes : Z
}.

Record io_uring : Type := {
  sq : io_uring_sq;
  cq : io_uring_cq;
  ring_fd : Z
}.

(* Field assignments [ring.sq.f = v] and [ring.cq.f = v]. *)
Definition with_sq (f : io_uring_sq -> io_uring_sq) (r : io_uring) : io_uring :=
  {| sq := f (sq r); cq := cq r; ring_fd := ring_fd r |}.
Definition with_cq (f : io_uring_cq -> io_uring_cq) (r : io_uring) : io_uring :=
  {| sq := sq r; cq := f (cq r); ring_fd := ring_fd r |}.

Definition set_sq_head v s := {| sq_head := v; sq_tail := sq_tail s; sq_ring_size := sq_ring_size s; sq_ring_mask := sq_ring_mask s; sq_flags := sq_flags s; sq_dropped := sq_dropped s; sq_index_array := sq_index_array s; sq_sqes := sq_sqes s; sqe_head := sqe_head s; sqe_tail := sqe_tail s; pending := pending s |}.
Definition set_sq_tail v s := {| sq_head := sq_head s; sq_tail := v; sq_ring_size := sq_ring_size s; sq_ring_mask := sq_ring_mask s; sq_flags := sq_flags s; sq_dropped := sq_dropped s; sq_index_array := sq_index_array s; sq_sqes := sq_sqes s; sqe_head := sqe_head s; sqe_tail := sqe_tail s; pending := pending s |}.
Definition set_sq_ring_size v s := {| sq_head := sq_head s; sq_tail := sq_tail s; sq_ring_size := v; sq_ring_mask := sq_ring_mask s; sq_flags := sq_flags s; sq_dropped := sq_dropped s; sq_index_array := sq_index_array s; sq_sqes := sq_sqes s; sqe_head := sqe_head s; sqe_tail := sqe_tail s; pending := pending s |}.
Definition set_sq_ring_mask v s := {| sq_head := sq_head s; sq_tail := sq_tail s; sq_ring_size := sq_ring_size s; sq_ring_mask := v; sq_flags := sq_flags s; sq_dropped := sq_dropped s; sq_index_array := sq_index_array s; sq_sqes := sq_sqes s; sqe_head := sqe_head s; sqe_tail := sqe_tail s; pending := pending s |}.
Definition set_sq_flags v s := {| sq_head := sq_head s; sq_tail := sq_tail s; sq_ring_size := sq_ring_size s; sq_ring_mask := sq_ring_mask s; sq_flags := v; sq_dropped := sq_dropped s; sq_index_array := sq_index_array s; sq_sqes := sq_sqes s; sqe_head := sqe_head s; sqe_tail := sqe_tail s; pending := pending s |}.
Definition set_sq_dropped v s := {| sq_head := sq_head s; sq_tail := sq_tail s; sq_ring_size := sq_ring_size s; sq_ring_mask := sq_ring_mask s; sq_flags := sq_flags s; sq_dropped := v; sq_index_array := sq_index_array s; sq_sqes := sq_sqes s; sqe_head := sqe_head s; sqe_tail := sqe_tail s; pending := pending s |}.
Definition set_sq_index_array v s := {| sq_head := sq_head s; sq_tail := sq_tail s; sq_ring_size := sq_ring_size s; sq_ring_mask := sq_ring_mask s; sq_flags := sq_flags s; sq_dropped := sq_dropped s; sq_index_array := v; sq_sqes := sq_sqes s; sqe_head := sqe_head s; sqe_tail := sqe_tail s; pending := pending s |}.
Definition set_sq_sqes v s := {| sq_head := sq_head s; sq_tail := sq_tail s; sq_ring_size := sq_ring_size s; sq_ring_mask := sq_ring_mask s; sq_flags := sq_flags s; sq_dropped := sq_dropped s; sq_index_array := sq_index_array s; sq_sqes := v; sqe_head := sqe_head s; sqe_tail := sqe_tail s; pending := pending s |}.
Definition set_sqe_head v s := {| sq_head := sq_head s; sq_tail := sq_tail s; sq_ring_size := sq_ring_size s; sq_ring_mask := sq_ring_mask s; sq_flags := sq_flags s; sq_dropped := sq_dropped s; sq_index_array := sq_index_array s; sq_sqes := sq_sqes s; sqe_head := v; sqe_tail := sqe_tail s; pending := pending s |}.
Definition set_sqe_tail v s := {| sq_head := sq_head s; sq_tail := sq_tail s; sq_ring_size := sq_ring_size s; sq_ring_mask := sq_ring_mask s; sq_flags := sq_flags s; sq_dropped := sq_dropped s; sq_index_array := sq_index_array s; sq_sqes := sq_sqes s; sqe_head := sqe_head s; sqe_tail := v; pending := pending s |}.
Definition set_pending v s := {| sq_head := sq_head s; sq_tail := sq_tail s; sq_ring_size := sq_ring_size s; sq_ring_mask := sq_ring_mask s; sq_flags := sq_flags s; sq_dropped := sq_dropped s; sq_index_array := sq_index_array s; sq_sqes := sq_sqes s; sqe_head := sqe_head s; sqe_tail := sqe_tail s; pending := v |}.

Definition set_cq_head v c := {| cq_head := v; cq_tail := cq_tail c; cq_ring_size := cq_ring_size c; cq_ring_mask := cq_ring_mask c; cq_overflow := cq_overflow c; cq_cqes := cq_cqes c |}.
Definition set_cq_tail v c := {| cq_head := cq_head c; cq_tail := v; cq_ring_size := cq_ring_size c; cq_ring_mask := cq_ring_mask c; cq_overflow := cq_overflow c; cq_cqes := cq_cqes c |}.
Definition set_cq_ring_size v c := {| cq_head := cq_head c; cq_tail := cq_tail c; cq_ring_size := v; cq_ring_mask := cq_ring_mask c; cq_overflow := cq_overflow c; cq_cqes := cq_cqes c |}.
Definition set_cq_ring_mask v c := {| cq_head := cq_head c; cq_tail := cq_tail c; cq_ring_size := cq_ring_size c; cq_ring_mask := v; cq_overflow := cq_overflow c; cq_cqes := cq_cqes c |}.
Definition set_cq_overflow v c := {| cq_head := cq_head c; cq_tail := cq_tail c; cq_ring_size := cq_ring_size c; cq_ring_mask := cq_ring_mask c; cq_overflow := v; cq_cqes := cq_cqes c |}.
Definition set_cq_cqes v c := {| cq_head := cq_head c; cq_tail := cq_tail c; cq_ring_size := cq_ring_size c; cq_ring_mask := cq_ring_mask c; cq_overflow := cq_overflow c; cq_cqes := v |}.

(** *** The kernel side: mapped regions and shared memory

    [mappings] lists the regions (start, length) mapped into the process;
    [mem] holds the 32-bit words of the shared rings by address. *)

Record kernel : Type := {
  mappings : list (Z * Z);
  mem : gmap Z Z
}.

Definition load32 (m : gmap Z Z) (a : Z) : Z := default 0 (m !! a).
Definition store32 (m : gmap Z Z) (a v : Z) : gmap Z Z := <[a := v]> m.

Definition MAP_FAILED : Z := -1.

Definition disjoint_region (p n : Z) (r : Z * Z) : bool :=
  (fst r + snd r <=? p) || (p + n <=? fst r).

Definition overlaps (k : kernel) (p n : Z) : bool :=
  existsb (fun r => negb (disjoint_region p n r)) (mappings k).

(* What the kernel answers to one call. *)
Record sys_resp : Type := { sys_ret : Z; sys_errno : Z }.

(** mmap(0, size, PROT_READ | PROT_WRITE, MAP_SHARED | MAP_POPULATE, fd, magic).
    The kernel answers with MAP_FAILED or with the start of a fresh region:
    with a null hint and without MAP_FIXED it never hands out a range that
    overlaps an existing mapping, and a length of zero is refused. *)
Definition sys_mmap (k : kernel) (size fd magic : Z) (r : sys_resp) : Z * kernel :=
  if (sys_ret r <? 0) || (size <=? 0) || overlaps k (sys_ret r) size
  then (MAP_FAILED, k)
  else (sys_ret r, {| mappings := (sys_ret r, size) :: mappings k; mem := mem k |}).

(* The part of region [r] left once [p, p + n) is unmapped. *)
Definition region_minus (p n : Z) (r : Z * Z) : list (Z * Z) :=
  if disjoint_region p n r then [r]
  else (if fst r <? p then [(fst r, p - fst r)] else [])
       ++ (if p + n <? fst r + snd r then [(p + n, fst r + snd r - (p + n))] else []).

(** munmap(addr, len): every byte of [addr, addr + len) is unmapped. *)
Definition sys_munmap (k : kernel) (addr len : Z) : kernel :=
  {| mappings := flat_map (region_minus addr len) (mappings k); mem := mem k |}.

Definition is_mapped (k : kernel) (a : Z) : bool :=
  existsb (fun r => (fst r <=? a) && (a <? fst r + snd r)) (mappings k).

(** *** Ring setup: io_uring_queue_mmap and io_uring_queue_init *)

(* What the kernel answers to io_uring_setup: the return value, errno, and
   the parameter block as it fills it in (entry counts and ring offsets). *)
Record setup_resp : Type := {
  su_ret : Z;
  su_errno : Z;
  su_params : io_uring_params
}.

(** static void io_uring_queue_mmap(int fd, io_uring_params& params, io_uring& ring)

    [r1], [r2], [r3] are the kernel's answers to the three mmap calls, in
    program order.  A [defer] guard (util/defer.hh) runs its function when
    its scope is left unless it was cancelled: the two guards run on the
    exceptional exits, in reverse order of construction, and both are
    cancelled on the normal exit.  [unmap_sq_ring] holds the first [ptr] by
    value and reads [ring.sq.ring_size] when it runs; [unmap_sqes] reads
    [ring.sq.sqes] and [params.sq_entries] when it runs.  The offset of the
    index array is spelled [sq_off.index_array] on line 55 and
    [sq_off.array] on line 66; the structure declares one such field,
    [index_array]. *)
Definition io_uring_queue_mmap (fd : Z) (params : io_uring_params) (ring : io_uring)
    (k : kernel) (r1 r2 r3 : sys_resp) : outcome unit * io_uring * kernel :=
  let ring := with_sq (set_sq_ring_size
                (u32 (sqo_index_array (sq_off params) + sq_entries params * sizeof_uint32_t))) ring in
  let '(ptr, k) := sys_mmap k (sq_ring_size (sq ring)) fd IORING_OFF_SQ_RING r1 in
  match throw_system_error_on (ptr =? MAP_FAILED) (sys_errno r1) "mmap" with
  | Throw e => (Throw e, ring, k)
  | _ =>
  let unmap_sq_ring := fun (ring : io_uring) (k : kernel) =>
                         sys_munmap k ptr (sq_ring_size (sq ring)) in
  let ring := with_sq (set_sq_head (ptr + sqo_head (sq_off params))) ring in
  let ring := with_sq (set_sq_tail (ptr + sqo_tail (sq_off params))) ring in
  let ring := with_sq (set_sq_ring_mask (load32 (mem k) (ptr + sqo_ring_mask (sq_off params)))) ring in
  let ring := with_sq (set_sq_flags (ptr + sqo_flags (sq_off params))) ring in
  let ring := with_sq (set_sq_dropped (ptr + sqo_dropped (sq_off params))) ring in
  let ring := with_sq (set_sq_index_array (ptr + sqo_index_array (sq_off params))) ring in
  let '(ptr, k) := sys_mmap k (u64 (sq_entries params * sizeof_io_uring_sqe)) fd IORING_OFF_SQES r2 in
  let ring := with_sq (set_sq_sqes ptr) ring in
  match throw_system_error_on (sq_sqes (sq ring) =? MAP_FAILED) (sys_errno r2) "mmap" with
  | Throw e => (Throw e, ring, unmap_sq_ring ring k)
  | _ =>
  let unmap_sqes := fun (ring : io_uring) (k : kernel) =>
                      sys_munmap k (sq_sqes (sq ring)) (u64 (sq_entries params * sizeof_io_uring_sqe)) in
  let ring := with_sq (set_sqe_head 0) ring in
  let ring := with_sq (set_sqe_tail 0) ring in
  let ring := with_sq (set_pending false) ring in
  let ring := with_cq (set_cq_ring_size
                (u32 (cqo_cqes (cq_off params) + cq_entries params * sizeof_io_uring_cqe))) ring in
  let '(ptr, k) := sys_mmap k (cq_ring_size (cq ring)) fd IORING_OFF_CQ_RING r3 in
  match throw_system_error_on (ptr =? MAP_FAILED) (sys_errno r3) "mmap" with
  | Throw e => (Throw e, ring, unmap_sq_ring ring (unmap_sqes ring k))
  | _ =>
  let ring := with_cq (set_cq_head (ptr + cqo_head (cq_off params))) ring in
  let ring := with_cq (set_cq_tail (ptr + cqo_tail (cq_off params))) ring in
  let ring := with_cq (set_cq_ring_mask (load32 (mem k) (ptr + cqo_ring_mask (cq_off params)))) ring in
  let ring := with_cq (set_cq_overflow (ptr + cqo_overflow (cq_off params))) ring in
  let ring := with_cq (set_cq_cqes (ptr + cqo_cqes (cq_off params))) ring in
  (Ok tt, ring, k)
  end end end.

(** void io_uring_queue_init(uint32_t entries, io_uring& ring, io_uring_setup_flags flags)

    [su] is the kernel's answer to io_uring_setup(entries, &p): its return
    value and the parameter block [p] as the call leaves it, [p.flags]
    having been set to [flags] before the call. *)
Definition io_uring_queue_init (entries : Z) (ring : io_uring) (flags : Z)
    (k : kernel) (su : setup_resp) (r1 r2 r3 : sys_resp) : outcome unit * io_uring * kernel :=
  if negb (Z.land flags SQPOLL =? 0)
  then (AssertFail "(flags & linux_abi::io_uring_setup_flags::SQPOLL) == 0", ring, k) else
  let p := su_params su in
  let fd := su_ret su in
  match throw_system_error_on (fd <? 0) (su_errno su) "io_uring_setup" with
  | Throw e => (Throw e, ring, k)
  | _ => io_uring_queue_mmap fd p ring k r1 r2 r3
  end.

(* The sizes of the three regions, as io_uring_queue_mmap computes them. *)
Definition sq_ring_bytes (p : io_uring_params) : Z :=
  u32 (sqo_index_array (sq_off p) + sq_entries p * sizeof_uint32_t).
Definition sqes_bytes (p : io_uring_params) : Z :=
  u64 (sq_entries p * sizeof_io_uring_sqe).
Definition cq_ring_bytes (p : io_uring_params) : Z :=
  u32 (cqo_cqes (cq_off p) + cq_entries p * sizeof_io_uring_cqe).

(** *** Slot acquisition: io_uring_get_sqe

    Returns the address of the slot, or [None] for nullptr. *)
Definition io_uring_get_sqe (ring : io_uring) : option Z * io_uring :=
  let next := u32 (sqe_tail (sq ring) + 1) in
  if u32 (next - sqe_head (sq ring)) >? sq_ring_size (sq ring) then (None, ring) else
  let sqe := sq_sqes (sq ring)
             + sizeof_io_uring_sqe * Z.land (sqe_tail (sq ring)) (sq_ring_mask (sq ring)) in
  (Some sqe, with_sq (set_sqe_tail next) ring).

(** *** Submission: do_io_uring_enter and io_uring_submit *)

(* A call of io_uring_enter(fd, to_submit, min_completed, flags, sig = nullptr). *)
Inductive syscall : Type :=
| sys_io_uring_enter (fd to_submit min_completed flags : Z).

(** static void do_io_uring_enter(io_uring& ring, unsigned submitted)

    [r] is the kernel's answer to the enter call. *)
Definition do_io_uring_enter (ring : io_uring) (submitted : Z) (r : sys_resp)
    : outcome unit * io_uring * list syscall :=
  let call := sys_io_uring_enter (ring_fd ring) submitted 0 GETEVENTS in
  if sys_ret r <? 0
  then (Throw (system_error (sys_errno r) "io_uring_enter"), with_sq (set_pending true) ring, [call])
  else (Ok tt, with_sq (set_pending false) ring, [call]).

(* The loop of io_uring_submit:
     while (ring.sq.sqe_head < ring.sq.sqe_tail) {
         ring.sq.index_array[tail_next & mask] = ring.sq.sqe_head & mask;
         ring.sq.sqe_head++;
         tail_next++;
     } *)
Fixpoint publish (fuel : nat) (s : io_uring_sq) (m : gmap Z Z) (tail_next mask : Z)
    : io_uring_sq * gmap Z Z * Z :=
  match fuel with
  | O => (s, m, tail_next)
  | S fuel' =>
      if sqe_head s <? sqe_tail s then
        let m := store32 m (sq_index_array s + sizeof_uint32_t * Z.land tail_next mask)
                         (Z.land (sqe_head s) mask) in
        publish fuel' (set_sqe_head (u32 (sqe_head s + 1)) s) m (u32 (tail_next + 1)) mask
      else (s, m, tail_next)
  end.

(* Iterations the loop needs: the distance between the two slot cursors. *)
Definition publish_fuel (s : io_uring_sq) : nat := Z.to_nat (sqe_tail s - sqe_head s).

(* Lines 130-147 of io_uring_submit: publish the filled slots, store the
   new tail, enter the kernel. [tail] is the value loaded on line 118. *)
Definition io_uring_submit_publish (ring : io_uring) (k : kernel) (tail : Z) (r : sys_resp)
    : outcome (option Z) * io_uring * kernel * list syscall :=
  let tail_next := tail in
  let mask := sq_ring_mask (sq ring) in
  let '(s, m, tail_next) := publish (publish_fuel (sq ring)) (sq ring) (mem k) tail_next mask in
  let ring := with_sq (fun _ => s) ring in
  let k := {| mappings := mappings k; mem := m |} in
  let submitted := u32 (tail_next - tail) in
  if negb (submitted =? 0) then
    let k := {| mappings := mappings k; mem := store32 (mem k) (sq_tail (sq ring)) tail_next |} in
    match do_io_uring_enter ring submitted r with
    | (Ok _, ring, calls) => (Ok (Some submitted), ring, k, calls)
    | (Throw e, ring, calls) => (Throw e, ring, k, calls)
    | (AssertFail msg, ring, calls) => (AssertFail msg, ring, k, calls)
    | (Undefined, ring, calls) => (Undefined, ring, k, calls)
    end
  else (Ok (Some submitted), ring, k, []).

(** unsigned io_uring_submit(io_uring& ring)

    The value is [Ok (Some n)] for [return n;] and [Ok None] for the bare
    [return;] of the pending branch, which hands no value to the caller.
    The last component lists the enter calls made, [r] being the kernel's
    answer to the one call the function can make.  The atomic loads and
    stores are plain loads and stores here: the function runs on one
    thread and the kernel's own writes happen between calls. *)
Definition io_uring_submit (ring : io_uring) (k : kernel) (r : sys_resp)
    : outcome (option Z) * io_uring * kernel * list syscall :=
  let tail := load32 (mem k) (sq_tail (sq ring)) in
  if pending (sq ring) then
    let submitted := u32 (tail - load32 (mem k) (sq_head (sq ring))) in
    if negb (submitted =? 0) then
      match do_io_uring_enter ring submitted r with
      | (Ok _, ring, calls) => (Ok None, ring, k, calls)
      | (Throw e, ring, calls) => (Throw e, ring, k, calls)
      | (AssertFail msg, ring, calls) => (AssertFail msg, ring, k, calls)
      | (Undefined, ring, calls) => (Undefined, ring, k, calls)
      end
    else io_uring_submit_publish (with_sq (set_pending false) ring) k tail r
  else io_uring_submit_publish ring k tail r.

(* Slots acquired and not yet handed to io_uring_submit. *)
Definition unsubmitted (ring : io_uring) : Z :=
  u32 (sqe_tail (sq ring) - sqe_head (sq ring)).

(* [n] consecutive calls of io_uring_get_sqe, with their results in order. *)
Fixpoint acquire_n (n : nat) (ring : io_uring) : list (option Z) * io_uring :=
  match n with
  | O => ([], ring)
  | S n' =>
      let '(sqe, ring) := io_uring_get_sqe ring in
      let '(rest, ring) := acquire_n n' ring in
      (sqe :: rest, ring)
  end.

(* Number of calls, among those of [acquire_n], that handed out a slot. *)
Definition handed_out (results : list (option Z)) : nat :=
  length (List.filter (fun r => match r with Some _ => true | None => false end) results).

(** *** A concrete ring of four entries

    The offsets are the ones a Linux 5.1 kernel reports for four
    submission entries and eight completion entries. *)
Module Example.

Definition sq_offsets : io_sqring_offsets :=
  {| sqo_head := 0; sqo_tail := 64; sqo_ring_mask := 256; sqo_ring_entries := 264;
     sqo_flags := 276; sqo_dropped := 272; sqo_index_array := 320 |}.

Definition cq_offsets : io_cqring_offsets :=
  {| cqo_head := 128; cqo_tail := 192; cqo_ring_mask := 260; cqo_ring_entries := 268;
     cqo_overflow := 284; cqo_cqes := 320 |}.

Definition params : io_uring_params :=
  {| sq_entries := 4; cq_entries := 8; flags := 0; sq_thread_cpu := 0; sq_thread_idle := 0;
     sq_off := sq_offsets; cq_off := cq_offsets |}.

Definition sq_ring_addr : Z := 0x10000.
Definition sqes_addr : Z := 0x20000.
Definition cq_ring_addr : Z := 0x30000.

(* The ring descriptor before initialisation. *)
Definition blank_sq : io_uring_sq :=
  {| sq_head := 0; sq_tail := 0; sq_ring_size := 0; sq_ring_mask := 0; sq_flags := 0;
     sq_dropped := 0; sq_index_array := 0; sq_sqes := 0; sqe_head := 0; sqe_tail := 0;
     pending := false |}.
Definition blank_cq : io_uring_cq :=
  {| cq_head := 0; cq_tail := 0; cq_ring_size := 0; cq_ring_mask := 0; cq_overflow := 0;
     cq_cqes := 0 |}.
Definition blank_ring : io_uring := {| sq := blank_sq; cq := blank_cq; ring_fd := -1 |}.

(* The shared memory as the kernel sets it up: both masks, both entry
   counts; heads and tails are zero. *)
Definition kernel0 : kernel :=
  {| mappings := [];
     mem := <[sq_ring_addr + 256 := 3]> (<[sq_ring_addr + 264 := 4]>
            (<[cq_ring_addr + 260 := 7]> (<[cq_ring_addr + 268 := 8]> ∅))) |}.

Definition setup_ok : setup_resp := {| su_ret := 5; su_errno := 0; su_params := params |}.
Definition ok_at (a : Z) : sys_resp := {| sys_ret := a; sys_errno := 0 |}.
Definition failed (e : Z) : sys_resp := {| sys_ret := -1; sys_errno := e |}.
Definition ENOMEM : Z := 12.
Definition EINTR : Z := 4.

(* io_uring_queue_init(4, ring, 0) with every call succeeding. *)
Definition init_result : outcome unit * io_uring * kernel :=
  io_uring_queue_init 4 blank_ring 0 kernel0 setup_ok
    (ok_at sq_ring_addr) (ok_at sqes_addr) (ok_at cq_ring_addr).

Definition ring0 : io_uring := snd (fst init_result).
Definition kernel1 : kernel := snd init_result.

(* One slot published and an enter call that failed: the ring is pending,
   the published tail is one, the kernel's head is still zero. *)
Definition pending_ring : io_uring := with_sq (set_pending true) (with_sq (set_sqe_head 1) (with_sq (set_sqe_tail 1) ring0)).
Definition pending_kernel : kernel :=
  {| mappings := mappings kernel1; mem := store32 (mem kernel1) (sq_tail (sq ring0)) 1 |}.

End Example.

End Uring.

(** ** Promises and timers (collaborators of the gate and of sleep) *)

(** Modelled from the spec: promise<> and its future<> (core/future.hh is
    not among the sources), "a value that will exist later".  A promise is
    the list of the resolutions it was given, oldest first: [set_value]
    records a success, [set_exception] a failure; it is unresolved while
    the list is empty, and the future obtained from it sees the same list. *)
Inductive resolution : Type :=
| resolved_value
| resolved_exception (e : exn).

Definition promise : Type := list resolution.

Definition new_promise : promise := [].
Definition set_value (p : promise) : promise := p ++ [resolved_value].
Definition set_exception (e : exn) (p : promise) : promise := p ++ [resolved_exception e].
Definition available (p : promise) : bool := match p with [] => false | _ => true end.

(** Modelled from the spec: the one-shot timer (core/timer.hh is not among
    the sources).  [arm] arms it; [cancel] succeeds, and disarms it, exactly
    when it is armed and has not fired yet; when it expires the reactor
    disarms it and runs its callback once ([expire] returns whether the
    callback is to run). *)
Record timer : Type := { armed : bool }.

Definition new_timer : timer := {| armed := false |}.
Definition arm (t : timer) : timer := {| armed := true |}.
Definition cancel (t : timer) : bool * timer := (armed t, {| armed := false |}).
Definition expire (t : timer) : bool * timer := (armed t, {| armed := false |}).

(** ** Callback lists: bi::list of auto-unlink hooks

    gate::signal_target and abort_source::subscription are nodes of a
    boost intrusive list with auto-unlink hooks.  A node is told apart by
    [hook], a serial number that stands for the address of the handle
    object; [_target] is its noncopyable_function<void ()>, a transformer of
    the state [W] the callbacks of the program act on.  That state does not
    contain the list itself: callbacks that link or unlink nodes of the
    list they are called from are outside this model. *)

Module Hook.
Section Hook.
Context {W : Type}.

Record node : Type := { hook : nat; _target : W -> W }.

(* list::push_back *)
Definition push_back (n : node) (l : list node) : list node := l ++ [n].

(* the hook's is_linked() *)
Definition is_linked (h : nat) (l : list node) : bool :=
  existsb (fun n => Nat.eqb (hook n) h) l.

(* node_algorithms::unlink, also run by the destructor of a linked hook *)
Definition unlink (h : nat) (l : list node) : list node :=
  List.filter (fun n => negb (Nat.eqb (hook n) h)) l.

(* node_algorithms::swap_nodes(other, this) with [this] not linked: the
   handle [this] takes the place of [other] in the list. *)
Definition swap_nodes (other this : nat) (l : list node) : list node :=
  List.map (fun n => if Nat.eqb (hook n) other
                     then {| hook := this; _target := _target n |} else n) l.

(* Calling every node's target, first to last. *)
Definition for_each (l : list node) (w : W) : W :=
  fold_left (fun w n => _target n w) l w.

(* What a program does with handles before the list is fired: it
   subscribes a callback, which creates a handle, or destroys a handle. *)
Inductive handle_op : Type :=
| h_subscribe (f : W -> W)
| h_destroy (h : nat).

Definition destroys (h : nat) (op : handle_op) : bool :=
  match op with h_destroy h' => Nat.eqb h' h | h_subscribe _ => false end.

(* Handle [h] is destroyed somewhere in [ops]. *)
Definition destroyed (h : nat) (ops : list handle_op) : bool := existsb (destroys h) ops.

Definition is_subscribe (op : handle_op) : bool :=
  match op with h_subscribe _ => true | h_destroy _ => false end.

(* Number of handles [ops] creates. *)
Definition subscriptions_in (ops : list handle_op) : nat :=
  length (List.filter is_subscribe ops).

(** The subscriptions the specification wants called at firing, following
    its words: the ones subscribed, in subscription order, leaving out
    those whose handle was destroyed before firing.  [next] is the serial
    number of the next handle created. *)
Fixpoint spec_live_nodes (ops : list handle_op) (next : nat) : list node :=
  match ops with
  | [] => []
  | h_subscribe f :: ops' =>
      (if destroyed next ops' then [] else [{| hook := next; _target := f |}])
      ++ spec_live_nodes ops' (S next)
  | h_destroy _ :: ops' => spec_live_nodes ops' next
  end.

Definition spec_live_callbacks (ops : list handle_op) (next : nat) : list (W -> W) :=
  List.map _target (spec_live_nodes ops next).

Definition spec_live_handles (ops : list handle_op) (next : nat) : list nat :=
  List.map hook (spec_live_nodes ops next).

(* Running a list of callbacks once each, first to last. *)
Definition run_callbacks (fs : list (W -> W)) (w : W) : W :=
  fold_left (fun w f => f w) fs w.

End Hook.
Arguments node W : clear implicits.
Arguments handle_op W : clear implicits.

(* The history [ops] with the callback of every subscription replaced by
   one that appends the serial number of its handle to a log. *)
Fixpoint logging {W : Type} (ops : list (handle_op W)) (next : nat) : list (handle_op (list nat)) :=
  match ops with
  | [] => []
  | h_subscribe _ :: ops' => h_subscribe (fun log => log ++ [next]) :: logging ops' (S next)
  | h_destroy h :: ops' => h_destroy h :: logging ops' next
  end.

End Hook.

(** ** core/gate.hh *)

Module Gate.
Import Hook.
Section Gate.
Context {W : Type}.

Record gate : Type := {
  _count : Z;                       (* size_t *)
  _stopped : option promise;        (* stdx::optional<promise<>> *)
  _to_signal : list (node W);       (* signal_target_list_type *)
  next_hook : nat                   (* serial number of the next signal_target *)
}.

(* A freshly constructed gate. *)
Definition new_gate : gate :=
  {| _count := 0; _stopped := None; _to_signal := []; next_hook := 0 |}.

Definition set_count (c : Z) (g : gate) : gate :=
  {| _count := c; _stopped := _stopped g; _to_signal := _to_signal g; next_hook := next_hook g |}.
Definition set_stopped (s : option promise) (g : gate) : gate :=
  {| _count := _count g; _stopped := s; _to_signal := _to_signal g; next_hook := next_hook g |}.
Definition set_to_signal (l : list (node W)) (g : gate) : gate :=
  {| _count := _count g; _stopped := _stopped g; _to_signal := l; next_hook := next_hook g |}.

(** void enter() *)
Definition enter (g : gate) : outcome unit * gate :=
  match _stopped g with
  | Some _ => (Throw gate_closed_exception, g)
  | None => (Ok tt, set_count (u64 (_count g + 1)) g)
  end.

(** void leave() *)
Definition leave (g : gate) : gate :=
  let g := set_count (u64 (_count g - 1)) g in
  match _stopped g with
  | Some p => if _count g =? 0 then set_stopped (Some (set_value p)) g else g
  | None => g
  end.

(** void check() *)
Definition check (g : gate) : outcome unit * gate :=
  match _stopped g with
  | Some _ => (Throw gate_closed_exception, g)
  | None => (Ok tt, g)
  end.

(** future<> close()

    The future returned is the one of [_stopped]: it is resolved when the
    promise kept in the gate is.  The targets run on the state [w]. *)
Definition close (g : gate) (w : W) : outcome unit * gate * W :=
  match _stopped g with
  | Some _ => (AssertFail "seastar::gate::close() cannot be called more than once", g, w)
  | None =>
      let g := set_stopped (Some new_promise) g in
      let g := if _count g =? 0 then set_stopped (option_map set_value (_stopped g)) g else g in
      let w := for_each (_to_signal g) w in
      (Ok tt, g, w)
  end.

(** size_t get_count() const *)
Definition get_count (g : gate) : Z := _count g.

(** bool is_closed() const *)
Definition is_closed (g : gate) : bool :=
  match _stopped g with Some _ => true | None => false end.

(* The drain notification: the future close() returned is resolved. *)
Definition drained (g : gate) : bool :=
  match _stopped g with Some p => available p | None => false end.

(** signal_target signal_on_close(noncopyable_function<void ()> target):
    the constructor links the new handle at the back of [_to_signal]. *)
Definition signal_on_close (target : W -> W) (g : gate) : nat * gate :=
  let h := next_hook g in
  (h, {| _count := _count g; _stopped := _stopped g;
         _to_signal := push_back {| hook := h; _target := target |} (_to_signal g);
         next_hook := S h |}).

(** ~signal_target(): the auto-unlink hook leaves the list.  The move
    assignment [st = { }] of the tests runs this destructor on [st] and
    then move-constructs from an empty handle, which links nothing. *)
Definition signal_target_destroy (h : nat) (g : gate) : gate :=
  set_to_signal (unlink h (_to_signal g)) g.

(** signal_target(signal_target&& other): when [other] is linked the new
    handle takes its place; the result is the new handle. *)
Definition signal_target_move (other : nat) (g : gate) : nat * gate :=
  let this := next_hook g in
  (this, {| _count := _count g; _stopped := _stopped g;
            _to_signal := if is_linked other (_to_signal g)
                          then swap_nodes other this (_to_signal g) else _to_signal g;
            next_hook := S this |}).

(* What the users of a closed or open gate do with it, close() apart.  An
   exception thrown by enter() or check() is caught by the caller and the
   program goes on. *)
Inductive gate_op : Type :=
| op_enter
| op_leave
| op_check
| op_signal_on_close (target : W -> W)
| op_signal_target_destroy (h : nat)
| op_signal_target_move (h : nat).

Definition gate_step (g : gate) (op : gate_op) : gate :=
  match op with
  | op_enter => snd (enter g)
  | op_leave => leave g
  | op_check => snd (check g)
  | op_signal_on_close target => snd (signal_on_close target g)
  | op_signal_target_destroy h => signal_target_destroy h g
  | op_signal_target_move h => snd (signal_target_move h g)
  end.

Definition gate_run (ops : list gate_op) (g : gate) : gate := fold_left gate_step ops g.

Definition is_leave (op : gate_op) : bool :=
  match op with op_leave => true | _ => false end.

(* Number of leave() calls among [ops]. *)
Definition leaves (ops : list gate_op) : nat := length (List.filter is_leave ops).

(* A history of handles, played on a gate. *)
Definition of_handle_op (op : handle_op W) : gate_op :=
  match op with
  | h_subscribe f => op_signal_on_close f
  | h_destroy h => op_signal_target_destroy h
  end.

End Gate.
Arguments gate W : clear implicits.
Arguments gate_op W : clear implicits.
End Gate.

(** ** core/abort_source.hh *)

Module AbortSource.
Import Hook.
Section AbortSource.
Context {W : Type}.

Record abort_source : Type := {
  _subscriptions : option (list (node W));   (* stdx::optional<subscription_list_type> *)
  next_subscription : nat                    (* serial number of the next subscription *)
}.

(* A freshly constructed abort_source: an engaged, empty list. *)
Definition new_abort_source : abort_source :=
  {| _subscriptions := Some []; next_subscription := 0 |}.

(** subscription subscribe(subscription_callback_type f)

    The constructor runs [as._subscriptions->push_back( *this)] with no test
    of the optional: on a disengaged optional the behaviour is undefined. *)
Definition subscribe (f : W -> W) (a : abort_source) : outcome nat * abort_source :=
  match _subscriptions a with
  | None => (Undefined, a)
  | Some l =>
      let h := next_subscription a in
      (Ok h, {| _subscriptions := Some (push_back {| hook := h; _target := f |} l);
                next_subscription := S h |})
  end.

(** ~subscription(): the auto-unlink hook leaves the list; once the source
    has fired every node is unlinked already and nothing happens. *)
Definition subscription_destroy (h : nat) (a : abort_source) : abort_source :=
  {| _subscriptions := option_map (unlink h) (_subscriptions a);
     next_subscription := next_subscription a |}.

(** subscription(subscription&& other): swap_nodes(other, this). *)
Definition subscription_move (other : nat) (a : abort_source) : nat * abort_source :=
  let this := next_subscription a in
  (this, {| _subscriptions := option_map (swap_nodes other this) (_subscriptions a);
            next_subscription := S this |}).

(** void request_abort()

    clear_and_dispose unlinks every node and calls its target, first to
    last; then the optional is reset.  [_subscriptions->] on a disengaged
    optional (a second request_abort) is undefined. *)
Definition request_abort (a : abort_source) (w : W) : outcome unit * abort_source * W :=
  match _subscriptions a with
  | None => (Undefined, a, w)
  | Some l =>
      (Ok tt, {| _subscriptions := None; next_subscription := next_subscription a |},
       for_each l w)
  end.

(** bool abort_requested() *)
Definition abort_requested (a : abort_source) : bool :=
  match _subscriptions a with Some _ => false | None => true end.

(* A history of handles, played on an abort_source. *)
Definition subscription_step (a : abort_source) (op : handle_op W) : abort_source :=
  match op with
  | h_subscribe f => snd (subscribe f a)
  | h_destroy h => subscription_destroy h a
  end.

Definition subscription_run (ops : list (handle_op W)) (a : abort_source) : abort_source :=
  fold_left subscription_step ops a.

End AbortSource.
Arguments abort_source W : clear implicits.
End AbortSource.

(** ** core/sleep.hh: sleep_abortable(dur, gate&) *)

Module Sleep.
Import Hook Gate.

(* struct sleeper of sleep_abortable(dur, g) *)
Record sleeper : Type := {
  done : promise;     (* promise<> done *)
  tmr : timer;        (* timer<Clock> tmr *)
  st : nat            (* gate::signal_target st, by the serial number of its hook *)
}.

(** The state the callbacks act on.  Every call of sleep_abortable gets a
    serial number; [sleepers] holds the sleeper objects alive, [finished]
    the state of the future handed to the caller once the sleeper is gone
    (or when there never was one). *)
Record world : Type := {
  sleepers : gmap nat sleeper;
  finished : gmap nat promise
}.

Definition set_sleeper (i : nat) (s : sleeper) (w : world) : world :=
  {| sleepers := <[i := s]> (sleepers w); finished := finished w |}.

(* The callback of [tmr], with [this] the sleeper of call [i]:
     [this, &g] { if (!g.is_closed()) { done.set_value(); } } *)
Definition timer_callback (i : nat) (g : gate world) (w : world) : world :=
  match sleepers w !! i with
  | Some s =>
      if negb (is_closed g)
      then set_sleeper i {| done := set_value (done s); tmr := tmr s; st := st s |} w
      else w
  | None => w
  end.

(* The target given to g.signal_on_close, with [this] the sleeper of call [i]:
     [this] { if (tmr.cancel()) { done.set_exception(sleep_aborted()); } } *)
Definition close_listener (i : nat) (w : world) : world :=
  match sleepers w !! i with
  | Some s =>
      let '(cancelled, t) := cancel (tmr s) in
      if cancelled
      then set_sleeper i {| done := set_exception sleep_aborted (done s); tmr := t; st := st s |} w
      else set_sleeper i {| done := done s; tmr := t; st := st s |} w
  | None => w
  end.

(* The gate, the sleepers, and the serial number of the next call. *)
Record system : Type := {
  g : gate world;
  w : world;
  next_call : nat
}.

Definition boot : system :=
  {| g := new_gate; w := {| sleepers := ∅; finished := ∅ |}; next_call := 0 |}.

(** future<> sleep_abortable(std::chrono::duration<Rep, Period> dur, gate& g)

    The result is the serial number of the call, which names the future
    returned.  On a closed gate the future is made ready with
    sleep_aborted at once and no sleeper exists; otherwise the sleeper is
    constructed (timer, then the close listener linked into the gate) and
    its timer armed. *)
Definition sleep_abortable (dur : Z) (sys : system) : nat * system :=
  let i := next_call sys in
  if is_closed (g sys) then
    (i, {| g := g sys;
           w := {| sleepers := sleepers (w sys);
                   finished := <[i := [resolved_exception sleep_aborted]]> (finished (w sys)) |};
           next_call := S i |})
  else
    let '(h, g') := signal_on_close (close_listener i) (g sys) in
    let s := {| done := new_promise; tmr := arm new_timer; st := h |} in
    (i, {| g := g'; w := set_sleeper i s (w sys); next_call := S i |}).

(** What can happen next in a program that sleeps against one gate. *)
Inductive event : Type :=
| ev_sleep (dur : Z)        (* a call of sleep_abortable(dur, g) *)
| ev_timer (i : nat)        (* the reactor finds the timer of call [i] expired *)
| ev_close                  (* g.close() *)
| ev_continue (i : nat)     (* the reactor runs the continuation of call [i]:
                               finally([s = std::move(s)] { }), which destroys the sleeper *)
| ev_enter                  (* g.enter(), the exception caught if any *)
| ev_leave.                 (* g.leave() *)

(* [None]: the process aborted on a failed assertion. *)
Definition step (sys : system) (ev : event) : option system :=
  match ev with
  | ev_sleep dur => Some (snd (sleep_abortable dur sys))
  | ev_timer i =>
      match sleepers (w sys) !! i with
      | Some s =>
          let '(fire, t) := expire (tmr s) in
          let w1 := set_sleeper i {| done := done s; tmr := t; st := st s |} (w sys) in
          Some {| g := g sys;
                  w := if fire then timer_callback i (g sys) w1 else w1;
                  next_call := next_call sys |}
      | None => Some sys
      end
  | ev_close =>
      match close (g sys) (w sys) with
      | (Ok _, g', w') => Some {| g := g'; w := w'; next_call := next_call sys |}
      | _ => None
      end
  | ev_continue i =>
      match sleepers (w sys) !! i with
      | Some s =>
          if available (done s) then
            Some {| g := signal_target_destroy (st s) (g sys);
                    w := {| sleepers := delete i (sleepers (w sys));
                            finished := <[i := done s]> (finished (w sys)) |};
                    next_call := next_call sys |}
          else Some sys
      | None => Some sys
      end
  | ev_enter => Some {| g := snd (enter (g sys)); w := w sys; next_call := next_call sys |}
  | ev_leave => Some {| g := leave (g sys); w := w sys; next_call := next_call sys |}
  end.

Fixpoint run (evs : list event) (sys : system) : option system :=
  match evs with
  | [] => Some sys
  | ev :: evs' =>
      match step sys ev with
      | Some sys' => run evs' sys'
      | None => None
      end
  end.

(* The resolutions the future of call [i] was given so far. *)
Definition result (sys : system) (i : nat) : promise :=
  match sleepers (w sys) !! i with
  | Some s => done s
  | None => default new_promise (finished (w sys) !! i)
  end.

(* A future resolved once: with its value, or with sleep_aborted. *)
Definition resolved_once (p : promise) : Prop :=
  p = [resolved_value] \/ p = [resolved_exception sleep_aborted].

(** What holds of every state the program can reach:
    - a sleeper alive is either waiting (timer armed, [done] unresolved,
      gate open, its close listener linked in the gate) or settled (timer
      disarmed, [done] resolved once);
    - a call whose sleeper is gone has a future resolved once, and only
      calls made so far have one;
    - every target linked in the gate is the close listener of some call;
    - no two sleepers alive share a signal_target. *)
Record invariant (sys : system) : Prop := {
  inv_alive : forall i s, sleepers (w sys) !! i = Some s ->
    (i < next_call sys)%nat /\
    finished (w sys) !! i = None /\
    (st s < next_hook (g sys))%nat /\
    ((armed (tmr s) = true /\ done s = [] /\ is_closed (g sys) = false /\
      List.In {| hook := st s; _target := close_listener i |} (_to_signal (g sys)))
     \/ (armed (tmr s) = false /\ resolved_once (done s)));
  inv_gone : forall i, (i < next_call sys)%nat -> sleepers (w sys) !! i = None ->
    exists p, finished (w sys) !! i = Some p /\ resolved_once p;
  inv_finished : forall i p, finished (w sys) !! i = Some p -> (i < next_call sys)%nat;
  inv_listeners :
    List.Forall (fun nd => exists j, _target nd = close_listener j) (_to_signal (g sys));
  inv_handles : forall i j si sj,
    sleepers (w sys) !! i = Some si -> sleepers (w sys) !! j = Some sj ->
    st si = st sj -> i = j
}.

End Sleep.

(** ** Ring teardown: io_uring_queue_exit *)

Module UringExit.
Import Uring.

(* The call of ::close(fd) that ends the teardown. *)
Inductive exit_call : Type :=
| sys_close (fd : Z).

(** void io_uring_queue_exit(io_uring& ring)

    Three munmap calls, whose results are not looked at, and the close of
    [ring.ring_fd].  The first length is [ring.sq.ring_size *
    sizeof(io_uring_sqe)], computed in size_t. *)
Definition io_uring_queue_exit (ring : io_uring) (k : kernel) : kernel * list exit_call :=
  let k := sys_munmap k (sq_sqes (sq ring)) (u64 (sq_ring_size (sq ring) * sizeof_io_uring_sqe)) in
  let k := sys_munmap k (sq_head (sq ring)) (cq_ring_size (cq ring)) in
  let k := sys_munmap k (cq_head (cq ring)) (cq_ring_size (cq ring)) in
  (k, [sys_close (ring_fd ring)]).

End UringExit.

(** ** core/gate.hh: with_gate, and gates used within their contract *)

Module GateUse.
Import Hook Gate.
Section GateUse.
Context {W : Type}.

(** auto with_gate(gate& g, Func&& func):
      g.enter(); return func().finally([&g] { g.leave(); });

    [func] is what the call func() does before it hands back its future: it
    acts on the state and may throw.  When it returns, the continuation
    given to finally is attached to its future; that continuation,
    [with_gate_finally], runs once the future is resolved, with a value or
    with an exception.  The last component tells whether the continuation
    was attached. *)
Definition with_gate (g : gate W) (func : W -> outcome unit * W) (w : W)
    : outcome unit * gate W * W * bool :=
  match enter g with
  | (Ok _, g') =>
      match func w with
      | (Ok _, w') => (Ok tt, g', w', true)
      | (o, w') => (o, g', w', false)
      end
  | (o, g') => (o, g', w, false)
  end.

(* [&g] { g.leave(); } *)
Definition with_gate_finally (g : gate W) : gate W := leave g.

(** What happens to a gate, close() included. *)
Inductive gate_event : Type :=
| ge_op (op : gate_op W)
| ge_close.

(* One event on a gate used within its contract.  [None]: the caller broke
   the contract, with a leave() that no enter() matches or with a second
   close() (which fails the assertion of close). *)
Definition gate_exec_step (st : gate W * W) (ev : gate_event) : option (gate W * W) :=
  match ev with
  | ge_op op =>
      if is_leave op && (_count (fst st) =? 0) then None
      else Some (gate_step (fst st) op, snd st)
  | ge_close =>
      match close (fst st) (snd st) with
      | (Ok _, g', w') => Some (g', w')
      | _ => None
      end
  end.

Fixpoint gate_exec (evs : list gate_event) (st : gate W * W) : option (gate W * W) :=
  match evs with
  | [] => Some st
  | ev :: evs' =>
      match gate_exec_step st ev with
      | Some st' => gate_exec evs' st'
      | None => None
      end
  end.

Definition is_close (ev : gate_event) : bool :=
  match ev with ge_close => true | ge_op _ => false end.

(* What holds of a gate used within its contract: the count is not
   negative, and once close() was requested the drain promise is resolved,
   once, exactly when the count is zero. *)
Definition gate_consistent (g : gate W) (n : Z) : Prop :=
  0 <= _count g <= n /\
  match _stopped g with
  | None => True
  | Some p => p = if _count g =? 0 then [resolved_value] else []
  end.


End GateUse.
Arguments gate_event W : clear implicits.
End GateUse.

(** ** core/abort_source.hh: histories with moved subscriptions *)

Module AbortSourceUse.
Import Hook AbortSource.
Section AbortSourceUse.
Context {W : Type}.

(* What a program does with the subscriptions of an abort_source. *)
Inductive subscription_op : Type :=
| s_subscribe (f : W -> W)
| s_destroy (h : nat)
| s_move (h : nat).

Definition subscription_op_step (a : abort_source W) (op : subscription_op) : abort_source W :=
  match op with
  | s_subscribe f => snd (subscribe f a)
  | s_destroy h => subscription_destroy h a
  | s_move h => snd (subscription_move h a)
  end.

Definition subscription_op_run (ops : list subscription_op) (a : abort_source W)
    : abort_source W :=
  fold_left subscription_op_step ops a.

Definition is_s_subscribe (op : subscription_op) : bool :=
  match op with s_subscribe _ => true | _ => false end.

End AbortSourceUse.
Arguments subscription_op W : clear implicits.
End AbortSourceUse.

(** ** core/sleep.hh: what the gate holds of the sleepers *)

Module SleepUse.
Import Hook Gate Sleep.

(* Every target linked in the gate is the close listener of a sleeper that
   is alive, linked through the signal_target that sleeper owns. *)
Definition listeners_alive (sys : system) : Prop :=
  List.Forall (fun nd => exists i s, sleepers (w sys) !! i = Some s /\ st s = hook nd /\
                                     _target nd = close_listener i)
              (_to_signal (g sys)).

End SleepUse.
Lemma u32_range z : 0 <= u32 z < 2 ^ 32.
Proof. unfold u32. apply Z.mod_pos_bound. lia. Qed.

Lemma u32_small z : 0 <= z < 2 ^ 32 -> u32 z = z.
Proof. intros H. unfold u32. apply Z.mod_small. exact H. Qed.

Lemma u64_range z : 0 <= u64 z < 2 ^ 64.
Proof. unfold u64. apply Z.mod_pos_bound. lia. Qed.

Lemma u64_small z : 0 <= z < 2 ^ 64 -> u64 z = z.
Proof. intros H. unfold u64. apply Z.mod_small. exact H. Qed.


Import Uring.

Example example_init_ok :
  fst (fst Example.init_result) = Ok tt /\
  sq_ring_size (sq Example.ring0) = 336 /\
  sq_ring_mask (sq Example.ring0) = 3 /\
  ring_fd Example.ring0 = -1 /\
  mappings Example.kernel1 = [(0x30000, 448); (0x20000, 256); (0x10000, 336)].
Proof. vm_compute. repeat split; reflexivity. Qed.

Example example_acquire5 :
  fst (acquire_n 5 Example.ring0) = [Some 0x20000; Some 0x20040; Some 0x20080; Some 0x200c0; Some 0x20000].
Proof. vm_compute. reflexivity. Qed.

(** ** Ring setup: mappings *)

Section RingSetup.

Lemma region_minus_self p n : 0 < n -> region_minus p n (p, n) = [].
Proof.
  intros Hn. unfold region_minus, disjoint_region. simpl.
  replace (p + n <=? p) with false by (symmetry; apply Z.leb_gt; lia).
  simpl. rewrite !Z.ltb_irrefl. reflexivity.
Qed.

Lemma flat_map_region_minus_disjoint p n (M : list (Z * Z)) :
  existsb (fun r => negb (disjoint_region p n r)) M = false ->
  flat_map (region_minus p n) M = M.
Proof.
  induction M as [|r M IH]; simpl; intros H; [reflexivity|].
  apply orb_false_iff in H as [Hr HM].
  apply negb_false_iff in Hr.
  unfold region_minus at 1. rewrite Hr. simpl. f_equal. apply IH, HM.
Qed.

(* Unmapping a region right after the kernel handed it out restores the
   table of mappings. *)
Lemma munmap_after_mmap k size fd magic r p k' :
  sys_mmap k size fd magic r = (p, k') ->
  p <> MAP_FAILED ->
  mappings (sys_munmap k' p size) = mappings k.
Proof.
  unfold sys_mmap. intros H Hp.
  destruct ((sys_ret r <? 0) || (size <=? 0) || overlaps k (sys_ret r) size) eqn:E.
  - inversion H; subst. congruence.
  - inversion H; subst; clear H. simpl.
    apply orb_false_iff in E as [E Hov]. apply orb_false_iff in E as [_ Hsz].
    apply Z.leb_gt in Hsz.
    rewrite region_minus_self by lia. simpl.
    apply flat_map_region_minus_disjoint, Hov.
Qed.

Lemma mmap_failed_unchanged k size fd magic r k' :
  sys_mmap k size fd magic r = (MAP_FAILED, k') -> k' = k.
Proof.
  unfold sys_mmap.
  destruct ((sys_ret r <? 0) || (size <=? 0) || overlaps k (sys_ret r) size) eqn:E;
    intros H; inversion H; subst; [reflexivity|].
  apply orb_false_iff in E as [E _]. apply orb_false_iff in E as [E _].
  apply Z.ltb_ge in E. unfold MAP_FAILED in *. lia.
Qed.

Lemma mmap_ok_inv k size fd magic r p k' :
  sys_mmap k size fd magic r = (p, k') ->
  p <> MAP_FAILED ->
  p = sys_ret r /\ 0 <= sys_ret r /\ 0 < size /\
  mappings k' = (p, size) :: mappings k /\ mem k' = mem k.
Proof.
  unfold sys_mmap. intros H Hp.
  destruct ((sys_ret r <? 0) || (size <=? 0) || overlaps k (sys_ret r) size) eqn:E.
  - inversion H; subst. congruence.
  - inversion H; subst; clear H. simpl.
    apply orb_false_iff in E as [E _]. apply orb_false_iff in E as [E1 E2].
    apply Z.ltb_ge in E1. apply Z.leb_gt in E2. repeat split; auto; lia.
Qed.

Lemma munmap_mappings_eq k1 k2 p n :
  mappings k1 = mappings k2 -> mappings (sys_munmap k1 p n) = mappings (sys_munmap k2 p n).
Proof. unfold sys_munmap. simpl. intros ->. reflexivity. Qed.

Lemma queue_mmap_cases fd params ring k r1 r2 r3 :
  let res := io_uring_queue_mmap fd params ring k r1 r2 r3 in
  (fst (fst res) = Ok tt /\
   0 <= sys_ret r1 /\ 0 <= sys_ret r2 /\ 0 <= sys_ret r3 /\
   mappings (snd res) = [(sys_ret r3, cq_ring_bytes params);
                         (sys_ret r2, sqes_bytes params);
                         (sys_ret r1, sq_ring_bytes params)] ++ mappings k)
  \/ ((exists errno, fst (fst res) = Throw (system_error errno "mmap")) /\
      mappings (snd res) = mappings k).
Proof.
  unfold io_uring_queue_mmap. cbn zeta.
  destruct (sys_mmap k _ fd IORING_OFF_SQ_RING r1) as [p1 k1] eqn:E1.
  cbn [sq with_sq set_sq_ring_size sq_ring_size] in E1.
  destruct (Z.eqb_spec p1 MAP_FAILED) as [->|Hp1].
  { right. simpl. split; [eauto|]. apply mmap_failed_unchanged in E1. congruence. }
  destruct (sys_mmap k1 _ fd IORING_OFF_SQES r2) as [p2 k2] eqn:E2.
  cbn [sq with_sq set_sq_sqes sq_sqes].
  destruct (Z.eqb_spec p2 MAP_FAILED) as [->|Hp2].
  { right. cbn -[sys_munmap u32 u64 Z.add Z.mul]. split; [eauto|]. apply mmap_failed_unchanged in E2. subst k2.
    eapply munmap_after_mmap; eauto. }
  destruct (sys_mmap k2 _ fd IORING_OFF_CQ_RING r3) as [p3 k3] eqn:E3.
  cbn [cq with_cq with_sq set_cq_ring_size cq_ring_size] in E3.
  destruct (Z.eqb_spec p3 MAP_FAILED) as [->|Hp3].
  { right. cbn -[sys_munmap u32 u64 Z.add Z.mul]. split; [eauto|]. apply mmap_failed_unchanged in E3. subst k3.
    erewrite munmap_mappings_eq; [eapply munmap_after_mmap; eauto|].
    eapply munmap_after_mmap; eauto. }
  left. simpl.
  destruct (mmap_ok_inv _ _ _ _ _ _ _ E1 Hp1) as (-> & ? & ? & M1 & _).
  destruct (mmap_ok_inv _ _ _ _ _ _ _ E2 Hp2) as (-> & ? & ? & M2 & _).
  destruct (mmap_ok_inv _ _ _ _ _ _ _ E3 Hp3) as (-> & ? & ? & M3 & _).
  repeat split; auto. rewrite M3, M2, M1. reflexivity.
Qed.

End RingSetup.

Section RingInit.

Lemma is_mapped_ext k k' a :
  mappings k' = mappings k -> is_mapped k' a = is_mapped k a.
Proof. unfold is_mapped. intros ->. reflexivity. Qed.

(** C9: when io_uring_setup or any of the three mmap calls fails,
    io_uring_queue_init throws a system_error and the table of mapped
    regions is what it was before the call (the regions mapped so far have
    been unmapped by the deferred guards); when all four calls succeed it
    returns normally and the submission ring, the slot array and the
    completion ring are mapped on top of what was mapped before. *)
Theorem queue_init_all_or_nothing entries ring flags k su r1 r2 r3 :
  Z.land flags SQPOLL = 0 ->
  let res := io_uring_queue_init entries ring flags k su r1 r2 r3 in
  let p := su_params su in
  (* a failing kernel call makes init throw *)
  (su_ret su < 0 -> fst (fst res) = Throw (system_error (su_errno su) "io_uring_setup")) /\
  (sys_ret r1 < 0 \/ sys_ret r2 < 0 \/ sys_ret r3 < 0 ->
   exists errno what, fst (fst res) = Throw (system_error errno what)) /\
  (* init either succeeds with the three regions mapped ... *)
  ((fst (fst res) = Ok tt /\
    0 <= su_ret su /\ 0 <= sys_ret r1 /\ 0 <= sys_ret r2 /\ 0 <= sys_ret r3 /\
    mappings (snd res) = [(sys_ret r3, cq_ring_bytes p);
                          (sys_ret r2, sqes_bytes p);
                          (sys_ret r1, sq_ring_bytes p)] ++ mappings k)
   \/
   (* ... or throws a system_error with nothing left mapped *)
   ((exists errno what, fst (fst res) = Throw (system_error errno what)) /\
    mappings (snd res) = mappings k /\
    forall a, is_mapped (snd res) a = is_mapped k a)).
Proof.
  intros Hflags res p.
  assert (Hcases :
    (fst (fst res) = Ok tt /\
     0 <= su_ret su /\ 0 <= sys_ret r1 /\ 0 <= sys_ret r2 /\ 0 <= sys_ret r3 /\
     mappings (snd res) = [(sys_ret r3, cq_ring_bytes p);
                           (sys_ret r2, sqes_bytes p);
                           (sys_ret r1, sq_ring_bytes p)] ++ mappings k)
    \/ ((exists errno what, fst (fst res) = Throw (system_error errno what)) /\
        mappings (snd res) = mappings k)).
  { subst res p. unfold io_uring_queue_init. rewrite Hflags. simpl negb. cbv iota.
    destruct (Z.ltb_spec (su_ret su) 0) as [Hfd|Hfd].
    - right. simpl. eauto.
    - destruct (queue_mmap_cases (su_ret su) (su_params su) ring k r1 r2 r3)
        as [(Ho & ? & ? & ? & Hm)|([e He] & Hm)].
      + left. repeat split; assumption.
      + right. split; [eauto|assumption]. }
  split; [|split].
  - intros Hfd. subst res. unfold io_uring_queue_init. rewrite Hflags. simpl negb. cbv iota.
    apply Z.ltb_lt in Hfd. rewrite Hfd. reflexivity.
  - intros Hneg. destruct Hcases as [(_ & _ & ? & ? & ? & _)|(He & _)]; [lia|exact He].
  - destruct Hcases as [Hok|(He & Hm)]; [left; exact Hok|right].
    split; [exact He|]. split; [exact Hm|]. intros a. apply is_mapped_ext, Hm.
Qed.

(* With the third mapping refused (ENOMEM), the four-entry example ends
   with a system_error and an empty table of mappings. *)
Lemma queue_init_all_or_nothing_witness :
  Z.land 0 SQPOLL = 0 /\
  mappings (snd (io_uring_queue_init 4 Example.blank_ring 0 Example.kernel0 Example.setup_ok
                   (Example.ok_at Example.sq_ring_addr) (Example.ok_at Example.sqes_addr)
                   (Example.failed Example.ENOMEM))) = [].
Proof.
  split; [reflexivity|].
  destruct (queue_init_all_or_nothing 4 Example.blank_ring 0 Example.kernel0 Example.setup_ok
              (Example.ok_at Example.sq_ring_addr) (Example.ok_at Example.sqes_addr)
              (Example.failed Example.ENOMEM) eq_refl) as (_ & _ & [Hok|(_ & Hm & _)]).
  - destruct Hok as (_ & _ & _ & _ & Hneg & _). vm_compute in Hneg. destruct Hneg. reflexivity.
  - exact Hm.
Defined.

(* io_uring_queue_mmap and io_uring_queue_init never assign [ring.ring_fd]. *)
Lemma queue_mmap_keeps_ring_fd fd params ring k r1 r2 r3 :
  ring_fd (snd (fst (io_uring_queue_mmap fd params ring k r1 r2 r3))) = ring_fd ring.
Proof.
  unfold io_uring_queue_mmap. cbn zeta.
  destruct (sys_mmap k _ fd IORING_OFF_SQ_RING r1) as [p1 k1].
  destruct (p1 =? MAP_FAILED); [reflexivity|].
  destruct (sys_mmap k1 _ fd IORING_OFF_SQES r2) as [p2 k2].
  cbn [sq with_sq set_sq_sqes sq_sqes].
  destruct (p2 =? MAP_FAILED); [reflexivity|].
  destruct (sys_mmap k2 _ fd IORING_OFF_CQ_RING r3) as [p3 k3].
  destruct (p3 =? MAP_FAILED); reflexivity.
Qed.

Lemma queue_init_keeps_ring_fd entries ring flags k su r1 r2 r3 :
  ring_fd (snd (fst (io_uring_queue_init entries ring flags k su r1 r2 r3))) = ring_fd ring.
Proof.
  unfold io_uring_queue_init.
  destruct (negb (Z.land flags SQPOLL =? 0)); [reflexivity|].
  destruct (su_ret su <? 0); [reflexivity|].
  apply queue_mmap_keeps_ring_fd.
Qed.

(** C10 (the code departs from it): io_uring_queue_init(4, ring, 0) on a
    descriptor whose ring_fd is -1, with io_uring_setup returning the
    descriptor 5 and the three mappings succeeding, returns normally and
    leaves ring_fd at -1: the descriptor returned by the kernel is never
    stored, so the enter call of a later io_uring_submit is issued on -1. *)
Theorem queue_init_drops_setup_fd :
  fst (fst Example.init_result) = Ok tt /\
  su_ret Example.setup_ok = 5 /\
  ring_fd Example.ring0 = -1 /\
  snd (io_uring_submit (snd (acquire_n 1 Example.ring0)) Example.kernel1 (Example.ok_at 1))
  = [sys_io_uring_enter (-1) 1 0 GETEVENTS].
Proof. vm_compute. repeat split; reflexivity. Qed.

End RingInit.

(** ** Slot acquisition *)

Section SlotAcquisition.

Lemma u32_sub_idemp a b : u32 (u32 a - b) = u32 (a - b).
Proof. unfold u32. apply Zminus_mod_idemp_l. Qed.

Lemma u32_add_idemp a b : u32 (u32 a + b) = u32 (a + b).
Proof. unfold u32. apply Zplus_mod_idemp_l. Qed.

Lemma get_sqe_next_distance ring :
  unsubmitted ring < 2 ^ 32 - 1 ->
  u32 (u32 (sqe_tail (sq ring) + 1) - sqe_head (sq ring)) = unsubmitted ring + 1.
Proof.
  intros Hd. unfold unsubmitted in *.
  rewrite u32_sub_idemp.
  replace (sqe_tail (sq ring) + 1 - sqe_head (sq ring))
    with (sqe_tail (sq ring) - sqe_head (sq ring) + 1) by lia.
  rewrite <- u32_add_idemp. apply u32_small.
  pose proof (u32_range (sqe_tail (sq ring) - sqe_head (sq ring))). lia.
Qed.

(* io_uring_get_sqe hands out a slot exactly while the distance between
   the two slot cursors is below [ring_size]. *)
Lemma get_sqe_slot_iff ring :
  unsubmitted ring < 2 ^ 32 - 1 ->
  (fst (io_uring_get_sqe ring) <> None <-> unsubmitted ring < sq_ring_size (sq ring)).
Proof.
  intros Hd. unfold io_uring_get_sqe. cbn zeta.
  rewrite get_sqe_next_distance by exact Hd.
  destruct (Z.gtb_spec (unsubmitted ring + 1) (sq_ring_size (sq ring))); simpl.
  - split; [congruence|lia].
  - split; [lia|congruence].
Qed.

Lemma get_sqe_advances ring sqe ring' :
  io_uring_get_sqe ring = (Some sqe, ring') ->
  unsubmitted ring < 2 ^ 32 - 1 ->
  unsubmitted ring' = unsubmitted ring + 1 /\
  sq_ring_size (sq ring') = sq_ring_size (sq ring) /\
  sqe_head (sq ring') = sqe_head (sq ring) /\
  sqe_tail (sq ring') = u32 (sqe_tail (sq ring) + 1).
Proof.
  unfold io_uring_get_sqe. cbn zeta. intros H Hd.
  destruct (_ >? _); inversion H; subst; clear H.
  unfold unsubmitted at 1. simpl. split; [|auto].
  apply get_sqe_next_distance, Hd.
Qed.

Lemma get_sqe_null_keeps ring ring' :
  io_uring_get_sqe ring = (None, ring') -> ring' = ring.
Proof.
  unfold io_uring_get_sqe. cbn zeta.
  destruct (_ >? _); intros H; inversion H; reflexivity.
Qed.

(* As long as the distance stays within [ring_size], every one of [n]
   consecutive calls hands out a slot. *)
Lemma acquire_n_all_slots n : forall ring,
  unsubmitted ring + Z.of_nat n <= sq_ring_size (sq ring) ->
  sq_ring_size (sq ring) < 2 ^ 32 ->
  Forall (fun r => r <> None) (fst (acquire_n n ring)).
Proof.
  induction n as [|n IH]; intros ring Hle Hrs; simpl; [constructor|].
  destruct (io_uring_get_sqe ring) as [sqe ring1] eqn:E.
  destruct (acquire_n n ring1) as [rest ring2] eqn:E2. simpl.
  assert (Hd : unsubmitted ring < 2 ^ 32 - 1) by lia.
  pose proof (proj2 (get_sqe_slot_iff ring Hd)) as Hsome.
  rewrite E in Hsome. simpl in Hsome.
  destruct sqe as [a|]; [|exfalso; apply Hsome; [lia|reflexivity]].
  destruct (get_sqe_advances _ _ _ E Hd) as (Hd1 & Hrs1 & _).
  constructor; [congruence|].
  specialize (IH ring1). rewrite E2 in IH. simpl in IH.
  apply IH; [rewrite Hd1, Hrs1; lia|rewrite Hrs1; exact Hrs].
Qed.

(* What io_uring_queue_init leaves in the submission-side fields the slot
   cursor test reads. *)
Lemma queue_init_slot_fields entries ring flags k su r1 r2 r3 :
  let res := io_uring_queue_init entries ring flags k su r1 r2 r3 in
  fst (fst res) = Ok tt ->
  sq_ring_size (sq (snd (fst res))) = sq_ring_bytes (su_params su) /\
  sqe_head (sq (snd (fst res))) = 0 /\
  sqe_tail (sq (snd (fst res))) = 0 /\
  pending (sq (snd (fst res))) = false.
Proof.
  cbn zeta. unfold io_uring_queue_init.
  destruct (negb (Z.land flags SQPOLL =? 0)); [discriminate|].
  destruct (su_ret su <? 0); [discriminate|].
  unfold io_uring_queue_mmap. cbn zeta.
  destruct (sys_mmap k _ (su_ret su) IORING_OFF_SQ_RING r1) as [p1 k1].
  destruct (p1 =? MAP_FAILED); [discriminate|].
  destruct (sys_mmap k1 _ (su_ret su) IORING_OFF_SQES r2) as [p2 k2].
  cbn [sq with_sq set_sq_sqes sq_sqes].
  destruct (p2 =? MAP_FAILED); [discriminate|].
  destruct (sys_mmap k2 _ (su_ret su) IORING_OFF_CQ_RING r3) as [p3 k3].
  destruct (p3 =? MAP_FAILED); [discriminate|].
  intros _. simpl. repeat split; reflexivity.
Qed.

(* A ring set up for [C] entries hands out a slot on the (C+1)-th
   consecutive call as well, whatever the kernel's offsets are, as long as
   the byte size of the submission ring fits 32 bits. *)
Lemma acquire_past_entries entries ring flags k su r1 r2 r3 :
  let res := io_uring_queue_init entries ring flags k su r1 r2 r3 in
  let p := su_params su in
  fst (fst res) = Ok tt ->
  1 <= sq_entries p -> 0 <= sqo_index_array (sq_off p) ->
  sqo_index_array (sq_off p) + sq_entries p * 4 < 2 ^ 32 ->
  Forall (fun r => r <> None)
         (fst (acquire_n (Z.to_nat (sq_entries p) + 1) (snd (fst res)))).
Proof.
  cbn zeta. intros Hok Hc Hoff Hfit.
  destruct (queue_init_slot_fields entries ring flags k su r1 r2 r3 Hok) as (Hrs & Hh & Ht & _).
  assert (Hbytes : sq_ring_bytes (su_params su)
                   = sqo_index_array (sq_off (su_params su)) + sq_entries (su_params su) * 4).
  { unfold sq_ring_bytes, sizeof_uint32_t. apply u32_small. lia. }
  apply acquire_n_all_slots.
  - unfold unsubmitted. rewrite Hh, Ht, Hrs, Hbytes.
    change (u32 (0 - 0)) with 0. lia.
  - rewrite Hrs, Hbytes. exact Hfit.
Qed.

(** C1 (the code departs from it): the ring set up by
    io_uring_queue_init(4, ring, 0) has four submission entries, yet
    [ring.sq.ring_size] holds 336, the byte length of the mapped
    submission ring.  Five consecutive calls of io_uring_get_sqe with no
    submit in between all return a slot, and the fifth returns the address
    of the first slot again, still filled and unsubmitted. *)
Theorem get_sqe_past_capacity :
  fst (fst Example.init_result) = Ok tt /\
  sq_entries Example.params = 4 /\
  sq_ring_size (sq Example.ring0) = 336 /\
  fst (acquire_n 5 Example.ring0)
  = [Some 0x20000; Some 0x20040; Some 0x20080; Some 0x200c0; Some 0x20000] /\
  unsubmitted (snd (acquire_n 4 Example.ring0)) = 4 /\
  fst (io_uring_get_sqe (snd (acquire_n 4 Example.ring0))) = Some 0x20000.
Proof. vm_compute. repeat split; reflexivity. Qed.

End SlotAcquisition.

(** ** Submission *)

Section Submission.

(* do_io_uring_enter makes exactly one enter call, for [submitted] entries. *)
Lemma do_enter_spec ring submitted r :
  do_io_uring_enter ring submitted r
  = (if sys_ret r <? 0 then Throw (system_error (sys_errno r) "io_uring_enter") else Ok tt,
     with_sq (set_pending (sys_ret r <? 0)) ring,
     [sys_io_uring_enter (ring_fd ring) submitted 0 GETEVENTS]).
Proof. unfold do_io_uring_enter. destruct (sys_ret r <? 0); reflexivity. Qed.

(* The pending branch: one enter call for the unconsumed count, nothing
   else touched. *)
Lemma submit_redrive ring k r :
  pending (sq ring) = true ->
  u32 (load32 (mem k) (sq_tail (sq ring)) - load32 (mem k) (sq_head (sq ring))) <> 0 ->
  io_uring_submit ring k r
  = (if sys_ret r <? 0 then Throw (system_error (sys_errno r) "io_uring_enter") else Ok None,
     with_sq (set_pending (sys_ret r <? 0)) ring,
     k,
     [sys_io_uring_enter (ring_fd ring)
        (u32 (load32 (mem k) (sq_tail (sq ring)) - load32 (mem k) (sq_head (sq ring))))
        0 GETEVENTS]).
Proof.
  intros Hp Hne. unfold io_uring_submit. cbn zeta. rewrite Hp.
  apply Z.eqb_neq in Hne. rewrite Hne. simpl negb. cbv iota.
  rewrite do_enter_spec. destruct (sys_ret r <? 0); reflexivity.
Qed.

(* The loop: fields other than [sqe_head] are kept, and with the fuel
   io_uring_submit gives it the loop runs until its guard is false. *)
Lemma publish_spec fuel : forall s m t mask,
  0 <= sqe_head s -> sqe_tail s < 2 ^ 32 -> 0 <= t < 2 ^ 32 ->
  Z.of_nat fuel = Z.max 0 (sqe_tail s - sqe_head s) ->
  let '(s', m', t') := publish fuel s m t mask in
  s' = set_sqe_head (Z.max (sqe_head s) (sqe_tail s)) s /\
  t' = u32 (t + Z.of_nat fuel).
Proof.
  induction fuel as [|fuel IH]; intros s m t mask Hh Ht Htn Hfuel; simpl publish.
  - split; [|rewrite Z.add_0_r; symmetry; apply u32_small; exact Htn].
    replace (Z.max (sqe_head s) (sqe_tail s)) with (sqe_head s) by lia.
    destruct s; reflexivity.
  - destruct (Z.ltb_spec (sqe_head s) (sqe_tail s)) as [Hlt|Hge]; [|lia].
    assert (Hu : u32 (sqe_head s + 1) = sqe_head s + 1) by (apply u32_small; lia).
    specialize (IH (set_sqe_head (u32 (sqe_head s + 1)) s)
                   (store32 m (sq_index_array s + sizeof_uint32_t * Z.land t mask)
                            (Z.land (sqe_head s) mask))
                   (u32 (t + 1)) mask).
    destruct (publish fuel _ _ (u32 (t + 1)) mask) as [[s' m'] t'].
    simpl in IH. rewrite Hu in IH.
    destruct IH as [Hs' Ht']; [lia|lia|apply u32_range|lia|].
    split.
    + rewrite Hs'. unfold set_sqe_head. simpl. f_equal. lia.
    + rewrite Ht'. rewrite u32_add_idemp. f_equal. lia.
Qed.

Lemma publish_exits s m t mask :
  0 <= sqe_head s -> sqe_tail s < 2 ^ 32 -> 0 <= t < 2 ^ 32 ->
  let s' := fst (fst (publish (publish_fuel s) s m t mask)) in
  (sqe_head s' <? sqe_tail s') = false.
Proof.
  intros Hh Ht Htn.
  pose proof (publish_spec (publish_fuel s) s m t mask Hh Ht Htn) as H.
  destruct (publish (publish_fuel s) s m t mask) as [[s' m'] t'].
  destruct H as [-> _]; [unfold publish_fuel; lia|].
  simpl. apply Z.ltb_ge. lia.
Qed.

(* The publish branch with a successful enter call: the value returned is
   the number of slots between the two slot cursors, which the call moves
   onto the kernel-visible queue. *)
Lemma submit_publish_count ring k tail r :
  0 <= sqe_head (sq ring) <= sqe_tail (sq ring) -> sqe_tail (sq ring) < 2 ^ 32 ->
  0 <= tail < 2 ^ 32 ->
  0 <= sys_ret r ->
  let res := io_uring_submit_publish ring k tail r in
  fst (fst (fst res)) = Ok (Some (sqe_tail (sq ring) - sqe_head (sq ring))) /\
  sqe_head (sq (snd (fst (fst res)))) = sqe_tail (sq ring) /\
  sqe_tail (sq (snd (fst (fst res)))) = sqe_tail (sq ring).
Proof.
  intros Hh Ht Htn Hr. unfold io_uring_submit_publish. cbn zeta.
  pose proof (publish_spec (publish_fuel (sq ring)) (sq ring) (mem k) tail
                (sq_ring_mask (sq ring))) as H.
  destruct (publish _ _ _ tail _) as [[s' m'] t'].
  destruct H as [-> ->]; [lia|lia|lia|unfold publish_fuel; lia|].
  assert (Hn : u32 (u32 (tail + Z.of_nat (publish_fuel (sq ring))) - tail)
               = sqe_tail (sq ring) - sqe_head (sq ring)).
  { rewrite u32_sub_idemp. unfold publish_fuel. rewrite Z2Nat.id by lia.
    replace (tail + (sqe_tail (sq ring) - sqe_head (sq ring)) - tail)
      with (sqe_tail (sq ring) - sqe_head (sq ring)) by lia.
    apply u32_small. lia. }
  rewrite Hn.
  destruct (Z.eqb_spec (sqe_tail (sq ring) - sqe_head (sq ring)) 0) as [E|E]; simpl negb; cbv iota.
  - simpl. rewrite E. repeat split; lia.
  - rewrite do_enter_spec.
    replace (sys_ret r <? 0) with false by (symmetry; apply Z.ltb_ge; lia).
    simpl. repeat split; lia.
Qed.

(* Consecutive io_uring_get_sqe calls move [sqe_tail] by the number of
   slots handed out and touch nothing else. *)
Lemma acquire_n_cursors n : forall ring,
  sqe_head (sq (snd (acquire_n n ring))) = sqe_head (sq ring) /\
  pending (sq (snd (acquire_n n ring))) = pending (sq ring) /\
  sq_tail (sq (snd (acquire_n n ring))) = sq_tail (sq ring) /\
  (sqe_tail (sq (snd (acquire_n n ring)))
   = u32 (sqe_tail (sq ring) + Z.of_nat (handed_out (fst (acquire_n n ring)))) \/
   (handed_out (fst (acquire_n n ring)) = 0%nat /\
    sqe_tail (sq (snd (acquire_n n ring))) = sqe_tail (sq ring))).
Proof.
  induction n as [|n IH]; intros ring.
  - simpl. split; [reflexivity|]. split; [reflexivity|]. split; [reflexivity|].
    right. split; reflexivity.
  - simpl. destruct (io_uring_get_sqe ring) as [sqe ring1] eqn:E.
    specialize (IH ring1).
    destruct (acquire_n n ring1) as [rest ring2]. cbn [fst snd] in IH |- *.
    destruct IH as (Hh & Hp & Ht & Htail).
    unfold io_uring_get_sqe in E. cbn zeta in E.
    destruct (_ >? _); inversion E; subst sqe ring1; clear E.
    + unfold handed_out in *. simpl. auto.
    + cbn [sq with_sq set_sqe_tail sqe_head pending sq_tail sqe_tail] in Hh, Hp, Ht, Htail.
      split; [exact Hh|]. split; [exact Hp|]. split; [exact Ht|]. left.
      unfold handed_out in *. simpl length. rewrite Nat2Z.inj_succ.
      destruct Htail as [Htail|[H0 Htail]]; rewrite Htail.
      * rewrite u32_add_idemp. f_equal; lia.
      * rewrite H0. f_equal; lia.
Qed.

(* On a ring that is not pending and has nothing unsubmitted, the value
   io_uring_submit returns after [n] io_uring_get_sqe calls is the number
   of slots those calls handed out: what was filled since the last
   submission, and no more. *)
Lemma submit_returns_acquired_count n ring k r :
  pending (sq ring) = false ->
  sqe_head (sq ring) = sqe_tail (sq ring) ->
  0 <= sqe_tail (sq ring) -> sqe_tail (sq ring) + Z.of_nat n < 2 ^ 32 ->
  0 <= load32 (mem k) (sq_tail (sq ring)) < 2 ^ 32 ->
  0 <= sys_ret r ->
  fst (fst (fst (io_uring_submit (snd (acquire_n n ring)) k r)))
  = Ok (Some (Z.of_nat (handed_out (fst (acquire_n n ring))))) /\
  (handed_out (fst (acquire_n n ring)) <= n)%nat.
Proof.
  intros Hp Heq H0 Hfit Htl Hr.
  assert (Hle : (handed_out (fst (acquire_n n ring)) <= n)%nat).
  { clear. revert ring. induction n as [|n IH]; intros ring; simpl; [unfold handed_out; simpl; lia|].
    destruct (io_uring_get_sqe ring) as [sqe ring1]. specialize (IH ring1).
    destruct (acquire_n n ring1) as [rest ring2]. cbn [fst] in *.
    unfold handed_out in *. simpl. destruct sqe; simpl; lia. }
  split; [|exact Hle].
  destruct (acquire_n_cursors n ring) as (Hh & Hpe & Ht & Htail).
  set (m := handed_out (fst (acquire_n n ring))) in *.
  assert (Htail' : sqe_tail (sq (snd (acquire_n n ring))) = sqe_tail (sq ring) + Z.of_nat m).
  { destruct Htail as [->|[Hm ->]]; [apply u32_small; lia|rewrite Hm; simpl; lia]. }
  unfold io_uring_submit. cbn zeta. rewrite Hpe, Hp, Ht.
  destruct (submit_publish_count (snd (acquire_n n ring)) k
              (load32 (mem k) (sq_tail (sq ring))) r) as (Ho & _); try lia.
  rewrite Ho, Htail', Hh, Heq. f_equal. f_equal. lia.
Qed.

(** C3: whenever io_uring_submit makes its enter call and the kernel
    answers with a negative value, the call throws the system_error of
    io_uring_enter and leaves the pending flag set; and at the next call,
    whatever the kernel did to the shared memory meanwhile, if the
    published tail is still ahead of the kernel's head the function makes
    one enter call for exactly that difference and changes neither the
    shared memory (index array and published tail included) nor the slot
    cursors: only the pending flag is rewritten, by the outcome of the
    re-issued call. *)
Theorem submit_failure_sets_pending_then_redrives ring k r1 k2 r2 :
  sys_ret r1 < 0 ->
  snd (io_uring_submit ring k r1) <> [] ->
  let ring1 := snd (fst (fst (io_uring_submit ring k r1))) in
  let undrained := u32 (load32 (mem k2) (sq_tail (sq ring1))
                        - load32 (mem k2) (sq_head (sq ring1))) in
  (fst (fst (fst (io_uring_submit ring k r1)))
     = Throw (system_error (sys_errno r1) "io_uring_enter") /\
   pending (sq ring1) = true) /\
  (undrained <> 0 ->
   snd (io_uring_submit ring1 k2 r2)
     = [sys_io_uring_enter (ring_fd ring1) undrained 0 GETEVENTS] /\
   snd (fst (io_uring_submit ring1 k2 r2)) = k2 /\
   snd (fst (fst (io_uring_submit ring1 k2 r2)))
     = with_sq (set_pending (sys_ret r2 <? 0)) ring1 /\
   sqe_head (sq (snd (fst (fst (io_uring_submit ring1 k2 r2))))) = sqe_head (sq ring1) /\
   sqe_tail (sq (snd (fst (fst (io_uring_submit ring1 k2 r2))))) = sqe_tail (sq ring1) /\
   fst (fst (fst (io_uring_submit ring1 k2 r2)))
     = (if sys_ret r2 <? 0 then Throw (system_error (sys_errno r2) "io_uring_enter")
        else Ok None)).
Proof.
  intros Hneg Hcalls ring1 undrained.
  assert (H1 : fst (fst (fst (io_uring_submit ring k r1)))
               = Throw (system_error (sys_errno r1) "io_uring_enter") /\
               pending (sq ring1) = true).
  { subst ring1. revert Hcalls. apply Z.ltb_lt in Hneg.
    unfold io_uring_submit, io_uring_submit_publish. cbn zeta.
    destruct (pending (sq ring)).
    - destruct (negb (_ =? 0)).
      + rewrite do_enter_spec, Hneg. simpl. auto.
      + destruct (publish _ _ _ _ _) as [[s m] t].
        destruct (negb (_ =? 0)); [|simpl; congruence].
        rewrite do_enter_spec, Hneg. simpl. auto.
    - destruct (publish _ _ _ _ _) as [[s m] t].
      destruct (negb (_ =? 0)); [|simpl; congruence].
      rewrite do_enter_spec, Hneg. simpl. auto. }
  split; [exact H1|]. intros Hund.
  destruct H1 as [_ Hp].
  rewrite (submit_redrive ring1 k2 r2 Hp Hund). simpl.
  repeat split; reflexivity.
Qed.

(* In the four-entry example: one slot acquired, the enter call fails with
   EINTR; the kernel has not consumed the entry when submit is called again. *)
Lemma submit_failure_sets_pending_then_redrives_witness :
  let ring := snd (acquire_n 1 Example.ring0) in
  let r1 := Example.failed Example.EINTR in
  let res1 := io_uring_submit ring Example.kernel1 r1 in
  sys_ret r1 < 0 /\
  snd res1 <> [] /\
  fst (fst (fst res1)) = Throw (system_error Example.EINTR "io_uring_enter") /\
  snd (io_uring_submit (snd (fst (fst res1))) (snd (fst res1)) (Example.ok_at 1))
  = [sys_io_uring_enter (-1) 1 0 GETEVENTS].
Proof.
  cbn zeta.
  assert (H1 : sys_ret (Example.failed Example.EINTR) < 0) by (vm_compute; reflexivity).
  assert (H2 : snd (io_uring_submit (snd (acquire_n 1 Example.ring0)) Example.kernel1
                      (Example.failed Example.EINTR)) <> []) by (vm_compute; discriminate).
  assert (H3 : u32 (load32 (mem (snd (fst (io_uring_submit (snd (acquire_n 1 Example.ring0))
                                             Example.kernel1 (Example.failed Example.EINTR)))))
                           (sq_tail (sq (snd (fst (fst (io_uring_submit
                              (snd (acquire_n 1 Example.ring0)) Example.kernel1
                              (Example.failed Example.EINTR)))))))
                    - load32 (mem (snd (fst (io_uring_submit (snd (acquire_n 1 Example.ring0))
                                               Example.kernel1 (Example.failed Example.EINTR)))))
                             (sq_head (sq (snd (fst (fst (io_uring_submit
                                (snd (acquire_n 1 Example.ring0)) Example.kernel1
                                (Example.failed Example.EINTR)))))))) <> 0)
    by (vm_compute; discriminate).
  destruct (submit_failure_sets_pending_then_redrives
              (snd (acquire_n 1 Example.ring0)) Example.kernel1 (Example.failed Example.EINTR)
              (snd (fst (io_uring_submit (snd (acquire_n 1 Example.ring0)) Example.kernel1
                                         (Example.failed Example.EINTR))))
              (Example.ok_at 1) H1 H2) as [[Ho _] Hre].
  destruct (Hre H3) as [Hc _].
  split; [exact H1|]. split; [exact H2|]. split; [exact Ho|].
  rewrite Hc. vm_compute. reflexivity.
Defined.

(** C2 (the code departs from it): with the pending flag set and one
    published entry the kernel has not consumed, io_uring_submit re-issues
    the enter call, which succeeds, and leaves through the bare [return;]
    of the pending branch: the caller is handed no count at all, while the
    function is declared to return [unsigned] and documented to return the
    number of submitted entries. *)
Theorem submit_pending_branch_returns_no_value :
  pending (sq Example.pending_ring) = true /\
  load32 (mem Example.pending_kernel) (sq_tail (sq Example.pending_ring)) = 1 /\
  load32 (mem Example.pending_kernel) (sq_head (sq Example.pending_ring)) = 0 /\
  io_uring_submit Example.pending_ring Example.pending_kernel (Example.ok_at 1)
  = (Ok None, with_sq (set_pending false) Example.pending_ring, Example.pending_kernel,
     [sys_io_uring_enter (-1) 1 0 GETEVENTS]).
Proof.
  split; [reflexivity|]. split; [reflexivity|]. split; [reflexivity|].
  rewrite submit_redrive; [reflexivity|reflexivity|vm_compute; discriminate].
Qed.

End Submission.

(** ** The gate *)

Section GateFacts.
Import Hook Gate.
Context {W : Type}.
Implicit Types (g : gate W) (w : W).

Lemma is_closed_stopped g : is_closed g = true <-> exists p, _stopped g = Some p.
Proof.
  unfold is_closed. destruct (_stopped g) as [p|]; split; intros H; eauto.
  - discriminate.
  - destruct H as [p H]. discriminate.
Qed.

Lemma is_closed_open g : is_closed g = false <-> _stopped g = None.
Proof. unfold is_closed. destruct (_stopped g); split; congruence. Qed.

(** C7: enter() on a gate whose close() was requested throws
    gate_closed_exception and leaves the gate as it was; on an open gate
    it returns normally with the count one higher (modulo 2^64, the width
    of size_t) and nothing else changed.  check() throws
    gate_closed_exception exactly when close() was requested, returns
    normally otherwise, and never changes the gate.  Whenever either one
    throws, the count is what it was. *)
Theorem enter_check_closed_or_counted g :
  (is_closed g = true -> enter g = (Throw gate_closed_exception, g)) /\
  (is_closed g = false ->
     fst (enter g) = Ok tt /\
     _count (snd (enter g)) = u64 (_count g + 1) /\
     (0 <= _count g < 2 ^ 64 - 1 -> _count (snd (enter g)) = _count g + 1) /\
     _stopped (snd (enter g)) = _stopped g /\
     _to_signal (snd (enter g)) = _to_signal g) /\
  (fst (check g) = Throw gate_closed_exception <-> is_closed g = true) /\
  (fst (check g) = Ok tt <-> is_closed g = false) /\
  snd (check g) = g /\
  (forall e, fst (enter g) = Throw e -> _count (snd (enter g)) = _count g) /\
  (forall e, fst (check g) = Throw e -> _count (snd (check g)) = _count g).
Proof.
  unfold enter, check, is_closed.
  destruct (_stopped g) as [p|] eqn:E; simpl.
  - repeat split; try congruence; auto.
  - repeat split; try congruence; auto.
    intros Hr. apply u64_small. lia.
Qed.


Lemma gate_run_cons (op : gate_op W) ops g :
  gate_run (op :: ops) g = gate_run ops (gate_step g op).
Proof. reflexivity. Qed.

Lemma gate_run_snoc (op : gate_op W) ops g :
  gate_run (ops ++ [op]) g = gate_step (gate_run ops g) op.
Proof. unfold gate_run. rewrite fold_left_app. reflexivity. Qed.

Lemma leaves_cons (op : gate_op W) ops :
  leaves (op :: ops) = if is_leave op then S (leaves ops) else leaves ops.
Proof. unfold leaves. simpl. destruct (is_leave op); reflexivity. Qed.

Lemma leaves_snoc_leave (ops : list (gate_op W)) :
  leaves (ops ++ [op_leave]) = S (leaves ops).
Proof. unfold leaves. rewrite List.filter_app, length_app. simpl. lia. Qed.

(* After close(), users of the gate can only bring the count down: with
   [n] leave() calls among their operations, [n] at most the count, the
   count has dropped by [n] and the promise was resolved, once, exactly if
   the count was brought to zero by them. *)
Lemma gate_run_closed ops : forall g p,
  _stopped g = Some p ->
  0 <= _count g < 2 ^ 64 ->
  Z.of_nat (leaves ops) <= _count g ->
  _count (gate_run ops g) = _count g - Z.of_nat (leaves ops) /\
  _stopped (gate_run ops g)
  = Some (if (0 <? Z.of_nat (leaves ops)) && (Z.of_nat (leaves ops) =? _count g)
          then set_value p else p).
Proof.
  induction ops as [|op ops IH]; intros g p Hs Hc Hl.
  - unfold gate_run, leaves. simpl. split; [lia|]. rewrite Hs. reflexivity.
  - rewrite gate_run_cons. rewrite leaves_cons in Hl |- *.
    destruct op; cbn [is_leave gate_step] in Hl |- *.
    + (* enter *)
      unfold enter. rewrite Hs. cbn [snd]. apply IH; assumption.
    + (* leave *)
      rewrite Nat2Z.inj_succ in Hl |- *.
      assert (Hu : u64 (_count g - 1) = _count g - 1) by (apply u64_small; lia).
      assert (Hleave : leave g
                       = if _count g - 1 =? 0
                         then set_stopped (Some (set_value p)) (set_count (_count g - 1) g)
                         else set_count (_count g - 1) g).
      { unfold leave. cbn [set_count _stopped _count]. rewrite Hs, Hu. reflexivity. }
      rewrite Hleave.
      replace (0 <? Z.succ (Z.of_nat (leaves ops))) with true by (symmetry; apply Z.ltb_lt; lia).
      destruct (Z.eqb_spec (_count g - 1) 0) as [E0|E0].
      * destruct (IH (set_stopped (Some (set_value p)) (set_count (_count g - 1) g))
                     (set_value p) eq_refl) as [Hc' Hs']; cbn [set_stopped set_count _count];
          try lia.
        cbn [set_stopped set_count _count] in Hc', Hs'. rewrite Hc', Hs'. split; [lia|].
        replace (0 <? Z.of_nat (leaves ops)) with false by (symmetry; apply Z.ltb_ge; lia).
        replace (Z.succ (Z.of_nat (leaves ops)) =? _count g) with true
          by (symmetry; apply Z.eqb_eq; lia).
        reflexivity.
      * destruct (IH (set_count (_count g - 1) g) p Hs) as [Hc' Hs'];
          cbn [set_stopped set_count _count]; try lia.
        cbn [set_stopped set_count _count] in Hc', Hs'. rewrite Hc', Hs'. split; [lia|].
        destruct (Z.eqb_spec (Z.of_nat (leaves ops)) (_count g - 1)) as [E1|E1].
        -- replace (Z.succ (Z.of_nat (leaves ops)) =? _count g) with true
             by (symmetry; apply Z.eqb_eq; lia).
           replace (0 <? Z.of_nat (leaves ops)) with true by (symmetry; apply Z.ltb_lt; lia).
           reflexivity.
        -- replace (Z.succ (Z.of_nat (leaves ops)) =? _count g) with false
             by (symmetry; apply Z.eqb_neq; lia).
           rewrite andb_false_r. reflexivity.
    + (* check *)
      unfold check. rewrite Hs. cbn [snd]. apply IH; assumption.
    + (* signal_on_close *)
      apply (IH (snd (signal_on_close target g)) p); assumption.
    + (* ~signal_target *)
      apply (IH (signal_target_destroy h g) p); assumption.
    + (* signal_target(signal_target&&) *)
      apply (IH (snd (signal_target_move h g)) p); assumption.
Qed.

Lemma close_open g w :
  is_closed g = false ->
  close g w
  = (Ok tt,
     set_stopped (Some (if _count g =? 0 then [resolved_value] else [])) g,
     for_each (_to_signal g) w).
Proof.
  intros Ho. apply is_closed_open in Ho. unfold close. rewrite Ho. simpl.
  destruct (_count g =? 0); reflexivity.
Qed.

(** C4: close() on an open gate with no request in flight returns with
    the drain promise resolved (once, with a value).  With N > 0 requests
    in flight it returns with the promise unresolved, the promise stays
    unresolved through whatever the users of the gate do as long as fewer
    than N leave() calls were made, and the N-th leave() call resolves
    it, once. *)
Theorem close_drains_after_last_leave g w :
  is_closed g = false ->
  0 <= _count g < 2 ^ 64 ->
  let g1 := snd (fst (close g w)) in
  fst (fst (close g w)) = Ok tt /\
  (_count g = 0 -> drained g1 = true /\ _stopped g1 = Some [resolved_value]) /\
  (0 < _count g ->
   drained g1 = false /\
   forall ops,
     (Z.of_nat (leaves ops) < _count g -> drained (gate_run ops g1) = false) /\
     (Z.of_nat (leaves ops) = _count g - 1 ->
      drained (leave (gate_run ops g1)) = true /\
      _stopped (leave (gate_run ops g1)) = Some [resolved_value])).
Proof.
  intros Ho Hc. cbn zeta. rewrite (close_open g w Ho). simpl.
  split; [reflexivity|]. split.
  - intros E. rewrite E. simpl. auto.
  - intros Hpos.
    replace (_count g =? 0) with false by (symmetry; apply Z.eqb_neq; lia).
    split; [reflexivity|]. intros ops.
    set (g1 := set_stopped (Some []) g).
    assert (Hs1 : _stopped g1 = Some []) by reflexivity.
    assert (Hc1 : _count g1 = _count g) by reflexivity.
    split.
    + intros Hlt.
      destruct (gate_run_closed ops g1 [] Hs1) as [_ Hs']; [lia|lia|].
      unfold drained. rewrite Hs'.
      replace (Z.of_nat (leaves ops) =? _count g1) with false
        by (symmetry; apply Z.eqb_neq; lia).
      rewrite andb_false_r. reflexivity.
    + intros Heq.
      destruct (gate_run_closed (ops ++ [op_leave]) g1 [] Hs1) as [_ Hs'].
      * lia.
      * rewrite leaves_snoc_leave. lia.
      * rewrite gate_run_snoc in Hs'. cbn [gate_step] in Hs'.
        assert (Hn : Z.of_nat (leaves (ops ++ [op_leave])) = _count g1).
        { rewrite leaves_snoc_leave. lia. }
        rewrite Hn in Hs'.
        replace (0 <? _count g1) with true in Hs' by (symmetry; apply Z.ltb_lt; lia).
        rewrite Z.eqb_refl in Hs'. simpl in Hs'.
        unfold drained. rewrite Hs'. auto.
Qed.


End GateFacts.

Section GateExamples.
Import Hook Gate.

(* An open gate with two requests in flight takes a third; once closed it
   refuses the next and keeps its count. *)
Lemma enter_check_closed_or_counted_witness :
  let g : gate unit := {| _count := 2; _stopped := None; _to_signal := []; next_hook := 0 |} in
  let g' := snd (fst (close g tt)) in
  (is_closed g = false /\ fst (enter g) = Ok tt /\ _count (snd (enter g)) = 3) /\
  (is_closed g' = true /\ enter g' = (Throw gate_closed_exception, g') /\ _count g' = 2).
Proof.
  cbn zeta. split.
  - pose proof (enter_check_closed_or_counted
                  {| _count := 2; _stopped := None; _to_signal := @nil (node unit); next_hook := 0 |})
      as (_ & Hopen & _).
    destruct (Hopen eq_refl) as (Ho & _ & Hc & _).
    split; [reflexivity|]. split; [exact Ho|]. rewrite Hc; [reflexivity|cbn [_count]; lia].
  - pose proof (enter_check_closed_or_counted
                  (snd (fst (close {| _count := 2; _stopped := None;
                                      _to_signal := @nil (node unit); next_hook := 0 |} tt))))
      as (Hclosed & _).
    split; [reflexivity|]. split; [exact (Hclosed eq_refl)|reflexivity].
Defined.

(* Scenario A with two requests: enter, enter, close; a leave() on its own
   keeps the drain promise unresolved, the second one resolves it. *)
Lemma close_drains_after_last_leave_witness :
  let g : gate unit := snd (enter (snd (enter new_gate))) in
  let g1 := snd (fst (close g tt)) in
  is_closed g = false /\
  0 <= _count g < 2 ^ 64 /\
  drained g1 = false /\
  drained (gate_run [op_enter; op_leave; op_check] g1) = false /\
  drained (leave (gate_run [op_enter; op_leave; op_check] g1)) = true.
Proof.
  cbn zeta.
  assert (Ho : is_closed (snd (enter (snd (enter (@new_gate unit))))) = false) by reflexivity.
  assert (Hc : 0 <= _count (snd (enter (snd (enter (@new_gate unit))))) < 2 ^ 64)
    by (vm_compute; split; [discriminate|reflexivity]).
  destruct (close_drains_after_last_leave (snd (enter (snd (enter new_gate)))) tt Ho Hc)
    as (_ & _ & Hn).
  destruct Hn as [Hd Hops]; [vm_compute; reflexivity|].
  destruct (Hops [op_enter; op_leave; op_check]) as [Hlt Heq].
  split; [exact Ho|]. split; [exact Hc|]. split; [exact Hd|]. split.
  - apply Hlt. vm_compute. reflexivity.
  - apply Heq. vm_compute. reflexivity.
Defined.

End GateExamples.

(** ** Callback lists: what firing runs *)

Section HookFacts.
Import Hook.
Context {W : Type}.
Implicit Types (l : list (node W)) (ops : list (handle_op W)).

Lemma for_each_run_callbacks l (w : W) :
  for_each l w = run_callbacks (List.map _target l) w.
Proof.
  unfold for_each, run_callbacks. revert w.
  induction l as [|n l IH]; intros w; simpl; [reflexivity|apply IH].
Qed.

(* Moving a handle changes which object is linked, not what is called
   nor in which order. *)
Lemma swap_nodes_keeps_targets (other this : nat) l :
  List.map _target (swap_nodes other this l) = List.map _target l.
Proof.
  unfold swap_nodes. induction l as [|n l IH]; simpl; [reflexivity|].
  rewrite IH. destruct (Nat.eqb (hook n) other); reflexivity.
Qed.

Lemma unlink_filter_destroyed h ops l :
  List.filter (fun n => negb (destroyed (hook n) ops)) (unlink h l)
  = List.filter (fun n => negb (destroyed (hook n) (h_destroy h :: ops))) l.
Proof.
  unfold unlink. induction l as [|n l IH]; simpl; [reflexivity|].
  rewrite (Nat.eqb_sym h (hook n)).
  destruct (Nat.eqb (hook n) h); simpl; [exact IH|].
  destruct (destroyed (hook n) ops); simpl; [exact IH|f_equal; exact IH].
Qed.

Lemma filter_push_back_live (n : nat) (f : W -> W) ops l :
  List.filter (fun nd => negb (destroyed (hook nd) ops))
              (push_back {| hook := n; _target := f |} l)
  ++ spec_live_nodes ops (S n)
  = List.filter (fun nd => negb (destroyed (hook nd) (h_subscribe f :: ops))) l
    ++ spec_live_nodes (h_subscribe f :: ops) n.
Proof.
  unfold push_back. rewrite List.filter_app, <- app_assoc. simpl.
  f_equal. f_equal. destruct (destroyed n ops); reflexivity.
Qed.

Lemma filter_nothing_destroyed l :
  List.filter (fun nd => negb (destroyed (hook nd) (@nil (handle_op W)))) l = l.
Proof. induction l as [|x l IH]; simpl; [reflexivity|f_equal; exact IH]. Qed.

Lemma destroyed_logging h ops : forall n, destroyed h (logging ops n) = destroyed h ops.
Proof.
  induction ops as [|op ops IH]; intros n; [reflexivity|].
  destruct op as [f|h']; simpl.
  - apply IH.
  - rewrite IH. reflexivity.
Qed.

Lemma spec_live_callbacks_logging ops : forall n,
  spec_live_callbacks (logging ops n) n
  = List.map (fun k (log : list nat) => log ++ [k]) (spec_live_handles ops n).
Proof.
  unfold spec_live_callbacks, spec_live_handles.
  induction ops as [|op ops IH]; intros n; [reflexivity|].
  destruct op as [f|h]; simpl.
  - rewrite !List.map_app, IH, destroyed_logging.
    destruct (destroyed n ops); reflexivity.
  - apply IH.
Qed.

Lemma run_logging_callbacks (ks : list nat) : forall log,
  run_callbacks (List.map (fun k (log : list nat) => log ++ [k]) ks) log = log ++ ks.
Proof.
  unfold run_callbacks.
  induction ks as [|k ks IH]; intros log; simpl.
  - rewrite app_nil_r. reflexivity.
  - rewrite IH, <- app_assoc. reflexivity.
Qed.

(* Handles carry increasing serial numbers, so the live ones come out in
   increasing order and without repetition. *)
Lemma spec_live_handles_bounds ops : forall n,
  Forall (fun h => (n <= h)%nat) (spec_live_handles ops n).
Proof.
  unfold spec_live_handles.
  induction ops as [|op ops IH]; intros n; simpl; [constructor|].
  destruct op as [f|h]; [|apply IH].
  rewrite List.map_app. apply Forall_app. split.
  - destruct (destroyed n ops); simpl; constructor; [lia|constructor].
  - eapply List.Forall_impl; [|apply (IH (S n))]. simpl. intros; lia.
Qed.

Lemma spec_live_handles_sorted ops : forall n,
  StronglySorted lt (spec_live_handles ops n).
Proof.
  induction ops as [|op ops IH]; intros n; [constructor|].
  destruct op as [f|h]; [|apply IH].
  unfold spec_live_handles. simpl. rewrite List.map_app.
  destruct (destroyed n ops); simpl; [apply IH|].
  constructor; [apply IH|].
  eapply List.Forall_impl; [|apply (spec_live_handles_bounds ops (S n))]. simpl. intros; lia.
Qed.

(* The handle created by the subscription at a given place of the history
   is live exactly when no later operation destroys it. *)
Lemma spec_live_handles_member (pre : list (handle_op W)) :
  forall (f : W -> W) (post : list (handle_op W)) (n : nat),
  List.In (n + subscriptions_in pre)%nat (spec_live_handles (pre ++ h_subscribe f :: post) n)
  <-> destroyed (n + subscriptions_in pre)%nat post = false.
Proof.
  induction pre as [|op pre IH]; intros f post n.
  - unfold subscriptions_in, spec_live_handles. simpl. rewrite Nat.add_0_r.
    rewrite List.map_app.
    pose proof (spec_live_handles_bounds post (S n)) as Hb.
    unfold spec_live_handles in Hb.
    destruct (destroyed n post); simpl.
    + split; [|discriminate]. intros Hin.
      rewrite List.Forall_forall in Hb. apply Hb in Hin. lia.
    + split; auto.
  - destruct op as [f'|h]; unfold subscriptions_in, spec_live_handles in *; simpl.
    + specialize (IH f post (S n)).
      replace (n + S (length (List.filter is_subscribe pre)))%nat
        with (S n + length (List.filter is_subscribe pre))%nat by lia.
      rewrite <- IH. rewrite List.map_app, in_app_iff.
      split; [|auto]. intros [Hin|Hin]; [|exact Hin].
      destruct (destroyed n (pre ++ h_subscribe f :: post)); simpl in Hin; [tauto|].
      destruct Hin as [Hin|[]]. lia.
    + apply IH.
Qed.

End HookFacts.

Section Firing.
Import Hook Gate AbortSource.
Context {W : Type}.
Implicit Types (ops : list (handle_op W)).

(* The subscription list a history leaves behind: the nodes it found,
   without those it destroyed, followed by the live nodes it created. *)
Lemma subscription_run_list ops : forall (a : abort_source W) l,
  _subscriptions a = Some l ->
  _subscriptions (subscription_run ops a)
  = Some (List.filter (fun nd => negb (destroyed (hook nd) ops)) l
          ++ spec_live_nodes ops (next_subscription a)).
Proof.
  induction ops as [|op ops IH]; intros a l Hl.
  - simpl. rewrite Hl, app_nil_r, filter_nothing_destroyed. reflexivity.
  - unfold subscription_run in *. simpl fold_left. destruct op as [f|h].
    + unfold subscription_step, subscribe. rewrite Hl. cbn [snd].
      erewrite IH by reflexivity. cbn [next_subscription].
      rewrite filter_push_back_live. reflexivity.
    + unfold subscription_step, subscription_destroy. rewrite Hl.
      erewrite IH by reflexivity. cbn [next_subscription].
      rewrite unlink_filter_destroyed. reflexivity.
Qed.

Lemma gate_run_list ops : forall (g : gate W),
  _to_signal (gate_run (List.map of_handle_op ops) g)
  = List.filter (fun nd => negb (destroyed (hook nd) ops)) (_to_signal g)
    ++ spec_live_nodes ops (next_hook g) /\
  _stopped (gate_run (List.map of_handle_op ops) g) = _stopped g /\
  _count (gate_run (List.map of_handle_op ops) g) = _count g.
Proof.
  induction ops as [|op ops IH]; intros g.
  - simpl. rewrite app_nil_r, filter_nothing_destroyed. auto.
  - unfold gate_run in *. simpl fold_left. destruct op as [f|h]; cbn [of_handle_op gate_step].
    + destruct (IH (snd (signal_on_close f g))) as (Hl & Hs & Hc).
      rewrite Hl, Hs, Hc. unfold signal_on_close. cbn [snd _to_signal next_hook _stopped _count].
      rewrite filter_push_back_live. auto.
    + destruct (IH (signal_target_destroy h g)) as (Hl & Hs & Hc).
      rewrite Hl, Hs, Hc. unfold signal_target_destroy, set_to_signal.
      cbn [_to_signal next_hook _stopped _count].
      rewrite unlink_filter_destroyed. auto.
Qed.

(* What request_abort and close run, for any history of handles. *)
Lemma request_abort_after ops (w : W) :
  request_abort (subscription_run ops new_abort_source) w
  = (Ok tt,
     {| _subscriptions := None;
        next_subscription := next_subscription (subscription_run ops new_abort_source) |},
     run_callbacks (spec_live_callbacks ops 0) w).
Proof.
  unfold request_abort.
  rewrite (subscription_run_list ops new_abort_source [] eq_refl). simpl.
  rewrite for_each_run_callbacks. reflexivity.
Qed.

Lemma close_after ops (w : W) :
  fst (fst (close (gate_run (List.map of_handle_op ops) new_gate) w)) = Ok tt /\
  snd (close (gate_run (List.map of_handle_op ops) new_gate) w)
  = run_callbacks (spec_live_callbacks ops 0) w.
Proof.
  destruct (gate_run_list ops new_gate) as (Hl & Hs & Hc).
  rewrite close_open by (apply is_closed_open; rewrite Hs; reflexivity).
  simpl. rewrite Hl. simpl. rewrite for_each_run_callbacks. auto.
Qed.

End Firing.

Section FiringOrder.
Import Hook Gate AbortSource.

(** C5: for every history of subscriptions and handle destructions on a
    fresh abort_source (or on the close-signal list of a fresh gate),
    request_abort() (or close()) returns normally and has, on return,
    transformed the state exactly as running once each, in subscription
    order, the callbacks whose handle was not destroyed does.  With
    callbacks that log the serial number of their handle, the log after
    firing lists the live handles in increasing order and without
    repetition; the handle created by a given subscribe is in it exactly
    when no later operation of the history destroyed it. *)
Theorem firing_runs_live_callbacks_once_in_order (W : Type) (ops : list (handle_op W)) (w : W) :
  (fst (fst (request_abort (subscription_run ops new_abort_source) w)) = Ok tt /\
   abort_requested (snd (fst (request_abort (subscription_run ops new_abort_source) w))) = true /\
   snd (request_abort (subscription_run ops new_abort_source) w)
   = run_callbacks (spec_live_callbacks ops 0) w) /\
  (fst (fst (close (gate_run (List.map of_handle_op ops) new_gate) w)) = Ok tt /\
   snd (close (gate_run (List.map of_handle_op ops) new_gate) w)
   = run_callbacks (spec_live_callbacks ops 0) w) /\
  (snd (request_abort (subscription_run (logging ops 0) new_abort_source) [])
   = spec_live_handles ops 0 /\
   snd (close (gate_run (List.map of_handle_op (logging ops 0)) new_gate) [])
   = spec_live_handles ops 0) /\
  StronglySorted lt (spec_live_handles ops 0) /\
  (forall pre f post, ops = pre ++ h_subscribe f :: post ->
     (List.In (subscriptions_in pre) (spec_live_handles ops 0)
      <-> destroyed (subscriptions_in pre) post = false)).
Proof.
  split; [|split; [|split; [|split]]].
  - rewrite request_abort_after. simpl. auto.
  - apply close_after.
  - split.
    + rewrite request_abort_after. cbn [snd].
      rewrite spec_live_callbacks_logging. apply (run_logging_callbacks _ []).
    + destruct (close_after (logging ops 0) []) as [_ ->].
      rewrite spec_live_callbacks_logging. apply (run_logging_callbacks _ []).
  - apply spec_live_handles_sorted.
  - intros pre f post ->. apply (spec_live_handles_member pre f post 0%nat).
Qed.

(* Three subscriptions, the second handle destroyed before firing: the
   first and the third callback run, in that order. *)
Lemma firing_runs_live_callbacks_once_in_order_witness :
  let ops : list (handle_op (list nat)) :=
    [h_subscribe (fun log => log ++ [10%nat]); h_subscribe (fun log => log ++ [20%nat]);
     h_destroy 1; h_subscribe (fun log => log ++ [30%nat])] in
  snd (request_abort (subscription_run ops new_abort_source) []) = [10%nat; 30%nat] /\
  snd (close (gate_run (List.map of_handle_op ops) new_gate) []) = [10%nat; 30%nat] /\
  (List.In 1%nat (spec_live_handles ops 0) <-> destroyed 1 [h_destroy 1; List.last ops (h_destroy 0)] = false).
Proof.
  cbn zeta.
  destruct (firing_runs_live_callbacks_once_in_order (list nat)
              [h_subscribe (fun log => log ++ [10%nat]); h_subscribe (fun log => log ++ [20%nat]);
               h_destroy 1; h_subscribe (fun log => log ++ [30%nat])] [])
    as ((_ & _ & Ha) & (_ & Hg) & _ & _ & Hm).
  split; [rewrite Ha; reflexivity|]. split; [rewrite Hg; reflexivity|].
  apply (Hm [h_subscribe (fun log => log ++ [10%nat])] (fun log => log ++ [20%nat])).
  reflexivity.
Defined.

End FiringOrder.

Section Preconditions.
Import Hook Gate AbortSource.

(** C8 (as amended): a second close() on a gate fails the assertion of
    close() and changes nothing; it is never a normal return.
    subscribe() on an abort_source that has fired is not tested by the
    code: the constructor of the subscription goes through the disengaged
    optional, which is undefined behaviour, neither an assertion failure
    nor a defined normal return. *)
Theorem close_twice_asserts_subscribe_after_abort_unchecked
    (W : Type) (g0 : gate W) (a : abort_source W) (w0 w1 : W) (f : W -> W) :
  (is_closed g0 = true ->
   close g0 w0
   = (AssertFail "seastar::gate::close() cannot be called more than once", g0, w0)) /\
  (is_closed g0 = false ->
   fst (fst (close g0 w0)) = Ok tt /\
   fst (fst (close (snd (fst (close g0 w0))) w1))
   = AssertFail "seastar::gate::close() cannot be called more than once") /\
  (abort_requested a = true -> subscribe f a = (Undefined, a)) /\
  (abort_requested a = false ->
   fst (fst (request_abort a w0)) = Ok tt /\
   abort_requested (snd (fst (request_abort a w0))) = true /\
   fst (subscribe f (snd (fst (request_abort a w0)))) = Undefined).
Proof.
  split; [|split; [|split]].
  - intros Hc. apply is_closed_stopped in Hc as [p Hp]. unfold close. rewrite Hp. reflexivity.
  - intros Ho. rewrite (close_open g0 w0 Ho). cbn [fst snd]. split; [reflexivity|].
    unfold close. reflexivity.
  - unfold abort_requested, subscribe. destruct (_subscriptions a); [discriminate|reflexivity].
  - unfold abort_requested, request_abort, subscribe.
    destruct (_subscriptions a); [|discriminate]. intros _. simpl. auto.
Qed.

(* A gate closed twice, and an abort_source subscribed to after it fired. *)
Lemma close_twice_asserts_subscribe_after_abort_unchecked_witness :
  let g1 : gate unit := snd (fst (close new_gate tt)) in
  let a1 : abort_source unit := snd (fst (request_abort new_abort_source tt)) in
  is_closed g1 = true /\
  abort_requested a1 = true /\
  fst (fst (close g1 tt)) = AssertFail "seastar::gate::close() cannot be called more than once" /\
  fst (subscribe (fun u => u) a1) = Undefined.
Proof.
  cbn zeta.
  destruct (close_twice_asserts_subscribe_after_abort_unchecked unit
              (snd (fst (close new_gate tt)))
              (snd (fst (request_abort new_abort_source tt))) tt tt (fun u => u))
    as (Hclose & _ & Hsub & _).
  split; [reflexivity|]. split; [reflexivity|].
  rewrite (Hclose eq_refl), (Hsub eq_refl). split; reflexivity.
Defined.

(** C8 as stated fails on the code: subscribing to an abort_source that
    has fired does not take an assertion path. *)
Lemma subscribe_after_abort_is_not_asserted :
  let a1 : abort_source unit := snd (fst (request_abort new_abort_source tt)) in
  abort_requested a1 = true /\
  ~ (exists msg, fst (subscribe (fun u => u) a1) = AssertFail msg).
Proof.
  cbn zeta. split; [reflexivity|]. intros [msg Hmsg]. vm_compute in Hmsg. discriminate.
Qed.

End Preconditions.

(** ** sleep_abortable against a gate *)

Section SleepFacts.
Import Hook Gate Sleep.

(* What the close listener of call [j] does to a sleeper. *)
Lemma close_listener_sleepers j (w0 : world) i :
  finished (close_listener j w0) = finished w0 /\
  sleepers (close_listener j w0) !! i
  = match sleepers w0 !! i with
    | Some s =>
        if decide (i = j)
        then Some (if armed (tmr s)
                   then {| done := set_exception sleep_aborted (done s);
                           tmr := {| armed := false |}; st := st s |}
                   else s)
        else Some s
    | None => None
    end.
Proof.
  unfold close_listener.
  destruct (sleepers w0 !! j) as [sj|] eqn:Ej.
  - unfold cancel.
    assert (Hfin : forall b : bool,
              finished (if b
                        then set_sleeper j {| done := set_exception sleep_aborted (done sj);
                                              tmr := {| armed := false |}; st := st sj |} w0
                        else set_sleeper j {| done := done sj; tmr := {| armed := false |};
                                              st := st sj |} w0) = finished w0)
      by (intros []; reflexivity).
    split; [apply Hfin|].
    destruct (decide (i = j)) as [->|Hne].
    + rewrite Ej. destruct sj as [d [[|]] h]; simpl; rewrite lookup_insert_eq; reflexivity.
    + destruct (armed (tmr sj)); simpl; rewrite lookup_insert_ne by congruence;
        destruct (sleepers w0 !! i); reflexivity.
  - split; [reflexivity|].
    destruct (decide (i = j)) as [->|Hne].
    + rewrite Ej. reflexivity.
    + destruct (sleepers w0 !! i); reflexivity.
Qed.

(* Running the targets of a list of close listeners: sleepers neither
   appear nor vanish, the settled ones are left alone, and a waiting one
   whose listener is in the list ends cancelled and aborted. *)
Lemma for_each_close_listeners (L : list (node world)) : forall w0 : world,
  List.Forall (fun nd => exists j, _target nd = close_listener j) L ->
  finished (for_each L w0) = finished w0 /\
  forall i,
    match sleepers w0 !! i with
    | None => sleepers (for_each L w0) !! i = None
    | Some s =>
        exists s', sleepers (for_each L w0) !! i = Some s' /\
          st s' = st s /\
          (armed (tmr s) = false -> s' = s) /\
          (armed (tmr s) = true ->
           (exists nd, List.In nd L /\ _target nd = close_listener i) ->
           armed (tmr s') = false /\ done s' = set_exception sleep_aborted (done s))
    end.
Proof.
  induction L as [|nd L IH]; intros w0 HL.
  - simpl. split; [reflexivity|]. intros i.
    destruct (sleepers w0 !! i) as [s|]; [|reflexivity].
    exists s. split; [reflexivity|]. split; [reflexivity|]. split; [auto|].
    intros _ (nd & [] & _).
  - inversion HL as [|? ? [j Hj] HL']; subst.
    unfold for_each in *. simpl fold_left.
    destruct (IH (_target nd w0) HL') as [Hfin Hall].
    split.
    { rewrite Hfin, Hj. apply (close_listener_sleepers j w0 0%nat). }
    intros i. specialize (Hall i).
    assert (Hstep : forall k, _target nd = close_listener k ->
              sleepers (_target nd w0) !! i
              = match sleepers w0 !! i with
                | Some s =>
                    if decide (i = k)
                    then Some (if armed (tmr s)
                               then {| done := set_exception sleep_aborted (done s);
                                       tmr := {| armed := false |}; st := st s |}
                               else s)
                    else Some s
                | None => None
                end).
    { intros k Hk. rewrite Hk. apply close_listener_sleepers. }
    destruct (sleepers w0 !! i) as [s|] eqn:Es.
    + pose proof (Hstep j Hj) as Hj1.
      destruct (decide (i = j)) as [->|Hne].
      * (* the head is the listener of this sleeper *)
        rewrite Hj1 in Hall. destruct Hall as (s' & Hs' & Hst & Hsame & _).
        exists s'. split; [exact Hs'|].
        destruct (armed (tmr s)) eqn:Ea; simpl in Hst, Hsame.
        -- split; [exact Hst|]. split; [discriminate|].
           intros _ _. rewrite (Hsame eq_refl). simpl. auto.
        -- split; [exact Hst|]. split; [intros _; apply Hsame, Ea|discriminate].
      * rewrite Hj1 in Hall. destruct Hall as (s' & Hs' & Hst & Hsame & Hab).
        exists s'. split; [exact Hs'|]. split; [exact Hst|]. split; [exact Hsame|].
        intros Ha (nd' & [->|Hin] & Htg).
        -- (* the witness is the head: it is the listener of [i] after all *)
           pose proof (Hstep i Htg) as Hi1. rewrite Hj1 in Hi1.
           destruct (decide (i = i)) as [_|]; [|congruence].
           rewrite Ha in Hi1. inversion Hi1 as [Hs1].
           rewrite Hs1 in Ha. simpl in Ha. discriminate.
        -- apply Hab; eauto.
    + rewrite (Hstep j Hj) in Hall. exact Hall.
Qed.

Lemma invariant_boot : invariant boot.
Proof.
  constructor; simpl.
  - intros i s Hs. rewrite lookup_empty in Hs. discriminate.
  - intros i Hi. lia.
  - intros i p Hp. rewrite lookup_empty in Hp. discriminate.
  - constructor.
  - intros i j si sj Hs. rewrite lookup_empty in Hs. discriminate.
Qed.

Lemma sleep_abortable_invariant dur sys :
  invariant sys -> invariant (snd (sleep_abortable dur sys)).
Proof.
  intros [Halive Hgone Hfin Hlis Hhand]. unfold sleep_abortable.
  destruct (is_closed (g sys)) eqn:Hclosed; cbn [snd].
  - (* closed gate: a ready future, no sleeper *)
    constructor; cbn [g w next_call sleepers finished].
    + intros i s Hs. destruct (Halive i s Hs) as (Hlt & Hf & Hst & Hcase).
      split; [lia|]. split; [rewrite lookup_insert_ne by lia; exact Hf|].
      split; [exact Hst|].
      destruct Hcase as [(_ & _ & Hab & _)|Hsettled]; [discriminate|right; exact Hsettled].
    + intros i Hi Hs. destruct (decide (i = next_call sys)) as [->|Hne].
      * rewrite lookup_insert_eq. eexists. split; [reflexivity|right; reflexivity].
      * rewrite lookup_insert_ne by congruence. apply Hgone; [lia|exact Hs].
    + intros i p Hp. destruct (decide (i = next_call sys)) as [->|Hne]; [lia|].
      rewrite lookup_insert_ne in Hp by congruence. apply Hfin in Hp. lia.
    + exact Hlis.
    + exact Hhand.
  - (* open gate: a sleeper is constructed and its timer armed *)
    assert (Hfresh : sleepers (w sys) !! next_call sys = None).
    { destruct (sleepers (w sys) !! next_call sys) as [s|] eqn:Es; [|reflexivity].
      destruct (Halive _ _ Es) as (Hlt & _). lia. }
    unfold signal_on_close. cbn [snd].
    constructor; cbn [g w next_call sleepers finished set_sleeper _to_signal next_hook].
    + intros i s Hs. destruct (decide (i = next_call sys)) as [->|Hne].
      * rewrite lookup_insert_eq in Hs. inversion Hs; subst s; clear Hs. cbn [st tmr done].
        split; [lia|]. split.
        { destruct (finished (w sys) !! next_call sys) as [p|] eqn:Ef; [|reflexivity].
          apply Hfin in Ef. lia. }
        split; [lia|]. left. split; [reflexivity|]. split; [reflexivity|].
        split; [exact Hclosed|]. unfold push_back. apply in_or_app. right. left. reflexivity.
      * rewrite lookup_insert_ne in Hs by congruence.
        destruct (Halive i s Hs) as (Hlt & Hf & Hst & Hcase).
        split; [lia|]. split; [exact Hf|]. split; [lia|].
        destruct Hcase as [(Ha & Hd & Ho & Hin)|Hsettled]; [left|right; exact Hsettled].
        split; [exact Ha|]. split; [exact Hd|]. split; [exact Hclosed|].
        unfold push_back. apply in_or_app. left. exact Hin.
    + intros i Hi Hs. destruct (decide (i = next_call sys)) as [->|Hne].
      * rewrite lookup_insert_eq in Hs. discriminate.
      * rewrite lookup_insert_ne in Hs by congruence. apply Hgone; [lia|exact Hs].
    + intros i p Hp. apply Hfin in Hp. lia.
    + unfold push_back. apply List.Forall_app. split; [exact Hlis|].
      constructor; [|constructor]. cbn [_target]. eauto.
    + intros i j si sj Hi Hj Hst.
      destruct (decide (i = next_call sys)) as [->|Hni];
        destruct (decide (j = next_call sys)) as [->|Hnj]; [reflexivity| | |].
      * rewrite lookup_insert_eq in Hi. rewrite lookup_insert_ne in Hj by congruence.
        inversion Hi; subst si. cbn [st] in Hst.
        destruct (Halive j sj Hj) as (_ & _ & Hlt & _). lia.
      * rewrite lookup_insert_eq in Hj. rewrite lookup_insert_ne in Hi by congruence.
        inversion Hj; subst sj. cbn [st] in Hst.
        destruct (Halive i si Hi) as (_ & _ & Hlt & _). lia.
      * rewrite lookup_insert_ne in Hi, Hj by congruence. eapply Hhand; eauto.
Qed.

(* Changing the count or resolving the drain promise of the gate does not
   disturb the sleepers. *)
Lemma invariant_gate sys (g' : gate world) :
  is_closed g' = is_closed (g sys) ->
  _to_signal g' = _to_signal (g sys) ->
  next_hook g' = next_hook (g sys) ->
  invariant sys ->
  invariant {| g := g'; w := w sys; next_call := next_call sys |}.
Proof.
  intros Hc Hl Hn [Halive Hgone Hfin Hlis Hhand].
  constructor; cbn [g w next_call]; try assumption.
  - intros i s Hs. rewrite Hc, Hl, Hn. apply Halive, Hs.
  - rewrite Hl. exact Hlis.
Qed.

Lemma enter_keeps (g0 : gate world) :
  is_closed (snd (enter g0)) = is_closed g0 /\
  _to_signal (snd (enter g0)) = _to_signal g0 /\
  next_hook (snd (enter g0)) = next_hook g0.
Proof.
  unfold enter, is_closed.
  destruct (_stopped g0) eqn:E; simpl; rewrite ?E; repeat split; reflexivity.
Qed.

Lemma leave_keeps (g0 : gate world) :
  is_closed (leave g0) = is_closed g0 /\
  _to_signal (leave g0) = _to_signal g0 /\
  next_hook (leave g0) = next_hook g0.
Proof.
  unfold leave, is_closed. cbn [set_count _stopped _count].
  destruct (_stopped g0) eqn:E; [|simpl; rewrite ?E; repeat split; reflexivity].
  destruct (u64 (_count g0 - 1) =? 0); simpl; rewrite ?E; repeat split; reflexivity.
Qed.

(* A sleeper settles: its timer is disarmed and [done] resolved once. *)
Lemma invariant_settle sys i s s_new (w' : world) :
  invariant sys ->
  sleepers (w sys) !! i = Some s ->
  st s_new = st s ->
  armed (tmr s_new) = false ->
  resolved_once (done s_new) ->
  finished w' = finished (w sys) ->
  (forall j, sleepers w' !! j = if decide (j = i) then Some s_new else sleepers (w sys) !! j) ->
  invariant {| g := g sys; w := w'; next_call := next_call sys |}.
Proof.
  intros [Halive Hgone Hfin Hlis Hhand] Hs Hst Harm Hres Hf Hlook.
  constructor; cbn [g w next_call].
  - intros j sj Hj. rewrite Hlook in Hj. rewrite Hf.
    destruct (decide (j = i)) as [->|Hne].
    + inversion Hj; subst sj. destruct (Halive i s Hs) as (Hlt & Hfi & Hh & _).
      split; [exact Hlt|]. split; [exact Hfi|]. split; [rewrite Hst; exact Hh|].
      right. split; assumption.
    + apply Halive, Hj.
  - intros j Hj Hnone. rewrite Hlook in Hnone. rewrite Hf.
    destruct (decide (j = i)); [discriminate|]. apply Hgone; assumption.
  - intros j p. rewrite Hf. apply Hfin.
  - exact Hlis.
  - intros j k sj sk Hj Hk. rewrite Hlook in Hj, Hk.
    destruct (decide (j = i)) as [->|Hnj]; destruct (decide (k = i)) as [->|Hnk].
    + reflexivity.
    + inversion Hj; subst sj. rewrite Hst. intros E. apply (Hhand i k s sk Hs Hk E).
    + inversion Hk; subst sk. rewrite Hst. intros E. apply (Hhand j i sj s Hj Hs E).
    + apply Hhand; assumption.
Qed.

Lemma timer_invariant i sys sys' :
  invariant sys -> step sys (ev_timer i) = Some sys' -> invariant sys'.
Proof.
  intros Hinv Hstep. cbn [step] in Hstep.
  destruct (sleepers (w sys) !! i) as [s|] eqn:Es; [|inversion Hstep; subst; exact Hinv].
  unfold expire in Hstep. inversion Hstep; subst sys'; clear Hstep.
  destruct (inv_alive sys Hinv i s Es) as (_ & _ & _ & Hcase).
  destruct Hcase as [(Ha & Hd & Ho & _)|(Ha & Hres)]; rewrite Ha.
  - (* the timer fires: the gate is open, [done] gets its value *)
    eapply (invariant_settle sys i s
              {| done := set_value (done s); tmr := {| armed := false |}; st := st s |});
      try eassumption; try reflexivity.
    + cbn [done]. rewrite Hd. left. reflexivity.
    + unfold timer_callback. cbn [set_sleeper sleepers]. rewrite lookup_insert_eq, Ho.
      reflexivity.
    + intros j. unfold timer_callback. cbn [set_sleeper sleepers].
      rewrite lookup_insert_eq, Ho. cbn [negb set_sleeper sleepers done tmr st].
      destruct (decide (j = i)) as [->|Hne].
      * rewrite lookup_insert_eq. reflexivity.
      * rewrite !lookup_insert_ne by congruence. reflexivity.
  - (* nothing to fire *)
    eapply (invariant_settle sys i s {| done := done s; tmr := {| armed := false |}; st := st s |});
      try eassumption; try reflexivity.
    intros j. cbn [set_sleeper sleepers].
    destruct (decide (j = i)) as [->|Hne].
    + rewrite lookup_insert_eq. reflexivity.
    + rewrite lookup_insert_ne by congruence. reflexivity.
Qed.

Lemma close_invariant sys sys' :
  invariant sys -> step sys ev_close = Some sys' ->
  invariant sys' /\ is_closed (g sys') = true.
Proof.
  intros Hinv Hstep. cbn [step] in Hstep.
  destruct (is_closed (g sys)) eqn:Hclosed.
  { apply is_closed_stopped in Hclosed as [p Hp]. unfold close in Hstep.
    rewrite Hp in Hstep. discriminate. }
  rewrite (close_open _ _ Hclosed) in Hstep. inversion Hstep; subst sys'; clear Hstep.
  split; [|reflexivity].
  destruct Hinv as [Halive Hgone Hfin Hlis Hhand].
  destruct (for_each_close_listeners (_to_signal (g sys)) (w sys) Hlis) as [Hf Hall].
  assert (Hback : forall i s', sleepers (for_each (_to_signal (g sys)) (w sys)) !! i = Some s' ->
            exists s, sleepers (w sys) !! i = Some s /\ st s' = st s /\
                      armed (tmr s') = false /\ resolved_once (done s')).
  { intros i s' Hs'. specialize (Hall i).
    destruct (sleepers (w sys) !! i) as [s|] eqn:Es; [|congruence].
    destruct Hall as (s'' & Hs'' & Hst & Hsame & Hab).
    rewrite Hs' in Hs''. inversion Hs''; subst s''; clear Hs''.
    exists s. split; [reflexivity|]. split; [exact Hst|].
    destruct (Halive i s Es) as (_ & _ & _ & [(Ha & Hd & _ & Hin)|(Ha & Hres)]).
    - destruct (Hab Ha) as [Ha' Hd'].
      + eexists. split; [exact Hin|reflexivity].
      + split; [exact Ha'|]. rewrite Hd', Hd. right. reflexivity.
    - rewrite (Hsame Ha). split; assumption. }
  constructor; cbn [g w next_call set_stopped _to_signal next_hook].
  - intros i s' Hs'. destruct (Hback i s' Hs') as (s & Es & Hst & Ha & Hres).
    destruct (Halive i s Es) as (Hlt & Hfi & Hh & _).
    split; [exact Hlt|]. split; [rewrite Hf; exact Hfi|]. split; [rewrite Hst; exact Hh|].
    right. split; assumption.
  - intros i Hi Hnone. rewrite Hf. apply Hgone; [exact Hi|].
    specialize (Hall i). destruct (sleepers (w sys) !! i) as [s|]; [|reflexivity].
    destruct Hall as (s' & Hs' & _). congruence.
  - intros i p. rewrite Hf. apply Hfin.
  - exact Hlis.
  - intros i j si sj Hi Hj.
    destruct (Hback i si Hi) as (si0 & Ei & Hsti & _).
    destruct (Hback j sj Hj) as (sj0 & Ej & Hstj & _).
    rewrite Hsti, Hstj. apply (Hhand i j si0 sj0 Ei Ej).
Qed.

Lemma continue_invariant i sys sys' :
  invariant sys -> step sys (ev_continue i) = Some sys' -> invariant sys'.
Proof.
  intros Hinv Hstep. cbn [step] in Hstep.
  destruct (sleepers (w sys) !! i) as [s|] eqn:Es; [|inversion Hstep; subst; exact Hinv].
  destruct (available (done s)) eqn:Hav; [|inversion Hstep; subst; exact Hinv].
  inversion Hstep; subst sys'; clear Hstep.
  destruct Hinv as [Halive Hgone Hfin Hlis Hhand].
  destruct (Halive i s Es) as (Hlt & Hfi & Hh & Hcase).
  assert (Hres : resolved_once (done s)).
  { destruct Hcase as [(_ & Hd & _)|(_ & Hres)]; [|exact Hres].
    rewrite Hd in Hav. discriminate. }
  constructor; cbn [g w next_call sleepers finished].
  - intros j sj Hj. destruct (decide (j = i)) as [->|Hne].
    + rewrite lookup_delete_eq in Hj. discriminate.
    + rewrite lookup_delete_ne in Hj by congruence.
      rewrite lookup_insert_ne by congruence.
      destruct (Halive j sj Hj) as (Hltj & Hfj & Hhj & Hcj).
      split; [exact Hltj|]. split; [exact Hfj|]. split; [exact Hhj|].
      destruct Hcj as [(Ha & Hd & Ho & Hin)|Hsettled]; [left|right; exact Hsettled].
      split; [exact Ha|]. split; [exact Hd|]. split; [exact Ho|].
      unfold signal_target_destroy, set_to_signal, unlink. cbn [_to_signal].
      apply List.filter_In. split; [exact Hin|]. cbn [hook].
      apply negb_true_iff, Nat.eqb_neq. intros E.
      apply Hne. apply (Hhand j i sj s Hj Es E).
  - intros j Hj Hnone. destruct (decide (j = i)) as [->|Hne].
    + rewrite lookup_insert_eq. eauto.
    + rewrite lookup_delete_ne in Hnone by congruence.
      rewrite lookup_insert_ne by congruence. apply Hgone; assumption.
  - intros j p Hp. destruct (decide (j = i)) as [->|Hne]; [exact Hlt|].
    rewrite lookup_insert_ne in Hp by congruence. apply (Hfin j p Hp).
  - unfold signal_target_destroy, set_to_signal, unlink. cbn [_to_signal].
    apply List.Forall_forall. intros nd Hin. apply List.filter_In in Hin as [Hin _].
    rewrite List.Forall_forall in Hlis. apply Hlis, Hin.
  - intros j k sj sk Hj Hk.
    destruct (decide (j = i)) as [->|Hnj]; [rewrite lookup_delete_eq in Hj; discriminate|].
    destruct (decide (k = i)) as [->|Hnk]; [rewrite lookup_delete_eq in Hk; discriminate|].
    rewrite lookup_delete_ne in Hj, Hk by congruence. apply Hhand; assumption.
Qed.

Lemma step_invariant sys ev sys' :
  invariant sys -> step sys ev = Some sys' -> invariant sys'.
Proof.
  intros Hinv Hstep. destruct ev as [dur|i| |i| |].
  - cbn [step] in Hstep. inversion Hstep; subst. apply sleep_abortable_invariant, Hinv.
  - eapply timer_invariant; eauto.
  - eapply close_invariant; eauto.
  - eapply continue_invariant; eauto.
  - cbn [step] in Hstep. inversion Hstep; subst.
    destruct (enter_keeps (g sys)) as (? & ? & ?). apply invariant_gate; assumption.
  - cbn [step] in Hstep. inversion Hstep; subst.
    destruct (leave_keeps (g sys)) as (? & ? & ?). apply invariant_gate; assumption.
Qed.

Lemma run_invariant evs : forall sys sys',
  invariant sys -> run evs sys = Some sys' -> invariant sys'.
Proof.
  induction evs as [|ev evs IH]; intros sys sys' Hinv Hrun; simpl in Hrun.
  - inversion Hrun; subst. exact Hinv.
  - destruct (step sys ev) as [sys1|] eqn:Hstep; [|discriminate].
    eapply IH; [eapply step_invariant; eauto|exact Hrun].
Qed.

(* Once closed, the gate stays closed. *)
Lemma step_keeps_closed sys ev sys' :
  is_closed (g sys) = true -> step sys ev = Some sys' -> is_closed (g sys') = true.
Proof.
  intros Hc Hstep. destruct ev as [dur|i| |i| |]; cbn [step] in Hstep.
  - inversion Hstep; subst. unfold sleep_abortable. rewrite Hc. exact Hc.
  - destruct (sleepers (w sys) !! i); [unfold expire in Hstep|];
      inversion Hstep; subst; exact Hc.
  - apply is_closed_stopped in Hc as [p Hp]. unfold close in Hstep.
    rewrite Hp in Hstep. discriminate.
  - destruct (sleepers (w sys) !! i) as [s|]; [|inversion Hstep; subst; exact Hc].
    destruct (available (done s)); inversion Hstep; subst; exact Hc.
  - inversion Hstep; subst. cbn [g]. destruct (enter_keeps (g sys)) as [-> _]. exact Hc.
  - inversion Hstep; subst. cbn [g]. destruct (leave_keeps (g sys)) as [-> _]. exact Hc.
Qed.

Lemma run_keeps_closed evs : forall sys sys',
  is_closed (g sys) = true -> run evs sys = Some sys' -> is_closed (g sys') = true.
Proof.
  induction evs as [|ev evs IH]; intros sys sys' Hc Hrun; simpl in Hrun.
  - inversion Hrun; subst. exact Hc.
  - destruct (step sys ev) as [sys1|] eqn:Hstep; [|discriminate].
    eapply IH; [eapply step_keeps_closed; eauto|exact Hrun].
Qed.

Lemma run_closes evs : forall sys sys',
  invariant sys -> List.In ev_close evs -> run evs sys = Some sys' ->
  is_closed (g sys') = true.
Proof.
  induction evs as [|ev evs IH]; intros sys sys' Hinv Hin Hrun; [destruct Hin|].
  simpl in Hrun. destruct (step sys ev) as [sys1|] eqn:Hstep; [|discriminate].
  destruct Hin as [->|Hin].
  - destruct (close_invariant sys sys1 Hinv Hstep) as [_ Hc].
    eapply run_keeps_closed; eauto.
  - eapply IH; [eapply step_invariant; eauto|exact Hin|exact Hrun].
Qed.

(* In a state that satisfies the invariant, no future has two resolutions,
   and with the gate closed every future has one. *)
Lemma invariant_results sys i :
  invariant sys -> (i < next_call sys)%nat ->
  (length (result sys i) <= 1)%nat /\
  (is_closed (g sys) = true -> resolved_once (result sys i)).
Proof.
  intros [Halive Hgone Hfin Hlis Hhand] Hi. unfold result.
  destruct (sleepers (w sys) !! i) as [s|] eqn:Es.
  - destruct (Halive i s Es) as (_ & _ & _ & [(Ha & Hd & Ho & _)|(Ha & Hres)]).
    + rewrite Hd. simpl. split; [lia|]. intros Hc. congruence.
    + split; [|intros _; exact Hres]. destruct Hres as [->| ->]; simpl; lia.
  - destruct (Hgone i Hi Es) as (p & Hp & Hres). rewrite Hp. simpl.
    split; [|intros _; exact Hres]. destruct Hres as [->| ->]; simpl; lia.
Qed.

End SleepFacts.

Section TimedWait.
Import Hook Gate Sleep.

(** C6: in every run of a program that sleeps against one gate, whatever
    the order in which calls of sleep_abortable, timer expiries, close(),
    continuations and enter()/leave() calls happen, the future of no call
    ever has more than one resolution; and once close() has been called,
    the future of every call made so far (before the close or after it)
    has exactly one, which is its value (the timer fired first) or
    sleep_aborted (the gate closed first). *)
Theorem timed_wait_resolved_exactly_once evs sys :
  run evs boot = Some sys ->
  (forall i, (i < next_call sys)%nat -> (length (result sys i) <= 1)%nat) /\
  (List.In ev_close evs ->
   is_closed (g sys) = true /\
   forall i, (i < next_call sys)%nat -> resolved_once (result sys i)).
Proof.
  intros Hrun.
  pose proof (run_invariant evs boot sys invariant_boot Hrun) as Hinv.
  split.
  - intros i Hi. apply (invariant_results sys i Hinv Hi).
  - intros Hin.
    pose proof (run_closes evs boot sys invariant_boot Hin Hrun) as Hc.
    split; [exact Hc|]. intros i Hi. apply (invariant_results sys i Hinv Hi), Hc.
Qed.

(* Call 0 sleeps for 100 units, call 1 for one unit; the timer of call 1
   expires, then the gate is closed, then the reactor looks at the timer of
   call 0 and a third call is made.  Call 0 is aborted, call 1 keeps its
   value, call 2 is aborted at once. *)
Lemma timed_wait_resolved_exactly_once_witness :
  let evs := [ev_sleep 100; ev_sleep 1; ev_timer 1; ev_close; ev_timer 0; ev_sleep 5] in
  exists sys,
    run evs boot = Some sys /\
    next_call sys = 3%nat /\
    resolved_once (result sys 0) /\
    resolved_once (result sys 1) /\
    resolved_once (result sys 2) /\
    result sys 0 = [resolved_exception sleep_aborted] /\
    result sys 1 = [resolved_value] /\
    result sys 2 = [resolved_exception sleep_aborted].
Proof.
  cbn zeta.
  destruct (run [ev_sleep 100; ev_sleep 1; ev_timer 1; ev_close; ev_timer 0; ev_sleep 5] boot)
    as [sys|] eqn:Hrun; [|vm_compute in Hrun; discriminate].
  exists sys. split; [reflexivity|].
  destruct (timed_wait_resolved_exactly_once _ _ Hrun) as [_ Hclose].
  destruct Hclose as [_ Hall]; [simpl; tauto|].
  vm_compute in Hrun. inversion Hrun; subst sys; clear Hrun.
  split; [reflexivity|].
  split; [apply Hall; vm_compute; lia|].
  split; [apply Hall; vm_compute; lia|].
  split; [apply Hall; vm_compute; lia|].
  repeat split; vm_compute; reflexivity.
Defined.

End TimedWait.

(** ** More on the ring: slots, published indices, teardown *)

Section RingBits.

Lemma land_mask_range x m : 0 <= m -> 0 <= Z.land x m <= m.
Proof.
  intros Hm. apply Z.ldiff_le; [exact Hm|].
  apply Z.bits_inj'. intros n Hn.
  rewrite Z.ldiff_spec, Z.land_spec, Z.bits_0.
  destruct (Z.testbit x n), (Z.testbit m n); reflexivity.
Qed.

Lemma land_pow2_mask x k : 0 <= k -> Z.land x (2 ^ k - 1) = x mod 2 ^ k.
Proof.
  intros Hk. rewrite <- Z.land_ones by exact Hk.
  unfold Z.ones. rewrite Z.shiftl_1_l, Z.sub_1_r. reflexivity.
Qed.

Lemma u32_mod_pow2 x k : 0 <= k <= 32 -> u32 x mod 2 ^ k = x mod 2 ^ k.
Proof.
  intros Hk. unfold u32. apply Z.mod_mod_divide.
  exists (2 ^ (32 - k)). rewrite <- Z.pow_add_r by lia. f_equal. lia.
Qed.

(* Two offsets less than a modulus apart that agree modulo it are equal. *)
Lemma mod_offsets_inj t i j m :
  0 < m -> 0 <= i < m -> 0 <= j < m -> (t + i) mod m = (t + j) mod m -> i = j.
Proof.
  intros Hm Hi Hj E.
  pose proof (Z.div_mod (t + i) m ltac:(lia)) as Di.
  pose proof (Z.div_mod (t + j) m ltac:(lia)) as Dj.
  rewrite E in Di.
  assert (Hq : m * ((t + i) / m - (t + j) / m) = i - j) by lia.
  assert (Hz : (t + i) / m - (t + j) / m = 0) by nia.
  rewrite Hz in Hq. lia.
Qed.

End RingBits.

Section RingLayout.
Import Uring.

(* Every field of the descriptor and the kernel state after a successful
   io_uring_queue_init, in terms of what the kernel answered. *)
Lemma queue_init_ok_fields entries ring flags k su r1 r2 r3 :
  let res := io_uring_queue_init entries ring flags k su r1 r2 r3 in
  let ring' := snd (fst res) in
  let p := su_params su in
  fst (fst res) = Ok tt ->
  (sq_head (sq ring') = sys_ret r1 + sqo_head (sq_off p) /\
   sq_tail (sq ring') = sys_ret r1 + sqo_tail (sq_off p) /\
   sq_ring_mask (sq ring') = load32 (mem k) (sys_ret r1 + sqo_ring_mask (sq_off p)) /\
   sq_index_array (sq ring') = sys_ret r1 + sqo_index_array (sq_off p) /\
   sq_sqes (sq ring') = sys_ret r2 /\
   sq_ring_size (sq ring') = sq_ring_bytes p /\
   cq_head (cq ring') = sys_ret r3 + cqo_head (cq_off p) /\
   cq_ring_size (cq ring') = cq_ring_bytes p) /\
  (mem (snd res) = mem k /\
   mappings (snd res) = [(sys_ret r3, cq_ring_bytes p); (sys_ret r2, sqes_bytes p);
                         (sys_ret r1, sq_ring_bytes p)] ++ mappings k /\
   0 < sq_ring_bytes p /\ 0 < sqes_bytes p /\ 0 < cq_ring_bytes p).
Proof.
  cbn zeta. unfold io_uring_queue_init.
  destruct (negb (Z.land flags SQPOLL =? 0)); [discriminate|].
  unfold throw_system_error_on at 1.
  destruct (su_ret su <? 0); [discriminate|].
  unfold io_uring_queue_mmap, throw_system_error_on. cbn zeta.
  destruct (sys_mmap k _ (su_ret su) IORING_OFF_SQ_RING r1) as [p1 k1] eqn:E1.
  cbn [sq with_sq set_sq_ring_size sq_ring_size] in E1.
  destruct (Z.eqb_spec p1 MAP_FAILED) as [|Hp1]; [discriminate|].
  destruct (sys_mmap k1 _ (su_ret su) IORING_OFF_SQES r2) as [p2 k2] eqn:E2.
  cbn [sq with_sq set_sq_sqes sq_sqes].
  destruct (Z.eqb_spec p2 MAP_FAILED) as [|Hp2]; [discriminate|].
  destruct (sys_mmap k2 _ (su_ret su) IORING_OFF_CQ_RING r3) as [p3 k3] eqn:E3.
  cbn [cq with_cq with_sq set_cq_ring_size cq_ring_size] in E3.
  destruct (Z.eqb_spec p3 MAP_FAILED) as [|Hp3]; [discriminate|].
  intros _.
  destruct (mmap_ok_inv _ _ _ _ _ _ _ E1 Hp1) as (-> & _ & Hn1 & M1 & Hm1).
  destruct (mmap_ok_inv _ _ _ _ _ _ _ E2 Hp2) as (-> & _ & Hn2 & M2 & Hm2).
  destruct (mmap_ok_inv _ _ _ _ _ _ _ E3 Hp3) as (-> & _ & Hn3 & M3 & Hm3).
  split.
  - simpl. rewrite Hm1. repeat split; reflexivity.
  - cbn [snd]. split; [congruence|]. split; [rewrite M3, M2, M1; reflexivity|].
    split; [exact Hn1|]. split; [exact Hn2|exact Hn3].
Qed.

Lemma is_mapped_in k p n a :
  List.In (p, n) (mappings k) -> p <= a < p + n -> is_mapped k a = true.
Proof.
  intros Hin Ha. unfold is_mapped. apply existsb_exists.
  exists (p, n). split; [exact Hin|]. simpl.
  apply andb_true_iff. split; [apply Z.leb_le|apply Z.ltb_lt]; lia.
Qed.

(* io_uring_get_sqe changes the slot tail and nothing else. *)
Lemma get_sqe_frame ring :
  snd (io_uring_get_sqe ring) = ring \/
  snd (io_uring_get_sqe ring) = with_sq (set_sqe_tail (u32 (sqe_tail (sq ring) + 1))) ring.
Proof.
  unfold io_uring_get_sqe. cbn zeta. destruct (_ >? _); [left|right]; reflexivity.
Qed.

(* The loop of io_uring_submit changes the slot head and nothing else. *)
Lemma publish_frame_sq fuel : forall s m t mask,
  fst (fst (publish fuel s m t mask))
  = set_sqe_head (sqe_head (fst (fst (publish fuel s m t mask)))) s.
Proof.
  induction fuel as [|fuel IH]; intros s m t mask; simpl.
  - destruct s; reflexivity.
  - destruct (sqe_head s <? sqe_tail s); [|destruct s; reflexivity].
    rewrite IH at 1. reflexivity.
Qed.

End RingLayout.

Section RingSlots.
Import Uring.

(** X1: io_uring_get_sqe changes nothing of the descriptor but the slot
    tail, and io_uring_submit nothing but the slot head and the pending
    flag: the pointers into the shared rings, the mask, the ring size, the
    completion side and ring_fd are what they were, whatever the kernel
    answers.  io_uring_submit never maps or unmaps memory. *)
Theorem get_sqe_and_submit_keep_descriptor ring k r :
  (exists t, snd (io_uring_get_sqe ring) = with_sq (set_sqe_tail t) ring) /\
  (exists h p, snd (fst (fst (io_uring_submit ring k r)))
               = with_sq (set_pending p) (with_sq (set_sqe_head h) ring)) /\
  mappings (snd (fst (io_uring_submit ring k r))) = mappings k.
Proof.
  split; [|split].
  - destruct (get_sqe_frame ring) as [-> | ->]; [|eauto].
    exists (sqe_tail (sq ring)). destruct ring as [[] ? ?]; reflexivity.
  - assert (Hpub : forall ring0 tail,
              exists h p, snd (fst (fst (io_uring_submit_publish ring0 k tail r)))
                          = with_sq (set_pending p) (with_sq (set_sqe_head h) ring0)).
    { intros ring0 tail. unfold io_uring_submit_publish. cbn zeta.
      pose proof (publish_frame_sq (publish_fuel (sq ring0)) (sq ring0) (mem k) tail
                    (sq_ring_mask (sq ring0))) as Hs.
      destruct (publish _ _ _ tail _) as [[s m] t]. cbn [fst] in Hs.
      set (h := sqe_head s) in Hs. clearbody h. subst s.
      destruct (negb (_ =? 0)).
      - rewrite do_enter_spec.
        destruct (sys_ret r <? 0); cbn [fst snd]; [exists h, true|exists h, false];
          destruct ring0 as [[] ? ?]; reflexivity.
      - cbn [fst snd]. exists h, (pending (sq ring0)).
        destruct ring0 as [[] ? ?]; reflexivity. }
    unfold io_uring_submit. cbn zeta.
    destruct (pending (sq ring)) eqn:Hp.
    + destruct (negb (_ =? 0)).
      * rewrite do_enter_spec.
        destruct (sys_ret r <? 0); cbn [fst snd];
          [exists (sqe_head (sq ring)), true|exists (sqe_head (sq ring)), false];
          destruct ring as [[] ? ?]; reflexivity.
      * destruct (Hpub (with_sq (set_pending false) ring)
                       (load32 (mem k) (sq_tail (sq ring)))) as (h & p & ->).
        exists h, p. destruct ring as [[] ? ?]; reflexivity.
    + apply Hpub.
  - unfold io_uring_submit, io_uring_submit_publish. cbn zeta.
    destruct (pending (sq ring)).
    + destruct (negb (_ =? 0)).
      * rewrite do_enter_spec. destruct (sys_ret r <? 0); reflexivity.
      * destruct (publish _ _ _ _ _) as [[s m] t].
        destruct (negb (_ =? 0)); [rewrite do_enter_spec; destruct (sys_ret r <? 0)|];
          reflexivity.
    + destruct (publish _ _ _ _ _) as [[s m] t].
      destruct (negb (_ =? 0)); [rewrite do_enter_spec; destruct (sys_ret r <? 0)|];
        reflexivity.
Qed.

(** X2: on a ring set up by a successful io_uring_queue_init for which the
    kernel reported the mask sq_entries - 1, every slot io_uring_get_sqe
    hands out, at any later state of the slot cursors, starts at a multiple
    of 64 bytes inside the slot array and its 64 bytes are mapped. *)
Theorem get_sqe_slot_is_mapped entries ring0 flags k su r1 r2 r3 ring sqe :
  let res := io_uring_queue_init entries ring0 flags k su r1 r2 r3 in
  let p := su_params su in
  fst (fst res) = Ok tt ->
  sq_ring_mask (sq (snd (fst res))) = sq_entries p - 1 ->
  1 <= sq_entries p -> sq_entries p * 64 < 2 ^ 64 ->
  sq_sqes (sq ring) = sq_sqes (sq (snd (fst res))) ->
  sq_ring_mask (sq ring) = sq_ring_mask (sq (snd (fst res))) ->
  fst (io_uring_get_sqe ring) = Some sqe ->
  (exists i, 0 <= i < sq_entries p /\ sqe = sys_ret r2 + 64 * i) /\
  forall a, sqe <= a < sqe + 64 -> is_mapped (snd res) a = true.
Proof.
  cbn zeta. intros Hok Hmask He Hfit Hsqes Hm Hget.
  destruct (queue_init_ok_fields entries ring0 flags k su r1 r2 r3 Hok)
    as ((_ & _ & _ & _ & Hs & _) & (_ & Hmap & _)).
  unfold io_uring_get_sqe in Hget. cbn zeta in Hget.
  destruct (_ >? _); [discriminate|]. cbn [fst] in Hget. inversion Hget as [Hsqe]; clear Hget.
  rewrite Hsqes, Hs, Hm, Hmask. unfold sizeof_io_uring_sqe.
  pose proof (land_mask_range (sqe_tail (sq ring)) (sq_entries (su_params su) - 1)
                ltac:(lia)) as Hr.
  split.
  - eexists. split; [|reflexivity]. lia.
  - intros a Ha. apply (is_mapped_in _ (sys_ret r2) (sqes_bytes (su_params su))).
    + rewrite Hmap. simpl. auto.
    + unfold sqes_bytes, sizeof_io_uring_sqe. rewrite u64_small by lia. lia.
Qed.

(* The four-entry ring: two slots out, the third one is mapped. *)
Lemma get_sqe_slot_is_mapped_witness :
  let ring := snd (acquire_n 2 Example.ring0) in
  fst (io_uring_get_sqe ring) = Some 0x20080 /\
  is_mapped Example.kernel1 0x200bf = true.
Proof.
  cbn zeta. split; [reflexivity|].
  refine (proj2 (get_sqe_slot_is_mapped 4 Example.blank_ring 0 Example.kernel0 Example.setup_ok
                   (Example.ok_at Example.sq_ring_addr) (Example.ok_at Example.sqes_addr)
                   (Example.ok_at Example.cq_ring_addr)
                   (snd (acquire_n 2 Example.ring0)) 0x20080
                   _ _ _ _ _ _ _) 0x200bf _);
    try reflexivity; vm_compute; try discriminate; split; congruence.
Defined.

End RingSlots.

Section RingDistinctSlots.
Import Uring.

Lemma u32_add_mod_pow2 x i k :
  0 <= k <= 32 -> (u32 x + i) mod 2 ^ k = (x + i) mod 2 ^ k.
Proof.
  intros Hk. rewrite Z.add_mod by lia. rewrite u32_mod_pow2 by exact Hk.
  rewrite <- Z.add_mod by lia. reflexivity.
Qed.

(* The slots handed out by consecutive calls, one after the other. *)
Lemma acquire_n_slots n : forall ring k,
  0 <= k <= 32 ->
  sq_ring_mask (sq ring) = 2 ^ k - 1 ->
  unsubmitted ring + Z.of_nat n <= sq_ring_size (sq ring) ->
  sq_ring_size (sq ring) < 2 ^ 32 ->
  fst (acquire_n n ring)
  = List.map (fun i => Some (sq_sqes (sq ring)
                             + sizeof_io_uring_sqe * ((sqe_tail (sq ring) + Z.of_nat i) mod 2 ^ k)))
             (List.seq 0 n).
Proof.
  induction n as [|n IH]; intros ring k Hk Hmask Hle Hrs; [reflexivity|].
  simpl acquire_n.
  assert (Hd : unsubmitted ring < 2 ^ 32 - 1) by (pose proof (u32_range 0); lia).
  destruct (io_uring_get_sqe ring) as [sqe ring1] eqn:E.
  pose proof (proj2 (get_sqe_slot_iff ring Hd)) as Hsome. rewrite E in Hsome. cbn [fst] in Hsome.
  destruct sqe as [a|]; [|exfalso; apply Hsome; [lia|reflexivity]].
  destruct (get_sqe_advances _ _ _ E Hd) as (Hd1 & Hrs1 & _ & Ht1).
  assert (Hfields : sq_sqes (sq ring1) = sq_sqes (sq ring) /\
                    sq_ring_mask (sq ring1) = sq_ring_mask (sq ring) /\
                    a = sq_sqes (sq ring)
                        + sizeof_io_uring_sqe * Z.land (sqe_tail (sq ring)) (sq_ring_mask (sq ring))).
  { unfold io_uring_get_sqe in E. cbn zeta in E.
    destruct (_ >? _); inversion E; subst. repeat split; reflexivity. }
  destruct Hfields as (Hs1 & Hm1 & Ha).
  specialize (IH ring1 k Hk).
  destruct (acquire_n n ring1) as [rest ring2]. cbn [fst] in IH |- *.
  rewrite IH by (rewrite ?Hm1, ?Hd1, ?Hrs1; try assumption; lia).
  simpl List.seq. simpl List.map. f_equal.
  - rewrite Ha, Hmask, land_pow2_mask by lia. rewrite Z.add_0_r. reflexivity.
  - rewrite <- List.seq_shift, List.map_map. apply List.map_ext. intros i.
    rewrite Hs1, Ht1. f_equal. f_equal. f_equal.
    rewrite u32_add_mod_pow2 by exact Hk. f_equal. lia.
Qed.

(** X3: on a ring whose mask is 2^k - 1, consecutive io_uring_get_sqe
    calls that stay within the mask + 1 slots of the array and within
    ring_size hand out the slots that follow the slot tail cyclically, and
    no slot twice. *)
Theorem acquire_n_distinct_slots n ring k :
  0 <= k <= 32 ->
  sq_ring_mask (sq ring) = 2 ^ k - 1 ->
  Z.of_nat n <= 2 ^ k ->
  unsubmitted ring + Z.of_nat n <= sq_ring_size (sq ring) ->
  sq_ring_size (sq ring) < 2 ^ 32 ->
  fst (acquire_n n ring)
  = List.map (fun i => Some (sq_sqes (sq ring)
                             + sizeof_io_uring_sqe * ((sqe_tail (sq ring) + Z.of_nat i) mod 2 ^ k)))
             (List.seq 0 n) /\
  List.NoDup (fst (acquire_n n ring)).
Proof.
  intros Hk Hmask Hn Hle Hrs.
  rewrite (acquire_n_slots n ring k Hk Hmask Hle Hrs).
  split; [reflexivity|].
  apply List.NoDup_map_NoDup_ForallPairs; [|apply List.seq_NoDup].
  intros i j Hi Hj Heq.
  apply List.in_seq in Hi. apply List.in_seq in Hj.
  inversion Heq as [Hz]. unfold sizeof_io_uring_sqe in Hz.
  assert (Hm : (sqe_tail (sq ring) + Z.of_nat i) mod 2 ^ k
               = (sqe_tail (sq ring) + Z.of_nat j) mod 2 ^ k) by lia.
  apply mod_offsets_inj in Hm; lia.
Qed.

(* The four slots of the example ring, starting from a tail of two. *)
Lemma acquire_n_distinct_slots_witness :
  let ring := with_sq (set_sqe_head 2) (with_sq (set_sqe_tail 2) Example.ring0) in
  fst (acquire_n 4 ring) = [Some 0x20080; Some 0x200c0; Some 0x20000; Some 0x20040] /\
  List.NoDup (fst (acquire_n 4 ring)).
Proof.
  cbn zeta.
  assert (H1 : 0 <= 2 <= 32) by lia.
  assert (H2 : sq_ring_mask (sq (with_sq (set_sqe_head 2) (with_sq (set_sqe_tail 2) Example.ring0)))
               = 2 ^ 2 - 1) by reflexivity.
  assert (H3 : Z.of_nat 4 <= 2 ^ 2) by (vm_compute; discriminate).
  assert (H4 : unsubmitted (with_sq (set_sqe_head 2) (with_sq (set_sqe_tail 2) Example.ring0))
               + Z.of_nat 4
               <= sq_ring_size (sq (with_sq (set_sqe_head 2)
                                      (with_sq (set_sqe_tail 2) Example.ring0))))
    by (vm_compute; discriminate).
  assert (H5 : sq_ring_size (sq (with_sq (set_sqe_head 2) (with_sq (set_sqe_tail 2) Example.ring0)))
               < 2 ^ 32) by (vm_compute; reflexivity).
  destruct (acquire_n_distinct_slots 4
              (with_sq (set_sqe_head 2) (with_sq (set_sqe_tail 2) Example.ring0)) 2
              H1 H2 H3 H4 H5) as [Hl Hnd].
  split; [reflexivity|exact Hnd].
Defined.

End RingDistinctSlots.

Section RingPublish.
Import Uring.

Lemma load32_store32 m a v a' :
  load32 (store32 m a v) a' = if decide (a' = a) then v else load32 m a'.
Proof.
  unfold load32, store32. destruct (decide (a' = a)) as [->|Hne].
  - rewrite lookup_insert_eq. reflexivity.
  - rewrite lookup_insert_ne by congruence. reflexivity.
Qed.

(* The loop leaves alone every word that is not an entry of the index array. *)
Lemma publish_mem_frame fuel : forall s m t mask a,
  0 <= mask ->
  (forall j, 0 <= j <= mask -> a <> sq_index_array s + sizeof_uint32_t * j) ->
  load32 (snd (fst (publish fuel s m t mask))) a = load32 m a.
Proof.
  induction fuel as [|fuel IH]; intros s m t mask a Hm Ha; simpl; [reflexivity|].
  destruct (sqe_head s <? sqe_tail s); [|reflexivity].
  rewrite IH by (try exact Hm; exact Ha).
  rewrite load32_store32. destruct (decide _) as [E|]; [|reflexivity].
  exfalso. apply (Ha (Z.land t mask)); [apply land_mask_range, Hm|exact E].
Qed.

(* The loop leaves alone every word it does not write in one of its
   [fuel] rounds. *)
Lemma publish_mem_frame_rounds fuel : forall s m t mask a,
  0 <= t < 2 ^ 32 ->
  (forall j, (j < fuel)%nat ->
             a <> sq_index_array s + sizeof_uint32_t * Z.land (u32 (t + Z.of_nat j)) mask) ->
  load32 (snd (fst (publish fuel s m t mask))) a = load32 m a.
Proof.
  induction fuel as [|fuel IH]; intros s m t mask a Ht Ha; simpl; [reflexivity|].
  destruct (sqe_head s <? sqe_tail s); [|reflexivity].
  rewrite IH.
  - rewrite load32_store32. destruct (decide _) as [E|]; [|reflexivity].
    exfalso. apply (Ha 0%nat); [lia|].
    rewrite Z.add_0_r, u32_small by exact Ht. exact E.
  - apply u32_range.
  - intros j Hj. cbn [set_sqe_head sq_index_array]. rewrite u32_add_idemp.
    replace (t + 1 + Z.of_nat j) with (t + Z.of_nat (S j)) by lia.
    apply Ha. lia.
Qed.

(* What the loop leaves in the index array. *)
Lemma publish_mem_content fuel : forall s m t k i,
  0 <= k <= 32 ->
  0 <= sqe_head s -> sqe_tail s < 2 ^ 32 ->
  Z.of_nat fuel = sqe_tail s - sqe_head s ->
  Z.of_nat fuel <= 2 ^ k ->
  0 <= t < 2 ^ 32 ->
  0 <= i < Z.of_nat fuel ->
  load32 (snd (fst (publish fuel s m t (2 ^ k - 1))))
         (sq_index_array s + sizeof_uint32_t * ((t + i) mod 2 ^ k))
  = (sqe_head s + i) mod 2 ^ k.
Proof.
  induction fuel as [|fuel IH]; intros s m t k i Hk Hh Htl Hf Hle Ht Hi; [lia|].
  simpl publish.
  destruct (Z.ltb_spec (sqe_head s) (sqe_tail s)) as [Hlt|]; [|lia].
  assert (Hu : u32 (sqe_head s + 1) = sqe_head s + 1) by (apply u32_small; lia).
  assert (Hpos : 0 < 2 ^ k) by (apply Z.pow_pos_nonneg; lia).
  destruct (Z.eq_dec i 0) as [->|Hi0].
  - rewrite publish_mem_frame_rounds.
    + rewrite load32_store32, !land_pow2_mask, !Z.add_0_r by lia.
      destruct (decide _); [reflexivity|congruence].
    + apply u32_range.
    + intros j Hj. cbn [set_sqe_head sq_index_array].
      rewrite land_pow2_mask, u32_mod_pow2, u32_add_mod_pow2, Z.add_0_r by lia.
      unfold sizeof_uint32_t. intros E.
      assert (Em : (t + 0) mod 2 ^ k = (t + (1 + Z.of_nat j)) mod 2 ^ k)
        by (rewrite Z.add_0_r, Z.add_assoc; lia).
      apply mod_offsets_inj in Em; lia.
  - specialize (IH (set_sqe_head (u32 (sqe_head s + 1)) s)
                   (store32 m (sq_index_array s + sizeof_uint32_t * Z.land t (2 ^ k - 1))
                            (Z.land (sqe_head s) (2 ^ k - 1)))
                   (u32 (t + 1)) k (i - 1) Hk).
    cbn [set_sqe_head sqe_head sqe_tail sq_index_array] in IH. rewrite Hu in IH.
    rewrite u32_add_mod_pow2 in IH by exact Hk.
    replace (t + 1 + (i - 1)) with (t + i) in IH by lia.
    replace (sqe_head s + 1 + (i - 1)) with (sqe_head s + i) in IH by lia.
    rewrite Hu. apply IH; try lia. apply u32_range.
Qed.

(* What io_uring_submit leaves in a word of the shared memory. *)
Lemma submit_mem_frame ring k r a :
  0 <= sq_ring_mask (sq ring) ->
  a <> sq_tail (sq ring) ->
  (forall j, 0 <= j <= sq_ring_mask (sq ring) ->
             a <> sq_index_array (sq ring) + sizeof_uint32_t * j) ->
  load32 (mem (snd (fst (io_uring_submit ring k r)))) a = load32 (mem k) a.
Proof.
  intros Hm Htail Ha.
  assert (Hpub : forall ring0 tail,
            sq_ring_mask (sq ring0) = sq_ring_mask (sq ring) ->
            sq_index_array (sq ring0) = sq_index_array (sq ring) ->
            sq_tail (sq ring0) = sq_tail (sq ring) ->
            load32 (mem (snd (fst (io_uring_submit_publish ring0 k tail r)))) a
            = load32 (mem k) a).
  { intros ring0 tail Em Ei Et. unfold io_uring_submit_publish. cbn zeta.
    pose proof (publish_mem_frame (publish_fuel (sq ring0)) (sq ring0) (mem k) tail
                  (sq_ring_mask (sq ring0)) a) as Hf.
    pose proof (publish_frame_sq (publish_fuel (sq ring0)) (sq ring0) (mem k) tail
                  (sq_ring_mask (sq ring0))) as Hs.
    destruct (publish _ _ _ tail _) as [[s m] t]. cbn [fst snd] in Hf, Hs.
    set (h := sqe_head s) in Hs. clearbody h. subst s.
    rewrite <- Hf by (rewrite ?Em, ?Ei; assumption).
    destruct (negb (_ =? 0)).
    - rewrite do_enter_spec. destruct (sys_ret r <? 0); cbn [fst snd mem];
        rewrite load32_store32; cbn [with_sq sq set_sqe_head sq_tail];
        rewrite Et; destruct (decide _); congruence.
    - reflexivity. }
  unfold io_uring_submit. cbn zeta. destruct (pending (sq ring)).
  - destruct (negb (_ =? 0)).
    + rewrite do_enter_spec. destruct (sys_ret r <? 0); reflexivity.
    + apply Hpub; reflexivity.
  - apply Hpub; reflexivity.
Qed.

End RingPublish.

Section RingPublished.
Import Uring.

(** X4: io_uring_submit on a ring that is not pending, with n > 0 slots
    between the slot head and the slot tail (n at most the 2^k entries of
    the array, the mask being 2^k - 1), leaves in the shared memory, whatever
    the kernel answers to the enter call, the published tail advanced by n
    and, in the n entries of the index array that follow the old tail
    cyclically, the indices of the slots from the slot head on, in order:
    the indices of the slots io_uring_get_sqe handed out. *)
Theorem submit_publishes_slot_indices ring k r kk :
  pending (sq ring) = false ->
  0 <= kk <= 32 ->
  sq_ring_mask (sq ring) = 2 ^ kk - 1 ->
  0 <= sqe_head (sq ring) < sqe_tail (sq ring) ->
  sqe_tail (sq ring) < 2 ^ 32 ->
  sqe_tail (sq ring) - sqe_head (sq ring) <= 2 ^ kk ->
  0 <= load32 (mem k) (sq_tail (sq ring)) < 2 ^ 32 ->
  (forall j, 0 <= j < 2 ^ kk ->
             sq_tail (sq ring) <> sq_index_array (sq ring) + sizeof_uint32_t * j) ->
  let k' := snd (fst (io_uring_submit ring k r)) in
  let tail := load32 (mem k) (sq_tail (sq ring)) in
  load32 (mem k') (sq_tail (sq ring))
  = u32 (tail + (sqe_tail (sq ring) - sqe_head (sq ring))) /\
  forall i, 0 <= i < sqe_tail (sq ring) - sqe_head (sq ring) ->
    load32 (mem k') (sq_index_array (sq ring) + sizeof_uint32_t * ((tail + i) mod 2 ^ kk))
    = (sqe_head (sq ring) + i) mod 2 ^ kk.
Proof.
  intros Hp Hkk Hmask Hh Htl Hn Ht Hout. cbn zeta.
  unfold io_uring_submit. cbn zeta. rewrite Hp.
  unfold io_uring_submit_publish. cbn zeta.
  set (tail := load32 (mem k) (sq_tail (sq ring))) in *.
  assert (Hfuel : Z.of_nat (publish_fuel (sq ring)) = sqe_tail (sq ring) - sqe_head (sq ring))
    by (unfold publish_fuel; lia).
  pose proof (publish_spec (publish_fuel (sq ring)) (sq ring) (mem k) tail
                (sq_ring_mask (sq ring)) ltac:(lia) Htl Ht ltac:(lia)) as Hspec.
  assert (Hcontent : forall i, 0 <= i < sqe_tail (sq ring) - sqe_head (sq ring) ->
            load32 (snd (fst (publish (publish_fuel (sq ring)) (sq ring) (mem k) tail
                                (sq_ring_mask (sq ring)))))
                   (sq_index_array (sq ring) + sizeof_uint32_t * ((tail + i) mod 2 ^ kk))
            = (sqe_head (sq ring) + i) mod 2 ^ kk).
  { intros i Hi. rewrite Hmask.
    apply publish_mem_content; try assumption; lia. }
  destruct (publish _ _ _ tail _) as [[s m] t]. cbn [fst snd] in Hcontent.
  destruct Hspec as [-> ->]. rewrite Hfuel.
  assert (Hsub : u32 (u32 (tail + (sqe_tail (sq ring) - sqe_head (sq ring))) - tail)
                 = sqe_tail (sq ring) - sqe_head (sq ring)).
  { rewrite u32_sub_idemp.
    replace (tail + (sqe_tail (sq ring) - sqe_head (sq ring)) - tail)
      with (sqe_tail (sq ring) - sqe_head (sq ring)) by lia.
    apply u32_small. lia. }
  rewrite Hsub.
  replace (sqe_tail (sq ring) - sqe_head (sq ring) =? 0) with false
    by (symmetry; apply Z.eqb_neq; lia).
  cbn [negb]. rewrite do_enter_spec.
  assert (Hpos : 0 < 2 ^ kk) by (apply Z.pow_pos_nonneg; lia).
  destruct (sys_ret r <? 0); cbn [fst snd mem with_sq sq set_sqe_head sq_tail];
    (split;
     [rewrite load32_store32; destruct (decide _); [reflexivity|congruence]
     |intros i Hi; rewrite load32_store32;
      destruct (decide _) as [E|];
      [exfalso; apply (Hout ((tail + i) mod 2 ^ kk));
       [apply Z.mod_pos_bound; lia|symmetry; exact E]
      |apply Hcontent, Hi]]).
Qed.

(* Three slots acquired on the four-entry ring, then submitted. *)
Lemma submit_publishes_slot_indices_witness :
  let ring := snd (acquire_n 3 Example.ring0) in
  let k' := snd (fst (io_uring_submit ring Example.kernel1 (Example.ok_at 3))) in
  load32 (mem k') (sq_tail (sq ring)) = 3 /\
  load32 (mem k') (sq_index_array (sq ring) + 4 * 0) = 0 /\
  load32 (mem k') (sq_index_array (sq ring) + 4 * 1) = 1 /\
  load32 (mem k') (sq_index_array (sq ring) + 4 * 2) = 2.
Proof.
  cbn zeta.
  assert (H1 : pending (sq (snd (acquire_n 3 Example.ring0))) = false) by reflexivity.
  assert (H2 : 0 <= 2 <= 32) by lia.
  assert (H3 : sq_ring_mask (sq (snd (acquire_n 3 Example.ring0))) = 2 ^ 2 - 1) by reflexivity.
  assert (H4 : 0 <= sqe_head (sq (snd (acquire_n 3 Example.ring0)))
               < sqe_tail (sq (snd (acquire_n 3 Example.ring0))))
    by (vm_compute; split; [discriminate|reflexivity]).
  assert (H5 : sqe_tail (sq (snd (acquire_n 3 Example.ring0))) < 2 ^ 32)
    by (vm_compute; reflexivity).
  assert (H6 : sqe_tail (sq (snd (acquire_n 3 Example.ring0)))
               - sqe_head (sq (snd (acquire_n 3 Example.ring0))) <= 2 ^ 2)
    by (vm_compute; discriminate).
  assert (H7 : 0 <= load32 (mem Example.kernel1) (sq_tail (sq (snd (acquire_n 3 Example.ring0))))
               < 2 ^ 32)
    by (vm_compute; split; [discriminate|reflexivity]).
  assert (H8 : forall j, 0 <= j < 2 ^ 2 ->
               sq_tail (sq (snd (acquire_n 3 Example.ring0)))
               <> sq_index_array (sq (snd (acquire_n 3 Example.ring0))) + sizeof_uint32_t * j).
  { intros j Hj. change (sq_tail (sq (snd (acquire_n 3 Example.ring0)))) with 65600.
    change (sq_index_array (sq (snd (acquire_n 3 Example.ring0)))) with 65856.
    unfold sizeof_uint32_t. lia. }
  destruct (submit_publishes_slot_indices (snd (acquire_n 3 Example.ring0)) Example.kernel1
              (Example.ok_at 3) 2 H1 H2 H3 H4 H5 H6 H7 H8) as [Ht Hi].
  assert (Hr : forall i, 0 <= i < 3 ->
               0 <= i < sqe_tail (sq (snd (acquire_n 3 Example.ring0)))
                        - sqe_head (sq (snd (acquire_n 3 Example.ring0))))
    by (intros i Hr; exact Hr).
  split; [rewrite Ht; reflexivity|].
  split; [|split].
  - exact (Hi 0 (Hr 0 ltac:(lia))).
  - exact (Hi 1 (Hr 1 ltac:(lia))).
  - exact (Hi 2 (Hr 2 ltac:(lia))).
Defined.

End RingPublished.

Section RingWrites.
Import Uring.

(** X5: whatever the state of the ring and the kernel's answer,
    io_uring_submit leaves every word of the shared memory as it was except
    the published tail and the mask + 1 entries of the index array; in
    particular it never writes the head of the submission ring, which the
    kernel owns. *)
Theorem submit_writes_only_tail_and_index_array ring k r a :
  0 <= sq_ring_mask (sq ring) ->
  a <> sq_tail (sq ring) ->
  (forall j, 0 <= j <= sq_ring_mask (sq ring) ->
             a <> sq_index_array (sq ring) + sizeof_uint32_t * j) ->
  load32 (mem (snd (fst (io_uring_submit ring k r)))) a = load32 (mem k) a.
Proof. apply submit_mem_frame. Qed.

(* Three slots submitted on the example ring: the kernel's head word, the
   mask and the completion ring are as before. *)
Lemma submit_writes_only_tail_and_index_array_witness :
  let ring := snd (acquire_n 3 Example.ring0) in
  let k' := snd (fst (io_uring_submit ring Example.kernel1 (Example.ok_at 3))) in
  load32 (mem k') (sq_head (sq ring)) = load32 (mem Example.kernel1) (sq_head (sq ring)) /\
  load32 (mem k') (Example.sq_ring_addr + 256) = 3.
Proof.
  cbn zeta. split.
  - apply (submit_writes_only_tail_and_index_array (snd (acquire_n 3 Example.ring0))).
    + vm_compute. discriminate.
    + vm_compute. discriminate.
    + intros j Hj.
      change (sq_head (sq (snd (acquire_n 3 Example.ring0)))) with 65536.
      change (sq_index_array (sq (snd (acquire_n 3 Example.ring0)))) with 65856.
      change (sq_ring_mask (sq (snd (acquire_n 3 Example.ring0)))) with 3 in Hj.
      unfold sizeof_uint32_t. lia.
  - rewrite (submit_writes_only_tail_and_index_array (snd (acquire_n 3 Example.ring0))).
    + reflexivity.
    + vm_compute. discriminate.
    + vm_compute. discriminate.
    + intros j Hj.
      change (sq_index_array (sq (snd (acquire_n 3 Example.ring0)))) with 65856.
      change (sq_ring_mask (sq (snd (acquire_n 3 Example.ring0)))) with 3 in Hj.
      unfold Example.sq_ring_addr, sizeof_uint32_t. lia.
Defined.

(** X6: on a ring set up by a successful io_uring_queue_init, with the
    kernel reporting the mask sq_entries - 1 and a tail offset that lies in
    the submission ring, every word of the shared memory that a later
    io_uring_submit changes lies in the mapped submission ring: it is the
    published tail or an entry of the index array. *)
Theorem submit_writes_stay_mapped entries ring0 flags k0 su r1 r2 r3 ring k r a :
  let res := io_uring_queue_init entries ring0 flags k0 su r1 r2 r3 in
  let p := su_params su in
  fst (fst res) = Ok tt ->
  sq_ring_mask (sq (snd (fst res))) = sq_entries p - 1 ->
  1 <= sq_entries p ->
  0 <= sqo_index_array (sq_off p) ->
  sqo_index_array (sq_off p) + sq_entries p * 4 < 2 ^ 32 ->
  0 <= sqo_tail (sq_off p) ->
  sqo_tail (sq_off p) + 4 <= sqo_index_array (sq_off p) + sq_entries p * 4 ->
  sq_tail (sq ring) = sq_tail (sq (snd (fst res))) ->
  sq_index_array (sq ring) = sq_index_array (sq (snd (fst res))) ->
  sq_ring_mask (sq ring) = sq_ring_mask (sq (snd (fst res))) ->
  load32 (mem (snd (fst (io_uring_submit ring k r)))) a <> load32 (mem k) a ->
  (a = sq_tail (sq ring) \/
   exists j, 0 <= j < sq_entries p /\ a = sq_index_array (sq ring) + 4 * j) /\
  forall b, a <= b < a + 4 -> is_mapped (snd res) b = true.
Proof.
  cbn zeta. intros Hok Hmask He Hoff Hfit Ht0 Ht1 Etail Eia Em Hchanged.
  destruct (queue_init_ok_fields entries ring0 flags k0 su r1 r2 r3 Hok)
    as ((_ & Htail & _ & Hia & _) & (_ & Hmap & _)).
  assert (Hbytes : sq_ring_bytes (su_params su)
                   = sqo_index_array (sq_off (su_params su)) + sq_entries (su_params su) * 4).
  { unfold sq_ring_bytes, sizeof_uint32_t. apply u32_small. lia. }
  assert (Hin : List.In (sys_ret r1, sq_ring_bytes (su_params su))
                        (mappings (snd (io_uring_queue_init entries ring0 flags k0 su r1 r2 r3)))).
  { rewrite Hmap. simpl. auto. }
  assert (Hwhere : a = sq_tail (sq ring) \/
                   exists j, 0 <= j < sq_entries (su_params su)
                             /\ a = sq_index_array (sq ring) + 4 * j).
  { destruct (Z.eq_dec a (sq_tail (sq ring))) as [|Hnt]; [left; assumption|right].
    set (d := a - sq_index_array (sq ring)).
    destruct (Z_le_dec 0 d) as [Hd0|]; [|exfalso].
    - destruct (Z_le_dec d (4 * (sq_entries (su_params su) - 1))) as [Hd1|]; [|exfalso].
      + destruct (Z.eq_dec (d mod 4) 0) as [Hd4|Hn4]; [|exfalso].
        * exists (d / 4). pose proof (Z.div_mod d 4 ltac:(lia)). subst d. split; lia.
        * apply Hchanged, submit_mem_frame; [rewrite Em, Hmask; lia|exact Hnt|].
          intros j Hj E. subst d. unfold sizeof_uint32_t in E.
          replace (a - sq_index_array (sq ring)) with (j * 4) in Hn4 by lia.
          rewrite Z.mod_mul in Hn4 by lia. congruence.
      + apply Hchanged, submit_mem_frame; [rewrite Em, Hmask; lia|exact Hnt|].
        intros j Hj E. rewrite Em, Hmask in Hj. subst d. unfold sizeof_uint32_t in E. lia.
    - apply Hchanged, submit_mem_frame; [rewrite Em, Hmask; lia|exact Hnt|].
      intros j Hj E. subst d. unfold sizeof_uint32_t in E. lia. }
  split; [exact Hwhere|].
  intros b Hb. apply (is_mapped_in _ _ _ _ Hin). rewrite Hbytes.
  destruct Hwhere as [->|(j & Hj & ->)].
  - rewrite Etail, Htail in Hb. lia.
  - rewrite Eia, Hia in Hb. lia.
Qed.

(* The third index-array entry of the example ring is written by the
   submission of three slots, and is mapped. *)
Lemma submit_writes_stay_mapped_witness :
  let ring := snd (acquire_n 3 Example.ring0) in
  let k1 := {| mappings := mappings Example.kernel1;
               mem := store32 (mem Example.kernel1) 65864 9 |} in
  load32 (mem (snd (fst (io_uring_submit ring k1 (Example.ok_at 3))))) 65864 <> load32 (mem k1) 65864 /\
  is_mapped Example.kernel1 65867 = true.
Proof.
  cbn zeta.
  assert (Hne : load32 (mem (snd (fst (io_uring_submit (snd (acquire_n 3 Example.ring0))
                     {| mappings := mappings Example.kernel1;
                        mem := store32 (mem Example.kernel1) 65864 9 |} (Example.ok_at 3))))) 65864
                <> load32 (mem {| mappings := mappings Example.kernel1;
                                  mem := store32 (mem Example.kernel1) 65864 9 |}) 65864)
    by (vm_compute; discriminate).
  split; [exact Hne|].
  refine (proj2 (submit_writes_stay_mapped 4 Example.blank_ring 0 Example.kernel0 Example.setup_ok
                   (Example.ok_at Example.sq_ring_addr) (Example.ok_at Example.sqes_addr)
                   (Example.ok_at Example.cq_ring_addr)
                   (snd (acquire_n 3 Example.ring0))
                   {| mappings := mappings Example.kernel1;
                      mem := store32 (mem Example.kernel1) 65864 9 |}
                   (Example.ok_at 3) 65864
                   _ _ _ _ _ _ _ _ _ _ Hne) 65867 _);
    try reflexivity; vm_compute; try discriminate; split; congruence.
Defined.

End RingWrites.

Section RingSubmitEdges.
Import Uring.

(** X7: when the slot tail is not above the slot head as plain 32-bit
    values (nothing was acquired since the last submission, or the tail has
    wrapped around 2^32 and the head has not), and the ring is not pending
    or the kernel has consumed everything published, io_uring_submit makes
    no kernel call, returns 0, clears the pending flag and changes nothing
    else, in the descriptor or in the shared memory. *)
Theorem submit_nothing_to_publish ring k r :
  sqe_tail (sq ring) <= sqe_head (sq ring) ->
  (pending (sq ring) = true ->
   u32 (load32 (mem k) (sq_tail (sq ring)) - load32 (mem k) (sq_head (sq ring))) = 0) ->
  io_uring_submit ring k r = (Ok (Some 0), with_sq (set_pending false) ring, k, []).
Proof.
  intros Hle Hdrained.
  assert (Hpub : forall ring0, sq ring0 = set_pending false (sq ring) ->
            with_sq (fun _ => sq ring0) ring0 = ring0 ->
            io_uring_submit_publish ring0 k (load32 (mem k) (sq_tail (sq ring))) r
            = (Ok (Some 0), ring0, k, [])).
  { intros ring0 Hsq Heta. unfold io_uring_submit_publish. cbn zeta.
    replace (publish_fuel (sq ring0)) with 0%nat
      by (unfold publish_fuel; rewrite Hsq; cbn [set_pending sqe_tail sqe_head]; lia).
    cbn [publish]. rewrite Z.sub_diag. change (u32 0) with 0. cbn [Z.eqb negb].
    rewrite Heta. destruct k; reflexivity. }
  unfold io_uring_submit. cbn zeta.
  destruct (pending (sq ring)) eqn:Hp.
  - rewrite (Hdrained eq_refl). cbn [Z.eqb negb].
    apply Hpub; destruct ring as [[] ? ?]; reflexivity.
  - replace (with_sq (set_pending false) ring) with ring
      by (destruct ring as [[] ? ?]; cbn in Hp; subst; reflexivity).
    apply Hpub; destruct ring as [[] ? ?]; cbn in Hp; subst; reflexivity.
Qed.

(* Both slot cursors at 2^32 - 1 on the example ring: the next
   io_uring_get_sqe hands out a slot and wraps the tail to 0; the
   submission that follows publishes nothing. *)
Lemma submit_nothing_to_publish_witness :
  let ring := with_sq (set_sqe_head (2 ^ 32 - 1)) (with_sq (set_sqe_tail (2 ^ 32 - 1)) Example.ring0) in
  let ring1 := snd (io_uring_get_sqe ring) in
  fst (io_uring_get_sqe ring) = Some 0x200c0 /\
  sqe_tail (sq ring1) = 0 /\
  unsubmitted ring1 = 1 /\
  io_uring_submit ring1 Example.kernel1 (Example.ok_at 0)
  = (Ok (Some 0), with_sq (set_pending false) ring1, Example.kernel1, []).
Proof.
  cbn zeta. split; [reflexivity|]. split; [reflexivity|]. split; [reflexivity|].
  apply submit_nothing_to_publish.
  - vm_compute. discriminate.
  - intros Hp. vm_compute in Hp. discriminate.
Defined.

Lemma set_pending_twice b ring :
  with_sq (set_pending false) (with_sq (set_pending b) ring) = with_sq (set_pending false) ring.
Proof. destruct ring as [[] ? ?]; reflexivity. Qed.

(** X8: when the enter call of io_uring_submit fails and, before the kernel
    has consumed everything published, io_uring_submit is called again and
    its enter call succeeds, the descriptor and the shared memory end as a
    single successful io_uring_submit would have left them; the second
    call makes exactly one enter call and hands no count to its caller. *)
Theorem failed_submit_then_redrive_is_submit ring k r1 r2 :
  sys_ret r1 < 0 ->
  0 <= sys_ret r2 ->
  snd (io_uring_submit ring k r1) <> [] ->
  let ring1 := snd (fst (fst (io_uring_submit ring k r1))) in
  let k1 := snd (fst (io_uring_submit ring k r1)) in
  u32 (load32 (mem k1) (sq_tail (sq ring1)) - load32 (mem k1) (sq_head (sq ring1))) <> 0 ->
  snd (fst (fst (io_uring_submit ring1 k1 r2))) = snd (fst (fst (io_uring_submit ring k r2))) /\
  snd (fst (io_uring_submit ring1 k1 r2)) = snd (fst (io_uring_submit ring k r2)) /\
  length (snd (io_uring_submit ring1 k1 r2)) = 1%nat /\
  fst (fst (fst (io_uring_submit ring1 k1 r2))) = Ok None.
Proof.
  intros Hneg Hok Hcalls. cbn zeta.
  apply Z.ltb_lt in Hneg. apply Z.ltb_ge in Hok.
  assert (Hpub : forall ring0 tail,
            snd (io_uring_submit_publish ring0 k tail r1) <> [] ->
            exists ringP kP n,
              io_uring_submit_publish ring0 k tail r1
              = (Throw (system_error (sys_errno r1) "io_uring_enter"),
                 with_sq (set_pending true) ringP, kP,
                 [sys_io_uring_enter (ring_fd ringP) n 0 GETEVENTS]) /\
              io_uring_submit_publish ring0 k tail r2
              = (Ok (Some n), with_sq (set_pending false) ringP, kP,
                 [sys_io_uring_enter (ring_fd ringP) n 0 GETEVENTS])).
  { intros ring0 tail. unfold io_uring_submit_publish. cbn zeta.
    destruct (publish _ _ _ tail _) as [[s m] t].
    destruct (negb (_ =? 0)); [|cbn [snd]; congruence].
    intros _. rewrite !do_enter_spec, Hneg, Hok. eauto. }
  assert (Hredrive : forall ringP kP,
            u32 (load32 (mem kP) (sq_tail (sq (with_sq (set_pending true) ringP)))
                 - load32 (mem kP) (sq_head (sq (with_sq (set_pending true) ringP)))) <> 0 ->
            io_uring_submit (with_sq (set_pending true) ringP) kP r2
            = (Ok None, with_sq (set_pending false) ringP, kP,
               [sys_io_uring_enter (ring_fd ringP)
                  (u32 (load32 (mem kP) (sq_tail (sq (with_sq (set_pending true) ringP)))
                        - load32 (mem kP) (sq_head (sq (with_sq (set_pending true) ringP)))))
                  0 GETEVENTS])).
  { intros ringP kP Hund.
    rewrite (submit_redrive (with_sq (set_pending true) ringP) kP r2 eq_refl Hund), Hok,
      set_pending_twice.
    reflexivity. }
  assert (Hfirst : exists ringP kP calls,
            io_uring_submit ring k r1
            = (Throw (system_error (sys_errno r1) "io_uring_enter"),
               with_sq (set_pending true) ringP, kP, calls) /\
            snd (fst (fst (io_uring_submit ring k r2))) = with_sq (set_pending false) ringP /\
            snd (fst (io_uring_submit ring k r2)) = kP).
  { revert Hcalls. unfold io_uring_submit. cbn zeta.
    destruct (pending (sq ring)) eqn:Hp.
    - destruct (negb (_ =? 0)) eqn:Hund.
      + (* the first call was itself a re-drive *)
        rewrite !do_enter_spec, Hneg, Hok. cbn [fst snd]. intros _.
        exists ring, k. eexists. repeat split; reflexivity.
      + intros Hcalls.
        destruct (Hpub _ _ Hcalls) as (ringP & kP & n & -> & ->). cbn [fst snd].
        exists ringP, kP. eexists. repeat split; reflexivity.
    - intros Hcalls.
      destruct (Hpub _ _ Hcalls) as (ringP & kP & n & -> & ->). cbn [fst snd].
      exists ringP, kP. eexists. repeat split; reflexivity. }
  destruct Hfirst as (ringP & kP & calls & -> & -> & ->). cbn [fst snd].
  intros Hund1. rewrite (Hredrive ringP kP Hund1). repeat split; reflexivity.
Qed.

(* Two slots on the example ring: the enter call fails with EINTR, the
   next call re-drives it. *)
Lemma failed_submit_then_redrive_is_submit_witness :
  let ring := snd (acquire_n 2 Example.ring0) in
  let res1 := io_uring_submit ring Example.kernel1 (Example.failed Example.EINTR) in
  let res2 := io_uring_submit (snd (fst (fst res1))) (snd (fst res1)) (Example.ok_at 2) in
  fst (fst (fst res1)) = Throw (system_error Example.EINTR "io_uring_enter") /\
  snd (fst (fst res2)) = snd (fst (fst (io_uring_submit ring Example.kernel1 (Example.ok_at 2)))) /\
  snd (fst res2) = snd (fst (io_uring_submit ring Example.kernel1 (Example.ok_at 2))).
Proof.
  cbn zeta. split; [reflexivity|].
  assert (H1 : sys_ret (Example.failed Example.EINTR) < 0) by (vm_compute; reflexivity).
  assert (H2 : 0 <= sys_ret (Example.ok_at 2)) by (vm_compute; discriminate).
  assert (H3 : snd (io_uring_submit (snd (acquire_n 2 Example.ring0)) Example.kernel1
                      (Example.failed Example.EINTR)) <> []) by (vm_compute; discriminate).
  destruct (failed_submit_then_redrive_is_submit (snd (acquire_n 2 Example.ring0))
              Example.kernel1 (Example.failed Example.EINTR) (Example.ok_at 2) H1 H2 H3)
    as (Hr & Hk & _).
  - vm_compute. discriminate.
  - split; [exact Hr|exact Hk].
Defined.

End RingSubmitEdges.

Section RingFlagsAndExit.
Import Uring UringExit.

Lemma land_sqpoll_bit flags : (Z.land flags SQPOLL =? 0) = negb (Z.testbit flags 1).
Proof.
  assert (H : Z.land flags SQPOLL = if Z.testbit flags 1 then 2 else 0).
  { apply Z.bits_inj'. intros n Hn. rewrite Z.land_spec.
    change SQPOLL with (2 ^ 1). rewrite Z.pow2_bits_eqb by lia.
    destruct (Z.eqb_spec 1 n) as [<-|Hne].
    - rewrite andb_true_r. destruct (Z.testbit flags 1); reflexivity.
    - rewrite andb_false_r. destruct (Z.testbit flags 1).
      + change 2 with (2 ^ 1). rewrite Z.pow2_bits_false by exact Hne. reflexivity.
      + rewrite Z.bits_0. reflexivity. }
  rewrite H. destruct (Z.testbit flags 1); reflexivity.
Qed.

(** X9: io_uring_queue_init fails its assertion exactly when bit 1 of the
    flags (SQPOLL) is set, whatever the other bits are; it does so before
    any kernel call, leaving the descriptor and the mappings as they were.
    With the bit clear the call ends normally or with a system_error. *)
Theorem queue_init_asserts_on_sqpoll entries ring flags k su r1 r2 r3 :
  (Z.testbit flags 1 = true ->
   io_uring_queue_init entries ring flags k su r1 r2 r3
   = (AssertFail "(flags & linux_abi::io_uring_setup_flags::SQPOLL) == 0", ring, k)) /\
  (Z.testbit flags 1 = false ->
   fst (fst (io_uring_queue_init entries ring flags k su r1 r2 r3)) = Ok tt \/
   exists errno what,
     fst (fst (io_uring_queue_init entries ring flags k su r1 r2 r3))
     = Throw (system_error errno what)).
Proof.
  unfold io_uring_queue_init. rewrite land_sqpoll_bit, negb_involutive.
  split; intros Hbit; rewrite Hbit; [reflexivity|].
  unfold throw_system_error_on at 1.
  destruct (su_ret su <? 0); [right; cbn [fst]; eauto|].
  destruct (queue_mmap_cases (su_ret su) (su_params su) ring k r1 r2 r3)
    as [(Ho & _)|([e He] & _)]; [left; exact Ho|right; eauto].
Qed.

(* What munmap leaves mapped: what was mapped, outside the range. *)
Lemma is_mapped_munmap k p n a :
  is_mapped (sys_munmap k p n) a
  = is_mapped k a && negb ((p <=? a) && (a <? p + n)).
Proof.
  unfold is_mapped, sys_munmap. cbn [mappings].
  induction (mappings k) as [|r M IH]; [reflexivity|].
  cbn [flat_map]. rewrite existsb_app, IH. cbn [existsb].
  rewrite andb_orb_distrib_l. f_equal.
  unfold region_minus, disjoint_region. destruct r as [s l]. cbn [fst snd].
  destruct (Z.leb_spec (s + l) p), (Z.leb_spec (p + n) s); cbn [orb existsb fst snd];
    try (destruct (Z.leb_spec s a), (Z.ltb_spec a (s + l)), (Z.leb_spec p a),
           (Z.ltb_spec a (p + n)); cbn; try reflexivity; lia).
  destruct (Z.ltb_spec s p), (Z.ltb_spec (p + n) (s + l)); cbn [app existsb fst snd];
    repeat match goal with
           | |- context [?x <=? ?y] => destruct (Z.leb_spec x y)
           | |- context [?x <? ?y] => destruct (Z.ltb_spec x y)
           end; cbn; try reflexivity; lia.
Qed.



End RingFlagsAndExit.

(** ** More on the gate *)

Section GateUseFacts.
Import Hook Gate GateUse.
Context {W : Type}.
Implicit Types (g : gate W) (w : W).

Lemma enter_leave_open g :
  is_closed g = false -> 0 <= _count g < 2 ^ 64 -> leave (snd (enter g)) = g.
Proof.
  intros Ho Hc. apply is_closed_open in Ho.
  unfold enter. rewrite Ho. cbn [snd]. unfold leave.
  cbn [set_count _count _stopped]. rewrite Ho.
  replace (u64 (u64 (_count g + 1) - 1)) with (_count g).
  - destruct g; reflexivity.
  - unfold u64. rewrite Zminus_mod_idemp_l.
    replace (_count g + 1 - 1) with (_count g) by lia.
    symmetry. apply Z.mod_small. exact Hc.
Qed.

(** X11: with_gate on a gate whose close() was requested throws
    gate_closed_exception without calling func: the state and the gate are
    untouched and no continuation is attached.  On an open gate func runs
    with the count one higher; when it returns its future, the continuation
    attached by finally brings the gate back to exactly what it was before
    the call; when func throws instead of returning a future, no
    continuation is attached and the request stays registered. *)
Theorem with_gate_registers_around_func g (func : W -> outcome unit * W) w :
  0 <= _count g < 2 ^ 64 ->
  (is_closed g = true -> with_gate g func w = (Throw gate_closed_exception, g, w, false)) /\
  (is_closed g = false ->
   snd (fst (with_gate g func w)) = snd (func w) /\
   snd (fst (fst (with_gate g func w))) = snd (enter g) /\
   with_gate_finally (snd (fst (fst (with_gate g func w)))) = g /\
   (fst (func w) = Ok tt -> with_gate g func w = (Ok tt, snd (enter g), snd (func w), true)) /\
   (fst (func w) <> Ok tt ->
    snd (with_gate g func w) = false /\
    fst (fst (fst (with_gate g func w))) = fst (func w) /\
    _count (snd (fst (fst (with_gate g func w)))) = u64 (_count g + 1))).
Proof.
  intros Hc. split.
  - intros Hcl. apply is_closed_stopped in Hcl as [p Hp].
    unfold with_gate, enter. rewrite Hp. reflexivity.
  - intros Ho. pose proof (enter_leave_open g Ho Hc) as Hrt.
    apply is_closed_open in Ho.
    unfold with_gate, with_gate_finally, enter in *. rewrite Ho in *. cbn [snd] in Hrt.
    destruct (func w) as [[[]| e | msg |] w']; cbn [fst snd];
      (split; [reflexivity|]); (split; [reflexivity|]); (split; [exact Hrt|]);
      (split; [try reflexivity; intros; congruence|]);
      try (intros _; repeat split; reflexivity).
    intros Hne. congruence.
Qed.

End GateUseFacts.

Section GateUseExamples.
Import Hook Gate GateUse.

(* A gate with one request in flight: a second one is wrapped around a
   function that succeeds; after close(), with_gate refuses. *)
Lemma with_gate_registers_around_func_witness :
  let g : gate nat := snd (enter new_gate) in
  let func := fun n : nat => (Ok tt, S n) in
  let g' := snd (fst (close g 0%nat)) in
  with_gate g func 5%nat = (Ok tt, snd (enter g), 6%nat, true) /\
  with_gate_finally (snd (fst (fst (with_gate g func 5%nat)))) = g /\
  with_gate g' func 5%nat = (Throw gate_closed_exception, g', 5%nat, false).
Proof.
  cbn zeta.
  assert (Hc : 0 <= _count (snd (enter (@new_gate nat))) < 2 ^ 64)
    by (vm_compute; split; [discriminate|reflexivity]).
  assert (Hc' : 0 <= _count (snd (fst (close (snd (enter (@new_gate nat))) 0%nat))) < 2 ^ 64)
    by (vm_compute; split; [discriminate|reflexivity]).
  destruct (with_gate_registers_around_func (snd (enter new_gate))
              (fun n : nat => (Ok tt, S n)) 5%nat Hc) as [_ Hopen].
  destruct (Hopen eq_refl) as (_ & _ & Hrt & Hok & _).
  destruct (with_gate_registers_around_func
              (snd (fst (close (snd (enter (@new_gate nat))) 0%nat)))
              (fun n : nat => (Ok tt, S n)) 5%nat Hc') as [Hclosed _].
  split; [exact (Hok eq_refl)|]. split; [exact Hrt|exact (Hclosed eq_refl)].
Defined.

End GateUseExamples.

Section GateMachine.
Import Hook Gate GateUse.
Context {W : Type}.
Implicit Types (g : gate W) (w : W).

Lemma gate_exec_step_consistent g w ev g' w' n :
  gate_consistent g n -> n + 1 < 2 ^ 64 ->
  gate_exec_step (g, w) ev = Some (g', w') ->
  gate_consistent g' (n + 1) /\
  is_closed g' = is_closed g || is_close ev.
Proof.
  intros [Hc Hs] Hn Hstep. destruct ev as [op|]; cbn [gate_exec_step fst snd] in Hstep.
  - destruct (is_leave op && (_count g =? 0)) eqn:Hguard; [discriminate|].
    inversion Hstep; subst g' w'; clear Hstep.
    cbn [is_close]. rewrite orb_false_r.
    destruct op; cbn [gate_step is_leave] in *.
    + (* enter *)
      unfold enter, gate_consistent, is_closed in *.
      destruct (_stopped g) as [p|] eqn:Es; cbn [snd set_count _count _stopped].
      * rewrite Es. split; [split; [lia|exact Hs]|reflexivity].
      * rewrite Es, u64_small by lia. split; [split; [lia|exact I]|reflexivity].
    + (* leave *)
      cbn [andb] in Hguard. apply Z.eqb_neq in Hguard.
      assert (Hu : u64 (_count g - 1) = _count g - 1) by (apply u64_small; lia).
      unfold leave, gate_consistent, is_closed in *. cbn [set_count _count _stopped].
      rewrite Hu. destruct (_stopped g) as [p|] eqn:Es.
      * replace (_count g =? 0) with false in Hs by (symmetry; apply Z.eqb_neq; lia).
        subst p. destruct (Z.eqb_spec (_count g - 1) 0) as [E0|E0];
          cbn [set_stopped set_count _count _stopped].
        -- rewrite E0. cbn. split; [split; [lia|reflexivity]|reflexivity].
        -- rewrite Es. replace (_count g - 1 =? 0) with false
             by (symmetry; apply Z.eqb_neq; lia).
           split; [split; [lia|reflexivity]|reflexivity].
      * cbn [set_stopped set_count _count _stopped]. rewrite Es.
        split; [split; [lia|exact I]|reflexivity].
    + (* check *)
      unfold check, gate_consistent, is_closed in *.
      destruct (_stopped g) as [p|] eqn:Es; cbn [snd]; rewrite Es;
        (split; [split; [lia|assumption]|reflexivity]).
    + split; [split; [cbn; lia|exact Hs]|reflexivity].
    + split; [split; [cbn; lia|exact Hs]|reflexivity].
    + split; [split; [cbn; lia|exact Hs]|reflexivity].
  - destruct (is_closed g) eqn:Ho.
    + apply is_closed_stopped in Ho as [p Hp]. unfold close in Hstep.
      rewrite Hp in Hstep. discriminate.
    + rewrite (close_open g w Ho) in Hstep. inversion Hstep; subst g' w'; clear Hstep.
      unfold gate_consistent, is_closed. cbn [set_stopped _count _stopped].
      split; [split; [lia|reflexivity]|reflexivity].
Qed.

Lemma gate_exec_consistent evs : forall g w g' w' n,
  gate_consistent g n -> n + Z.of_nat (length evs) < 2 ^ 64 ->
  gate_exec evs (g, w) = Some (g', w') ->
  gate_consistent g' (n + Z.of_nat (length evs)) /\
  is_closed g' = is_closed g || existsb is_close evs.
Proof.
  induction evs as [|ev evs IH]; intros g w g' w' n Hinv Hn Hrun.
  - inversion Hrun; subst. cbn [length existsb]. rewrite Z.add_0_r, orb_false_r. auto.
  - cbn [gate_exec] in Hrun. cbn [length] in Hn |- *. rewrite Nat2Z.inj_succ in Hn |- *.
    destruct (gate_exec_step (g, w) ev) as [[g1 w1]|] eqn:Hstep; [|discriminate].
    destruct (gate_exec_step_consistent g w ev g1 w1 n Hinv ltac:(lia) Hstep) as [Hinv1 Hcl1].
    destruct (IH g1 w1 g' w' (n + 1) Hinv1 ltac:(lia) Hrun) as [Hinv' Hcl'].
    split.
    + replace (n + Z.succ (Z.of_nat (length evs))) with (n + 1 + Z.of_nat (length evs)) by lia.
      exact Hinv'.
    + rewrite Hcl', Hcl1. cbn [existsb]. rewrite orb_assoc. reflexivity.
Qed.

(** X12: a gate used within its contract (no leave() without a matching
    enter(), close() called at most once), starting from a fresh gate and
    through fewer than 2^64 operations: its count is never negative; it is
    closed exactly when close() is among the operations performed; its
    drain promise is resolved exactly when it is closed with a count of
    zero, and then it was resolved once, with a value. *)
Theorem gate_drained_iff_closed_and_idle (evs : list (gate_event W)) w0 g w :
  gate_exec evs (new_gate, w0) = Some (g, w) ->
  Z.of_nat (length evs) < 2 ^ 64 ->
  0 <= _count g <= Z.of_nat (length evs) /\
  is_closed g = existsb is_close evs /\
  drained g = is_closed g && (_count g =? 0) /\
  (forall p, _stopped g = Some p -> p = [] \/ p = [resolved_value]).
Proof.
  intros Hrun Hlen.
  assert (H0 : gate_consistent (@new_gate W) 0) by (split; [cbn; lia|exact I]).
  destruct (gate_exec_consistent evs new_gate w0 g w 0 H0 ltac:(lia) Hrun)
    as [[Hc Hs] Hcl].
  split; [lia|]. split; [exact Hcl|].
  unfold drained, is_closed in *. destruct (_stopped g) as [p|].
  - subst p. split.
    + destruct (_count g =? 0); reflexivity.
    + intros p Hp. inversion Hp. destruct (_count g =? 0); auto.
  - split; [reflexivity|]. intros p Hp. discriminate.
Qed.

End GateMachine.

Section GateMachineExamples.
Import Hook Gate GateUse.

(* Scenario A with two requests: enter, enter, leave, close, leave. *)
Lemma gate_drained_iff_closed_and_idle_witness :
  let evs : list (gate_event unit) :=
    [ge_op op_enter; ge_op op_enter; ge_op op_leave; ge_close; ge_op op_enter; ge_op op_leave] in
  exists g,
    gate_exec evs (new_gate, tt) = Some (g, tt) /\
    Z.of_nat (length evs) < 2 ^ 64 /\
    is_closed g = true /\ _count g = 0 /\ drained g = true.
Proof.
  cbn zeta.
  destruct (gate_exec [ge_op op_enter; ge_op op_enter; ge_op op_leave; ge_close;
                       ge_op op_enter; ge_op op_leave] (@new_gate unit, tt))
    as [[g []]|] eqn:Hrun; [|vm_compute in Hrun; discriminate].
  exists g. split; [reflexivity|].
  assert (Hlen : Z.of_nat (length [@ge_op unit op_enter; ge_op op_enter; ge_op op_leave; ge_close;
                                   ge_op op_enter; ge_op op_leave]) < 2 ^ 64)
    by (vm_compute; reflexivity).
  split; [exact Hlen|].
  destruct (gate_drained_iff_closed_and_idle _ _ _ _ Hrun Hlen) as (_ & Hcl & Hdr & _).
  assert (Hcount : _count g = 0) by (vm_compute in Hrun; inversion Hrun; reflexivity).
  split; [rewrite Hcl; reflexivity|]. split; [exact Hcount|].
  rewrite Hdr, Hcl, Hcount. reflexivity.
Defined.

End GateMachineExamples.

(** ** Moving handles *)

Section HookMoves.
Import Hook.
Context {W : Type}.
Implicit Types (l : list (node W)).

Lemma is_linked_fresh (n : nat) l :
  List.Forall (fun nd => (hook nd < n)%nat) l -> is_linked n l = false.
Proof.
  unfold is_linked. induction 1 as [|nd l Hnd _ IH]; [reflexivity|].
  cbn [existsb]. rewrite IH, orb_false_r. apply Nat.eqb_neq. lia.
Qed.

Lemma is_linked_bound (n h : nat) l :
  List.Forall (fun nd => (hook nd < n)%nat) l -> is_linked h l = true -> (h < n)%nat.
Proof.
  unfold is_linked. intros Hall Hl. apply existsb_exists in Hl as (nd & Hin & Hh).
  rewrite List.Forall_forall in Hall. apply Hall in Hin. apply Nat.eqb_eq in Hh. lia.
Qed.

Lemma unlink_not_linked (h : nat) l : is_linked h l = false -> unlink h l = l.
Proof.
  unfold is_linked, unlink. induction l as [|nd l IH]; [reflexivity|].
  cbn [existsb List.filter]. intros Hl. apply orb_false_iff in Hl as [Hnd Hl].
  rewrite Hnd. cbn [negb]. f_equal. apply IH, Hl.
Qed.

Lemma swap_nodes_not_linked (other this : nat) l :
  is_linked other l = false -> swap_nodes other this l = l.
Proof.
  unfold is_linked, swap_nodes. induction l as [|nd l IH]; [reflexivity|].
  cbn [existsb List.map]. intros Hl. apply orb_false_iff in Hl as [Hnd Hl].
  rewrite Hnd. f_equal. apply IH, Hl.
Qed.

Lemma unlink_old_after_swap (other this : nat) l :
  other <> this -> unlink other (swap_nodes other this l) = swap_nodes other this l.
Proof.
  intros Hne. unfold unlink, swap_nodes. induction l as [|nd l IH]; [reflexivity|].
  cbn [List.map List.filter]. rewrite IH.
  destruct (Nat.eqb_spec (hook nd) other) as [E|E]; cbn [hook].
  - replace (Nat.eqb this other) with false by (symmetry; apply Nat.eqb_neq; lia).
    reflexivity.
  - replace (Nat.eqb (hook nd) other) with false by (symmetry; apply Nat.eqb_neq; lia).
    reflexivity.
Qed.

Lemma unlink_new_after_swap (other this : nat) l :
  is_linked this l = false ->
  List.map _target (unlink this (swap_nodes other this l))
  = List.map _target (unlink other l).
Proof.
  unfold is_linked, unlink, swap_nodes. induction l as [|nd l IH]; [reflexivity|].
  cbn [existsb List.map List.filter]. intros Hl. apply orb_false_iff in Hl as [Hnd Hl].
  destruct (Nat.eqb_spec (hook nd) other) as [E|E]; cbn [hook negb].
  - rewrite Nat.eqb_refl. cbn [negb]. apply IH, Hl.
  - rewrite Hnd. cbn [negb List.map]. f_equal. apply IH, Hl.
Qed.

Lemma is_linked_after_swap (other this : nat) l :
  is_linked this l = false ->
  is_linked this (swap_nodes other this l) = is_linked other l.
Proof.
  unfold is_linked, swap_nodes. induction l as [|nd l IH]; [reflexivity|].
  cbn [existsb List.map]. intros Hl. apply orb_false_iff in Hl as [Hnd Hl].
  rewrite (IH Hl).
  destruct (Nat.eqb_spec (hook nd) other) as [E|E]; cbn [hook].
  - rewrite Nat.eqb_refl. reflexivity.
  - rewrite Hnd. reflexivity.
Qed.

Lemma swap_nodes_hooks_below (other : nat) (n : nat) l :
  List.Forall (fun nd => (hook nd < n)%nat) l ->
  List.Forall (fun nd => (hook nd < S n)%nat) (swap_nodes other n l).
Proof.
  unfold swap_nodes. induction 1 as [|nd l Hnd _ IH]; cbn [List.map]; constructor; [|exact IH].
  destruct (Nat.eqb (hook nd) other); cbn [hook]; lia.
Qed.

Lemma unlink_hooks_below (h n : nat) l :
  List.Forall (fun nd => (hook nd < n)%nat) l ->
  List.Forall (fun nd => (hook nd < n)%nat) (unlink h l).
Proof.
  intros Hall. apply List.Forall_forall. intros nd Hin.
  apply List.filter_In in Hin as [Hin _].
  rewrite List.Forall_forall in Hall. apply Hall, Hin.
Qed.

Lemma for_each_same_targets l l' (w : W) :
  List.map _target l = List.map _target l' -> for_each l w = for_each l' w.
Proof. intros E. rewrite !for_each_run_callbacks, E. reflexivity. Qed.

End HookMoves.

Section GateMoves.
Import Hook Gate.
Context {W : Type}.

Lemma enter_fields (g : gate W) :
  _to_signal (snd (enter g)) = _to_signal g /\ next_hook (snd (enter g)) = next_hook g.
Proof. unfold enter. destruct (_stopped g); split; reflexivity. Qed.

Lemma leave_fields (g : gate W) :
  _to_signal (leave g) = _to_signal g /\ next_hook (leave g) = next_hook g.
Proof.
  unfold leave. cbn [set_count _stopped _count].
  destruct (_stopped g); [|split; reflexivity].
  destruct (u64 (_count g - 1) =? 0); split; reflexivity.
Qed.

(* Every signal_target linked in a gate built by its own operations has a
   serial number below the next one. *)
Lemma gate_run_hooks_below (ops : list (gate_op W)) : forall g : gate W,
  List.Forall (fun nd => (hook nd < next_hook g)%nat) (_to_signal g) ->
  List.Forall (fun nd => (hook nd < next_hook (gate_run ops g))%nat)
              (_to_signal (gate_run ops g)).
Proof.
  induction ops as [|op ops IH]; intros g Hall; [exact Hall|].
  rewrite gate_run_cons. apply IH.
  destruct op; cbn [gate_step].
  - destruct (enter_fields g) as (-> & ->). exact Hall.
  - destruct (leave_fields g) as (-> & ->). exact Hall.
  - unfold check. destruct (_stopped g); exact Hall.
  - unfold signal_on_close, push_back. cbn [snd _to_signal next_hook].
    apply List.Forall_app. split.
    + eapply List.Forall_impl; [|exact Hall]. cbn. intros; lia.
    + constructor; [cbn; lia|constructor].
  - unfold signal_target_destroy, set_to_signal. cbn [_to_signal next_hook].
    apply unlink_hooks_below, Hall.
  - unfold signal_target_move. cbn [snd _to_signal next_hook].
    destruct (is_linked h (_to_signal g)).
    + apply swap_nodes_hooks_below, Hall.
    + eapply List.Forall_impl; [|exact Hall]. cbn. intros; lia.
Qed.

(** X13: in a gate built by its own operations, move-constructing a
    signal_target from a handle leaves what close() runs, and in which
    order, as it was; the new handle is linked exactly if the old one was;
    destroying the old handle afterwards unregisters nothing; destroying
    the new handle unregisters what destroying the old one would have. *)
Theorem signal_target_move_keeps_registration (ops : list (gate_op W)) (h : nat) (w : W) :
  let g := gate_run ops new_gate in
  let h' := fst (signal_target_move h g) in
  let g' := snd (signal_target_move h g) in
  for_each (_to_signal g') w = for_each (_to_signal g) w /\
  is_linked h' (_to_signal g') = is_linked h (_to_signal g) /\
  _to_signal (signal_target_destroy h g') = _to_signal g' /\
  List.map _target (_to_signal (signal_target_destroy h' g'))
  = List.map _target (_to_signal (signal_target_destroy h g)).
Proof.
  cbn zeta.
  pose proof (gate_run_hooks_below ops new_gate ltac:(constructor)) as Hall.
  set (g := gate_run ops new_gate) in *.
  pose proof (is_linked_fresh _ _ Hall) as Hfresh.
  unfold signal_target_move, signal_target_destroy, set_to_signal.
  cbn [fst snd _to_signal].
  destruct (is_linked h (_to_signal g)) eqn:Hl.
  - pose proof (is_linked_bound _ _ _ Hall Hl) as Hlt.
    split; [apply for_each_same_targets, swap_nodes_keeps_targets|].
    split; [rewrite is_linked_after_swap by exact Hfresh; exact Hl|].
    split; [apply unlink_old_after_swap; lia|].
    apply unlink_new_after_swap, Hfresh.
  - split; [reflexivity|]. split; [exact Hfresh|].
    split; [apply unlink_not_linked, Hl|].
    rewrite (unlink_not_linked _ _ Hfresh), (unlink_not_linked _ _ Hl). reflexivity.
Qed.

End GateMoves.

Section SubscriptionMoves.
Import Hook AbortSource AbortSourceUse.
Context {W : Type}.

(* An abort_source that has not fired, through any subscriptions, moves
   and destructions of handles: its list is engaged and holds handles with
   serial numbers below the next one. *)
Lemma subscription_op_run_engaged (ops : list (subscription_op W)) :
  forall (a : abort_source W) l,
    _subscriptions a = Some l ->
    List.Forall (fun nd => (hook nd < next_subscription a)%nat) l ->
    exists l', _subscriptions (subscription_op_run ops a) = Some l' /\
      List.Forall (fun nd => (hook nd < next_subscription (subscription_op_run ops a))%nat) l'.
Proof.
  induction ops as [|op ops IH]; intros a l Hl Hall; [eauto|].
  unfold subscription_op_run in *. cbn [fold_left].
  destruct op as [f|h|h]; cbn [subscription_op_step].
  - unfold subscribe. rewrite Hl. cbn [snd]. eapply IH; [reflexivity|].
    cbn [next_subscription]. unfold push_back. apply List.Forall_app. split.
    + eapply List.Forall_impl; [|exact Hall]. cbn. intros; lia.
    + constructor; [cbn; lia|constructor].
  - unfold subscription_destroy. rewrite Hl. cbn [option_map]. eapply IH; [reflexivity|].
    cbn [next_subscription]. apply unlink_hooks_below, Hall.
  - unfold subscription_move. rewrite Hl. cbn [snd option_map]. eapply IH; [reflexivity|].
    cbn [next_subscription]. apply swap_nodes_hooks_below, Hall.
Qed.

(** X14: an abort_source reports abort_requested() = false through any
    subscriptions, moves and destructions of handles, and true once
    request_abort() has run, whatever handles are destroyed or moved
    afterwards (subscribing then is undefined).  Move-constructing a
    subscription before the source fires leaves what request_abort() runs,
    and in which order, as it was;
    destroying the old handle afterwards unregisters nothing, and
    destroying the new one unregisters what destroying the old one would
    have. *)
Theorem subscription_move_keeps_registration
    (ops later : list (subscription_op W)) (h : nat) (w : W) :
  let a := subscription_op_run ops new_abort_source in
  let h' := fst (subscription_move h a) in
  let a' := snd (subscription_move h a) in
  abort_requested a = false /\
  (fst (fst (request_abort a w)) = Ok tt /\
   (existsb is_s_subscribe later = false ->
    abort_requested (subscription_op_run later (snd (fst (request_abort a w)))) = true)) /\
  snd (request_abort a' w) = snd (request_abort a w) /\
  _subscriptions (subscription_destroy h a') = _subscriptions a' /\
  option_map (List.map _target) (_subscriptions (subscription_destroy h' a'))
  = option_map (List.map _target) (_subscriptions (subscription_destroy h a)).
Proof.
  cbn zeta.
  destruct (subscription_op_run_engaged ops new_abort_source [] eq_refl ltac:(constructor))
    as (l & Hl & Hall).
  set (a := subscription_op_run ops new_abort_source) in *.
  pose proof (is_linked_fresh _ _ Hall) as Hfresh.
  unfold abort_requested, request_abort, subscription_move, subscription_destroy.
  cbn [fst snd _subscriptions next_subscription]. rewrite Hl. cbn [option_map fst snd].
  split; [reflexivity|]. split; [|split; [|split]].
  - split; [reflexivity|].
    assert (Hfired : forall ops' (b : abort_source W),
              _subscriptions b = None ->
              existsb is_s_subscribe ops' = false ->
              _subscriptions (subscription_op_run ops' b) = None).
    { induction ops' as [|op ops' IH]; intros b Hb Hops; [exact Hb|].
      cbn [existsb] in Hops. apply orb_false_iff in Hops as [Hop Hops'].
      unfold subscription_op_run in *. cbn [fold_left]. apply IH; [|exact Hops'].
      destruct op as [f|h0|h0]; cbn [subscription_op_step]; [discriminate| |].
      - unfold subscription_destroy. rewrite Hb. reflexivity.
      - unfold subscription_move. cbn [snd _subscriptions]. rewrite Hb. reflexivity. }
    intros Hlater. rewrite Hfired; [reflexivity|reflexivity|exact Hlater].
  - apply for_each_same_targets, swap_nodes_keeps_targets.
  - destruct (is_linked h l) eqn:Hlk.
    + pose proof (is_linked_bound _ _ _ Hall Hlk) as Hlt.
      rewrite unlink_old_after_swap by lia. reflexivity.
    + rewrite (swap_nodes_not_linked _ _ _ Hlk), (unlink_not_linked _ _ Hlk). reflexivity.
  - f_equal. apply unlink_new_after_swap, Hfresh.
Qed.

End SubscriptionMoves.

(** ** More on sleep_abortable *)

Section SleepMore.
Import Hook Gate Sleep SleepUse.

(* What one event other than a call of sleep_abortable does to the
   sleepers: none appears, and apart from the one a continuation destroys
   each keeps its signal_target. *)
Lemma step_keeps_sleepers sys ev sys' :
  invariant sys -> step sys ev = Some sys' ->
  (forall dur, ev <> ev_sleep dur) ->
  forall j s, sleepers (w sys) !! j = Some s ->
    (exists s', sleepers (w sys') !! j = Some s' /\ st s' = st s /\
                (armed (tmr s) = false -> s' = s)) \/
    (ev = ev_continue j /\ available (done s) = true /\ sleepers (w sys') !! j = None).
Proof.
  intros Hinv Hstep Hns j s Hj.
  destruct ev as [dur|i| |i| |]; cbn [step] in Hstep.
  - exfalso. apply (Hns dur). reflexivity.
  - destruct (sleepers (w sys) !! i) as [si|] eqn:Ei;
      [|inversion Hstep; subst; left; exists s; auto].
    unfold expire in Hstep. inversion Hstep; subst sys'; clear Hstep. cbn [w]. left.
    destruct (decide (j = i)) as [->|Hne].
    + rewrite Ei in Hj. inversion Hj; subst si; clear Hj.
      destruct (armed (tmr s)) eqn:Ha.
      * unfold timer_callback. cbn [set_sleeper sleepers]. rewrite lookup_insert_eq.
        destruct (negb (is_closed (g sys))); cbn [set_sleeper sleepers];
          rewrite lookup_insert_eq; eexists; (split; [reflexivity|]);
          (split; [reflexivity|discriminate]).
      * cbn [set_sleeper sleepers]. rewrite lookup_insert_eq.
        eexists. split; [reflexivity|]. split; [reflexivity|].
        intros _. destruct s as [d [a] h]. cbn in Ha. subst a. reflexivity.
    + assert (Hw1 : sleepers (set_sleeper i {| done := done si; tmr := {| armed := false |};
                                               st := st si |} (w sys)) !! j = Some s)
        by (cbn [set_sleeper sleepers]; rewrite lookup_insert_ne by congruence; exact Hj).
      exists s. split; [|auto].
      destruct (armed (tmr si)); [|exact Hw1].
      unfold timer_callback. cbn [set_sleeper sleepers]. rewrite lookup_insert_eq.
      destruct (negb (is_closed (g sys))); [|exact Hw1].
      cbn [set_sleeper sleepers]. rewrite !lookup_insert_ne by congruence. exact Hj.
  - destruct (is_closed (g sys)) eqn:Hclosed.
    { apply is_closed_stopped in Hclosed as [p Hp]. unfold close in Hstep.
      rewrite Hp in Hstep. discriminate. }
    rewrite (close_open _ _ Hclosed) in Hstep. inversion Hstep; subst sys'; clear Hstep.
    cbn [w]. left.
    destruct (for_each_close_listeners (_to_signal (g sys)) (w sys) (inv_listeners sys Hinv))
      as [_ Hall].
    specialize (Hall j). rewrite Hj in Hall.
    destruct Hall as (s' & Hs' & Hst & Hsame & _). exists s'. auto.
  - destruct (sleepers (w sys) !! i) as [si|] eqn:Ei;
      [|inversion Hstep; subst; left; exists s; auto].
    destruct (available (done si)) eqn:Hav; [|inversion Hstep; subst; left; exists s; auto].
    inversion Hstep; subst sys'; clear Hstep. cbn [w sleepers].
    destruct (decide (j = i)) as [->|Hne].
    + right. rewrite Ei in Hj. inversion Hj; subst si.
      split; [reflexivity|]. split; [exact Hav|apply lookup_delete_eq].
    + left. exists s. rewrite lookup_delete_ne by congruence. auto.
  - inversion Hstep; subst. left. exists s. auto.
  - inversion Hstep; subst. left. exists s. auto.
Qed.

Lemma step_listeners_alive sys ev sys' :
  invariant sys -> listeners_alive sys -> step sys ev = Some sys' -> listeners_alive sys'.
Proof.
  intros Hinv Hlive Hstep. unfold listeners_alive in *.
  destruct ev as [dur|i| |i| |].
  - (* a call of sleep_abortable *)
    cbn [step] in Hstep. inversion Hstep; subst sys'; clear Hstep.
    unfold sleep_abortable. destruct (is_closed (g sys)) eqn:Hclosed; cbn [snd g w sleepers].
    + exact Hlive.
    + unfold signal_on_close, push_back. cbn [snd g w _to_signal set_sleeper sleepers].
      assert (Hfresh : sleepers (w sys) !! next_call sys = None).
      { destruct (sleepers (w sys) !! next_call sys) as [s|] eqn:Es; [|reflexivity].
        destruct (inv_alive sys Hinv _ _ Es) as (Hlt & _). lia. }
      apply List.Forall_app. split.
      * eapply List.Forall_impl; [|exact Hlive]. cbn beta.
        intros nd (j & s & Hj & Hst & Htg). exists j, s.
        rewrite lookup_insert_ne by congruence. auto.
      * constructor; [|constructor]. cbn [hook _target].
        eexists _, _. rewrite lookup_insert_eq. split; [reflexivity|]. split; reflexivity.
  - pose proof (step_keeps_sleepers sys _ sys' Hinv Hstep ltac:(discriminate)) as Hkeep.
    assert (Hg : g sys' = g sys).
    { cbn [step] in Hstep. destruct (sleepers (w sys) !! i); [unfold expire in Hstep|];
        inversion Hstep; reflexivity. }
    rewrite Hg. eapply List.Forall_impl; [|exact Hlive]. cbn beta.
    intros nd (j & s & Hj & Hst & Htg).
    destruct (Hkeep j s Hj) as [(s' & Hs' & Hst' & _)|(Hev & _)]; [|discriminate].
    exists j, s'. rewrite Hst'. auto.
  - pose proof (step_keeps_sleepers sys _ sys' Hinv Hstep ltac:(discriminate)) as Hkeep.
    assert (Hg : _to_signal (g sys') = _to_signal (g sys)).
    { cbn [step] in Hstep. destruct (is_closed (g sys)) eqn:Hclosed.
      - apply is_closed_stopped in Hclosed as [p Hp]. unfold close in Hstep.
        rewrite Hp in Hstep. discriminate.
      - rewrite (close_open _ _ Hclosed) in Hstep. inversion Hstep. reflexivity. }
    rewrite Hg. eapply List.Forall_impl; [|exact Hlive]. cbn beta.
    intros nd (j & s & Hj & Hst & Htg).
    destruct (Hkeep j s Hj) as [(s' & Hs' & Hst' & _)|(Hev & _)]; [|discriminate].
    exists j, s'. rewrite Hst'. auto.
  - (* a continuation *)
    cbn [step] in Hstep.
    destruct (sleepers (w sys) !! i) as [si|] eqn:Ei; [|inversion Hstep; subst; exact Hlive].
    destruct (available (done si)); [|inversion Hstep; subst; exact Hlive].
    inversion Hstep; subst sys'; clear Hstep.
    unfold signal_target_destroy, set_to_signal, unlink. cbn [g w _to_signal sleepers].
    apply List.Forall_forall. intros nd Hin. apply List.filter_In in Hin as [Hin Hhook].
    rewrite List.Forall_forall in Hlive. destruct (Hlive nd Hin) as (j & s & Hj & Hst & Htg).
    exists j, s. split; [|auto].
    rewrite lookup_delete_ne; [exact Hj|].
    intros <-. rewrite Ei in Hj. inversion Hj; subst si.
    rewrite Hst, Nat.eqb_refl in Hhook. discriminate.
  - cbn [step] in Hstep. inversion Hstep; subst; clear Hstep. cbn [g w].
    destruct (enter_keeps (g sys)) as (_ & -> & _). exact Hlive.
  - cbn [step] in Hstep. inversion Hstep; subst; clear Hstep. cbn [g w].
    destruct (leave_keeps (g sys)) as (_ & -> & _). exact Hlive.
Qed.

Lemma run_listeners_alive evs : forall sys sys',
  invariant sys -> listeners_alive sys -> run evs sys = Some sys' -> listeners_alive sys'.
Proof.
  induction evs as [|ev evs IH]; intros sys sys' Hinv Hlive Hrun; simpl in Hrun.
  - inversion Hrun; subst. exact Hlive.
  - destruct (step sys ev) as [sys1|] eqn:Hstep; [|discriminate].
    eapply IH; [eapply step_invariant; eauto|eapply step_listeners_alive; eauto|exact Hrun].
Qed.

End SleepMore.

Section SleepOutcome.
Import Hook Gate Sleep SleepUse.

(* One event never changes a future that is resolved. *)
Lemma step_result_final sys ev sys' i :
  invariant sys -> step sys ev = Some sys' ->
  result sys i <> [] -> result sys' i = result sys i.
Proof.
  intros Hinv Hstep Hres.
  destruct ev as [dur|i0| |i0| |].
  - (* a call of sleep_abortable names a future that did not exist *)
    cbn [step] in Hstep. inversion Hstep; subst sys'; clear Hstep.
    assert (Hne : i <> next_call sys).
    { intros ->. apply Hres. unfold result.
      destruct (sleepers (w sys) !! next_call sys) as [s|] eqn:Es.
      - destruct (inv_alive sys Hinv _ _ Es) as (Hlt & _). lia.
      - destruct (finished (w sys) !! next_call sys) as [p|] eqn:Ef; [|reflexivity].
        pose proof (inv_finished sys Hinv _ _ Ef). lia. }
    unfold sleep_abortable, result.
    destruct (is_closed (g sys)); cbn [snd w sleepers finished].
    + rewrite lookup_insert_ne by congruence. reflexivity.
    + unfold signal_on_close. cbn [snd w set_sleeper sleepers finished].
      rewrite lookup_insert_ne by congruence. reflexivity.
  - destruct (sleepers (w sys) !! i) as [s|] eqn:Es.
    + destruct (step_keeps_sleepers sys _ sys' Hinv Hstep ltac:(discriminate) i s Es)
        as [(s' & Hs' & _ & Hsame)|(Hev & _)]; [|discriminate].
      unfold result in *. rewrite Es in *. rewrite Hs'.
      destruct (inv_alive sys Hinv _ _ Es) as (_ & _ & _ & [(_ & Hd & _)|(Ha & _)]);
        [congruence|]. rewrite (Hsame Ha). reflexivity.
    + cbn [step] in Hstep. unfold result in *. rewrite Es in *.
      destruct (sleepers (w sys) !! i0) as [s0|] eqn:E0;
        [|inversion Hstep; subst; rewrite Es; reflexivity].
      assert (Hne : i <> i0) by congruence.
      unfold expire in Hstep. inversion Hstep; subst sys'; clear Hstep. cbn [w].
      assert (Hw : forall w1 : world, sleepers w1 !! i = None -> finished w1 = finished (w sys) ->
                   sleepers (timer_callback i0 (g sys) w1) !! i = None /\
                   finished (timer_callback i0 (g sys) w1) = finished (w sys)).
      { intros w1 H1 H2. unfold timer_callback.
        destruct (sleepers w1 !! i0); [|auto].
        destruct (negb (is_closed (g sys))); [|auto].
        cbn [set_sleeper sleepers finished]. rewrite lookup_insert_ne by congruence. auto. }
      set (w1 := set_sleeper i0 _ (w sys)).
      assert (H1 : sleepers w1 !! i = None)
        by (subst w1; cbn [set_sleeper sleepers]; rewrite lookup_insert_ne by congruence;
            exact Es).
      assert (H2 : finished w1 = finished (w sys)) by reflexivity.
      destruct (armed (tmr s0)).
      * destruct (Hw w1 H1 H2) as [-> ->]. reflexivity.
      * rewrite H1, H2. reflexivity.
  - cbn [step] in Hstep. destruct (is_closed (g sys)) eqn:Hclosed.
    { apply is_closed_stopped in Hclosed as [p Hp]. unfold close in Hstep.
      rewrite Hp in Hstep. discriminate. }
    rewrite (close_open _ _ Hclosed) in Hstep. inversion Hstep; subst sys'; clear Hstep.
    destruct (for_each_close_listeners (_to_signal (g sys)) (w sys) (inv_listeners sys Hinv))
      as [Hfin Hall].
    specialize (Hall i). unfold result in *. cbn [w]. rewrite Hfin.
    destruct (sleepers (w sys) !! i) as [s|] eqn:Es.
    + destruct Hall as (s' & -> & _ & Hsame & _).
      destruct (inv_alive sys Hinv _ _ Es) as (_ & _ & _ & [(_ & Hd & _)|(Ha & _)]);
        [congruence|]. rewrite (Hsame Ha). reflexivity.
    + rewrite Hall. reflexivity.
  - (* a continuation moves the resolved promise to the finished futures *)
    cbn [step] in Hstep. unfold result in *.
    destruct (sleepers (w sys) !! i0) as [s0|] eqn:E0; [|inversion Hstep; subst; reflexivity].
    destruct (available (done s0)); [|inversion Hstep; subst; reflexivity].
    inversion Hstep; subst sys'; clear Hstep. cbn [w sleepers finished].
    destruct (decide (i = i0)) as [->|Hne].
    + rewrite E0, lookup_delete_eq, lookup_insert_eq. reflexivity.
    + rewrite lookup_delete_ne, lookup_insert_ne by congruence. reflexivity.
  - cbn [step] in Hstep. inversion Hstep; subst. reflexivity.
  - cbn [step] in Hstep. inversion Hstep; subst. reflexivity.
Qed.

Lemma run_result_final evs : forall sys sys' i,
  invariant sys -> run evs sys = Some sys' ->
  result sys i <> [] -> result sys' i = result sys i.
Proof.
  induction evs as [|ev evs IH]; intros sys sys' i Hinv Hrun Hres; simpl in Hrun.
  - inversion Hrun; subst. reflexivity.
  - destruct (step sys ev) as [sys1|] eqn:Hstep; [|discriminate].
    pose proof (step_result_final sys ev sys1 i Hinv Hstep Hres) as H1.
    rewrite <- H1. apply IH; [eapply step_invariant; eauto|exact Hrun|].
    rewrite H1. exact Hres.
Qed.

(* A call made whose future is unresolved has its sleeper alive and waiting. *)
Lemma pending_is_waiting sys i :
  invariant sys -> (i < next_call sys)%nat -> result sys i = [] ->
  exists s, sleepers (w sys) !! i = Some s /\ armed (tmr s) = true /\ done s = [] /\
            is_closed (g sys) = false /\
            List.In {| hook := st s; _target := close_listener i |} (_to_signal (g sys)).
Proof.
  intros Hinv Hi Hres. unfold result in Hres.
  destruct (sleepers (w sys) !! i) as [s|] eqn:Es.
  - exists s. split; [reflexivity|].
    destruct (inv_alive sys Hinv _ _ Es) as (_ & _ & _ & [Hw|(_ & [Hr|Hr])]);
      [exact Hw|congruence|congruence].
  - destruct (inv_gone sys Hinv i Hi Es) as (p & Hp & [Hr|Hr]); rewrite Hp in Hres;
      simpl in Hres; congruence.
Qed.

(** X15: in every state a program that sleeps against one gate can reach,
    each target linked in the gate is the close listener of a sleeper that
    is still alive and is linked through that sleeper's own signal_target
    (the [this] the listener captured is never a destroyed sleeper); and
    while the gate is closed no sleeper has its timer armed: every sleeper
    alive has its promise resolved once. *)
Theorem close_listeners_never_dangle evs sys :
  run evs boot = Some sys ->
  listeners_alive sys /\
  (is_closed (g sys) = true ->
   forall i s, sleepers (w sys) !! i = Some s ->
               armed (tmr s) = false /\ resolved_once (done s)).
Proof.
  intros Hrun.
  pose proof (run_invariant evs boot sys invariant_boot Hrun) as Hinv.
  split.
  - apply (run_listeners_alive evs boot sys invariant_boot); [|exact Hrun].
    unfold listeners_alive, boot, new_gate. cbn. constructor.
  - intros Hc i s Es.
    destruct (inv_alive sys Hinv _ _ Es) as (_ & _ & _ & [(_ & _ & Ho & _)|Hs]);
      [congruence|exact Hs].
Qed.

(* Two calls sleep; the timer of call 0 expires and its continuation
   destroys the sleeper, which unlinks its listener: the one target left in
   the gate is the listener of call 1, whose sleeper is alive. *)
Lemma close_listeners_never_dangle_witness :
  let evs := [ev_sleep 10; ev_sleep 20; ev_timer 0; ev_continue 0] in
  exists sys,
    run evs boot = Some sys /\
    List.map hook (_to_signal (g sys)) = [1%nat] /\
    sleepers (w sys) !! 0%nat = None /\
    listeners_alive sys.
Proof.
  cbn zeta.
  destruct (run [ev_sleep 10; ev_sleep 20; ev_timer 0; ev_continue 0] boot)
    as [sys|] eqn:Hrun; [|vm_compute in Hrun; discriminate].
  exists sys. split; [reflexivity|].
  pose proof (close_listeners_never_dangle _ _ Hrun) as [Hlive _].
  vm_compute in Hrun. inversion Hrun; subst sys; clear Hrun.
  split; [reflexivity|]. split; [reflexivity|]. exact Hlive.
Defined.

(** X16: the future of a call is final once resolved: in every reachable
    state, whatever happens afterwards (timer expiries, close(), the
    continuation that destroys the sleeper, further calls, enter() and
    leave()), a future that has a resolution keeps exactly that one. *)
Theorem sleep_result_is_final evs evs' sys sys' i :
  run evs boot = Some sys -> run evs' sys = Some sys' ->
  result sys i <> [] -> result sys' i = result sys i.
Proof.
  intros Hrun Hrun' Hres.
  apply (run_result_final evs' sys sys' i); [|exact Hrun'|exact Hres].
  apply (run_invariant evs boot sys invariant_boot Hrun).
Qed.

(* The timer of call 0 expires; the close() that comes later, the late look
   at the timer and the continuation leave its value in place. *)
Lemma sleep_result_is_final_witness :
  let evs := [ev_sleep 10; ev_timer 0] in
  let evs' := [ev_close; ev_timer 0; ev_continue 0; ev_sleep 5] in
  exists sys sys',
    run evs boot = Some sys /\ run evs' sys = Some sys' /\
    result sys 0 = [resolved_value] /\ result sys' 0 = [resolved_value].
Proof.
  cbn zeta.
  destruct (run [ev_sleep 10; ev_timer 0] boot) as [sys|] eqn:Hrun;
    [|vm_compute in Hrun; discriminate].
  destruct (run [ev_close; ev_timer 0; ev_continue 0; ev_sleep 5] sys) as [sys'|] eqn:Hrun';
    [|vm_compute in Hrun; inversion Hrun; subst sys; vm_compute in Hrun'; discriminate].
  exists sys, sys'. split; [reflexivity|]. split; [exact Hrun'|].
  assert (H0 : result sys 0 = [resolved_value])
    by (vm_compute in Hrun; inversion Hrun; reflexivity).
  split; [exact H0|].
  rewrite (sleep_result_is_final _ _ _ _ 0%nat Hrun Hrun'); [exact H0|].
  rewrite H0. discriminate.
Defined.

(** X17: what resolves a pending sleep.  For a call made whose future is
    unresolved in a reachable state: the gate is open; the expiry of its
    timer resolves the future with its value; close() succeeds and resolves
    it with sleep_aborted; and no other event (another call, the expiry of
    another timer, any continuation, enter(), leave()) resolves it. *)
Theorem pending_sleep_resolved_by_timer_or_close evs sys i :
  run evs boot = Some sys -> (i < next_call sys)%nat -> result sys i = [] ->
  is_closed (g sys) = false /\
  (exists sys', step sys (ev_timer i) = Some sys' /\ result sys' i = [resolved_value]) /\
  (exists sys', step sys ev_close = Some sys' /\
                result sys' i = [resolved_exception sleep_aborted]) /\
  (forall ev sys', ev <> ev_timer i -> ev <> ev_close ->
                   step sys ev = Some sys' -> result sys' i = []).
Proof.
  intros Hrun Hi Hres.
  pose proof (run_invariant evs boot sys invariant_boot Hrun) as Hinv.
  destruct (pending_is_waiting sys i Hinv Hi Hres) as (s & Es & Ha & Hd & Ho & Hin).
  split; [exact Ho|]. split; [|split].
  - eexists. split.
    + cbn [step]. rewrite Es. unfold expire. rewrite Ha. reflexivity.
    + unfold result, timer_callback. cbn [w set_sleeper sleepers].
      rewrite lookup_insert_eq, Ho. cbn [negb set_sleeper sleepers done].
      rewrite lookup_insert_eq. cbn [done]. rewrite Hd. reflexivity.
  - eexists. split.
    + cbn [step]. rewrite (close_open _ _ Ho). reflexivity.
    + destruct (for_each_close_listeners (_to_signal (g sys)) (w sys)
                  (inv_listeners sys Hinv)) as [_ Hall].
      specialize (Hall i). rewrite Es in Hall.
      destruct Hall as (s' & Hs' & _ & _ & Hab).
      destruct (Hab Ha) as [_ Hd']; [eexists; split; [exact Hin|reflexivity]|].
      unfold result. cbn [w]. rewrite Hs', Hd', Hd. reflexivity.
  - intros ev sys' Hnt Hnc Hstep.
    destruct ev as [dur|i0| |i0| |]; cbn [step] in Hstep.
    + inversion Hstep; subst sys'; clear Hstep.
      unfold sleep_abortable. rewrite Ho. unfold signal_on_close, result.
      cbn [snd w set_sleeper sleepers].
      rewrite lookup_insert_ne by lia. rewrite Es. exact Hd.
    + assert (Hne : i0 <> i) by congruence.
      destruct (sleepers (w sys) !! i0) as [s0|] eqn:E0;
        [|inversion Hstep; subst; exact Hres].
      unfold expire in Hstep. inversion Hstep; subst sys'; clear Hstep.
      unfold result. cbn [w].
      set (w1 := set_sleeper i0 _ (w sys)).
      assert (H1 : sleepers w1 !! i = Some s)
        by (subst w1; cbn [set_sleeper sleepers]; rewrite lookup_insert_ne by congruence;
            exact Es).
      destruct (armed (tmr s0)); [|rewrite H1; exact Hd].
      unfold timer_callback. destruct (sleepers w1 !! i0); [|rewrite H1; exact Hd].
      destruct (negb (is_closed (g sys))); [|rewrite H1; exact Hd].
      cbn [set_sleeper sleepers]. rewrite lookup_insert_ne by congruence.
      rewrite H1. exact Hd.
    + congruence.
    + destruct (sleepers (w sys) !! i0) as [s0|] eqn:E0;
        [|inversion Hstep; subst; exact Hres].
      destruct (available (done s0)) eqn:Hav; [|inversion Hstep; subst; exact Hres].
      inversion Hstep; subst sys'; clear Hstep.
      assert (Hne : i <> i0).
      { intros ->. rewrite Es in E0. inversion E0; subst s0. rewrite Hd in Hav.
        discriminate. }
      unfold result. cbn [w sleepers]. rewrite lookup_delete_ne by congruence.
      rewrite Es. exact Hd.
    + inversion Hstep; subst. exact Hres.
    + inversion Hstep; subst. exact Hres.
Qed.

(* Call 0 and call 1 are pending after two calls; for call 1 the timer
   gives the value and close() gives sleep_aborted. *)
Lemma pending_sleep_resolved_by_timer_or_close_witness :
  let evs := [ev_sleep 10; ev_sleep 20; ev_timer 0] in
  exists sys,
    run evs boot = Some sys /\
    (exists sys', step sys (ev_timer 1) = Some sys' /\ result sys' 1 = [resolved_value]) /\
    (exists sys', step sys ev_close = Some sys' /\
                  result sys' 1 = [resolved_exception sleep_aborted] /\
                  result sys' 0 = [resolved_value]).
Proof.
  cbn zeta.
  destruct (run [ev_sleep 10; ev_sleep 20; ev_timer 0] boot) as [sys|] eqn:Hrun;
    [|vm_compute in Hrun; discriminate].
  exists sys. split; [reflexivity|].
  assert (Hi : (1 < next_call sys)%nat)
    by (vm_compute in Hrun; inversion Hrun; cbn; lia).
  assert (Hres : result sys 1 = [])
    by (vm_compute in Hrun; inversion Hrun; reflexivity).
  destruct (pending_sleep_resolved_by_timer_or_close _ _ 1%nat Hrun Hi Hres)
    as (_ & Ht & (sys' & Hc & Hr) & _).
  split; [exact Ht|]. exists sys'. split; [exact Hc|]. split; [exact Hr|].
  vm_compute in Hrun. inversion Hrun; subst sys; clear Hrun.
  vm_compute in Hc. inversion Hc; subst sys'. reflexivity.
Defined.

End SleepOutcome.
